(** * AI search monitor: resilience primitives, answer analysis and the
      monitoring workflow

    A shallow embedding of
    - [utils/circuit-breaker.ts]  (class [CircuitBreaker]),
    - [utils/rate-limiter.ts]     (class [RateLimiter]),
    - [utils/retry.ts]            ([retry], [isRetryableError]),
    - [agents/analyzer.agent.ts]  (class [AnalyzerAgent]),
    - [workflows/monitoring.workflow.ts] ([monitoringWorkflow.execute]),
    - [controllers/monitoring.controller.ts] ([startMonitoring]) and the
      client repository, as far as they select the clients of a run,
    followed by the properties of the specification that are stated
    about them.

    Conventions.  A JavaScript [number] that only ever holds an integer is
    a [Z]; an array length or a match count is a [nat]; the quotients of
    the sentiment analysis are the doubles that the divisions give, as
    rationals.  Every reading of
    [Date.now()] is an explicit argument [now] of the method that reads
    it.  A method of a mutable object takes the object and returns the
    new object next to its result. *)

From Stdlib Require Import ZArith QArith String Ascii List Bool Lia.
From stdpp Require Import base option list sorting gmap strings pretty.
Import ListNotations.

Local Open Scope Z_scope.

(** ** utils/circuit-breaker.ts *)

Module CircuitBreaker.

Inductive State := CLOSED | OPEN | HALF_OPEN.

Record CircuitBreakerOptions := {
  failureThreshold : Z;
  resetTimeout : Z;
  halfOpenRequests : option Z   (* optional field *)
}.

Record t := {
  failureCount : Z;
  lastFailureTime : option Z;   (* number | null *)
  state : State;
  halfOpenAttempts : Z
}.

(** [new CircuitBreaker(options)]: the field initialisers. *)
Definition new : t :=
  {| failureCount := 0; lastFailureTime := None;
     state := CLOSED; halfOpenAttempts := 0 |}.

(** Truthiness of [this.lastFailureTime]: [null] and [0] are falsy. *)
Definition truthy (o : option Z) : bool :=
  match o with
  | Some n => negb (n =? 0)
  | None => false
  end.

Definition isOpen (options : CircuitBreakerOptions) (now : Z) (b : t)
  : bool * t :=
  match state b with
  | OPEN =>
      if truthy (lastFailureTime b)
         && (resetTimeout options <? now - default 0 (lastFailureTime b))
      then (false,
            {| failureCount := failureCount b;
               lastFailureTime := lastFailureTime b;
               state := HALF_OPEN;
               halfOpenAttempts := 0 |})
      else (true, b)
  | _ => (false, b)
  end.

(** [this.options.halfOpenRequests || 1] *)
Definition requiredSuccesses (options : CircuitBreakerOptions) : Z :=
  match halfOpenRequests options with
  | Some n => if n =? 0 then 1 else n
  | None => 1
  end.

Definition recordSuccess (options : CircuitBreakerOptions) (b : t) : t :=
  match state b with
  | HALF_OPEN =>
      let attempts := halfOpenAttempts b + 1 in
      if requiredSuccesses options <=? attempts
      then {| failureCount := 0;
              lastFailureTime := lastFailureTime b;
              state := CLOSED;
              halfOpenAttempts := 0 |}
      else {| failureCount := failureCount b;
              lastFailureTime := lastFailureTime b;
              state := HALF_OPEN;
              halfOpenAttempts := attempts |}
  | CLOSED =>
      {| failureCount := Z.max 0 (failureCount b - 1);
         lastFailureTime := lastFailureTime b;
         state := CLOSED;
         halfOpenAttempts := halfOpenAttempts b |}
  | OPEN => b
  end.

Definition recordFailure (options : CircuitBreakerOptions) (now : Z) (b : t)
  : t :=
  let count := failureCount b + 1 in
  match state b with
  | HALF_OPEN =>
      {| failureCount := count;
         lastFailureTime := Some now;
         state := OPEN;
         halfOpenAttempts := 0 |}
  | s =>
      {| failureCount := count;
         lastFailureTime := Some now;
         state := if failureThreshold options <=? count then OPEN else s;
         halfOpenAttempts := halfOpenAttempts b |}
  end.

Definition getState (b : t) : State := state b.

Definition getStats (b : t) : State * Z * option Z * Z :=
  (state b, failureCount b, lastFailureTime b, halfOpenAttempts b).

(** The public methods as a small command language, to speak about
    "any call". *)
Inductive Call :=
| CallIsOpen (now : Z)
| CallRecordSuccess
| CallRecordFailure (now : Z)
| CallGetState
| CallGetStats.

Definition call (options : CircuitBreakerOptions) (c : Call) (b : t) : t :=
  match c with
  | CallIsOpen now => snd (isOpen options now b)
  | CallRecordSuccess => recordSuccess options b
  | CallRecordFailure now => recordFailure options now b
  | CallGetState => b
  | CallGetStats => b
  end.

(** [isOpen()] called once at each of the given clock readings. *)
Fixpoint checks (options : CircuitBreakerOptions) (nows : list Z) (b : t)
  : list bool * t :=
  match nows with
  | [] => ([], b)
  | now :: rest =>
      let '(r, b1) := isOpen options now b in
      let '(rs, b2) := checks options rest b1 in
      (r :: rs, b2)
  end.

(** [recordFailure()] called once at each of the given clock readings. *)
Definition failures (options : CircuitBreakerOptions) (nows : list Z) (b : t)
  : t :=
  foldl (fun acc now => recordFailure options now acc) b nows.

(** The options the workflow constructs every breaker with. *)
Definition workflowOptions : CircuitBreakerOptions :=
  {| failureThreshold := 5; resetTimeout := 60000;
     halfOpenRequests := Some 2 |}.

(** What every breaker built by [new] and the public methods
    satisfies. *)
Definition sound (options : CircuitBreakerOptions) (b : t) : Prop :=
  0 <= failureCount b
  /\ 0 <= halfOpenAttempts b
  /\ (state b <> CLOSED -> exists last, lastFailureTime b = Some last)
  /\ (state b <> HALF_OPEN -> halfOpenAttempts b = 0)
  /\ (state b = CLOSED -> failureCount b < failureThreshold options)
  /\ (state b = HALF_OPEN -> 1 <= requiredSuccesses options ->
      halfOpenAttempts b < requiredSuccesses options).

(** A history of method calls, oldest first. *)
Definition calls (options : CircuitBreakerOptions) (history : list Call)
  (b : t) : t :=
  foldl (fun acc c => call options c acc) b history.

(** [recordSuccess()] called [n] times in a row. *)
Definition successes (options : CircuitBreakerOptions) (n : nat) (b : t) : t :=
  Nat.iter n (recordSuccess options) b.

End CircuitBreaker.

(** ** utils/rate-limiter.ts *)

Module RateLimiter.

Record RateLimiterOptions := {
  maxRequests : Z;
  windowMs : Z
}.

(** The only field, [requests: number[]]. *)
Definition t := list Z.

Definition new : t := [].

Definition tryAcquire (options : RateLimiterOptions) (now : Z) (requests : t)
  : bool * t :=
  let windowStart := now - windowMs options in
  let requests := filter (fun time => windowStart < time) requests in
  if Z.of_nat (length requests) <? maxRequests options
  then (true, requests ++ [now])
  else (false, requests).

(** [Math.min(...requests)] on a non-empty array. *)
Definition oldestRequest (requests : t) : Z :=
  match requests with
  | [] => 0
  | r :: rest => foldl Z.min r rest
  end.

Definition getResetTime (options : RateLimiterOptions) (now : Z)
  (requests : t) : Z :=
  match requests with
  | [] => 0
  | _ => Z.max 0 (oldestRequest requests + windowMs options - now)
  end.

(** [tryAcquire()] called once at each of the given clock readings. *)
Fixpoint acquires (options : RateLimiterOptions) (nows : list Z)
  (requests : t) : list bool * t :=
  match nows with
  | [] => ([], requests)
  | now :: rest =>
      let '(r, requests1) := tryAcquire options now requests in
      let '(rs, requests2) := acquires options rest requests1 in
      (r :: rs, requests2)
  end.

Definition getRemainingRequests (options : RateLimiterOptions) (now : Z)
  (requests : t) : Z :=
  let windowStart := now - windowMs options in
  let validRequests := filter (fun time => windowStart < time) requests in
  Z.max 0 (maxRequests options - Z.of_nat (length validRequests)).

End RateLimiter.

(** ** JavaScript strings

    A text is a [string] of code units.  The functions below are the
    [String.prototype] methods the sources call.  They are exact on ASCII
    text; the case folding of letters outside ASCII is not modelled. *)

Module JsString.

Local Open Scope string_scope.

(** [s.startsWith(search)] *)
Definition startsWith (s search : string) : bool := String.prefix search s.

(** [s.includes(search)] *)
Fixpoint includes (s search : string) : bool :=
  String.prefix search s ||
  match s with
  | EmptyString => false
  | String _ rest => includes rest search
  end.

Definition isUpper (c : ascii) : bool :=
  let n := nat_of_ascii c in (65 <=? n)%nat && (n <=? 90)%nat.

Definition isLower (c : ascii) : bool :=
  let n := nat_of_ascii c in (97 <=? n)%nat && (n <=? 122)%nat.

Definition isDigit (c : ascii) : bool :=
  let n := nat_of_ascii c in (48 <=? n)%nat && (n <=? 57)%nat.

Definition toLowerChar (c : ascii) : ascii :=
  if isUpper c then ascii_of_nat (nat_of_ascii c + 32) else c.

(** [s.toLowerCase()] *)
Fixpoint toLowerCase (s : string) : string :=
  match s with
  | EmptyString => EmptyString
  | String c rest => String (toLowerChar c) (toLowerCase rest)
  end.

(** White space and line terminators, the class [\s] and what [trim]
    removes: TAB, LF, VT, FF, CR and SPACE. *)
Definition isSpace (c : ascii) : bool :=
  let n := nat_of_ascii c in
  ((9 <=? n)%nat && (n <=? 13)%nat) || (n =? 32)%nat.

Fixpoint trimStart (s : string) : string :=
  match s with
  | EmptyString => EmptyString
  | String c rest => if isSpace c then trimStart rest else s
  end.

Fixpoint rev (acc s : string) : string :=
  match s with
  | EmptyString => acc
  | String c rest => rev (String c acc) rest
  end.

Definition trimEnd (s : string) : string :=
  rev EmptyString (trimStart (rev EmptyString s)).

(** [s.trim()] *)
Definition trim (s : string) : string := trimEnd (trimStart s).

(** [s.substring(start, end)] for [0 <= start], [0 <= end]; the
    arguments are swapped when [end < start], as JavaScript does. *)
Definition substring (s : string) (start stop : nat) : string :=
  let lo := Nat.min start stop in
  let hi := Nat.max start stop in
  String.substring lo (hi - lo) s.

(** The [n]-th suffix, [s.slice(n)]. *)
Fixpoint drop (n : nat) (s : string) : string :=
  match n, s with
  | O, _ => s
  | S _, EmptyString => EmptyString
  | S k, String _ rest => drop k rest
  end.

End JsString.

(** ** JavaScript errors and completions *)

Module Js.

(** The [code] property of an error object, read through [any]. *)
Inductive Code :=
| CodeAbsent
| CodeString (s : string)
| CodeNumber (n : Z).

(** An [Error] object: its [message] and its optional [code]. *)
Record Error := { message : string; code : Code }.

(** What a [throw] can carry here: an error object, or [undefined]
    (the value of a [let lastError] that was never assigned). *)
Inductive Thrown :=
| ThrownError (e : Error)
| ThrownUndefined.

Inductive Result (A : Type) :=
| Return (a : A)
| Throw (t : Thrown).
Arguments Return {A} a.
Arguments Throw {A} t.

Definition typeError (msg : string) : Error :=
  {| message := msg; code := CodeAbsent |}.

(** [e.message] for a caught value [e]: reading a property of
    [undefined] is a [TypeError] (the text is V8's). *)
Definition messageOf (t : Thrown) : Result string :=
  match t with
  | ThrownError e => Return (message e)
  | ThrownUndefined =>
      Throw (ThrownError (typeError
        "Cannot read properties of undefined (reading 'message')"))
  end.

End Js.

(** ** utils/retry.ts *)

Module Retry.

Import Js.

Inductive Backoff := linear | exponential.

Section WithWorld.

(** The state the retried operation and the callbacks act on. *)
Context {W T : Type}.

Record RetryOptions := {
  attempts : Z;
  delay : Z;
  backoff : option Backoff;
  maxDelay : option Z;
  onRetry : option (Thrown -> Z -> W -> W);
  retryCondition : option (Thrown -> Result bool)
}.

(** [options.maxDelay || 60000] *)
Definition maxDelayOr (options : RetryOptions) : Z :=
  match maxDelay options with
  | Some d => if d =? 0 then 60000 else d
  | None => 60000
  end.

Definition delayFor (options : RetryOptions) (attempt : Z) : Z :=
  match backoff options with
  | Some exponential =>
      Z.min (delay options * 2 ^ (attempt - 1)) (maxDelayOr options)
  | Some linear =>
      Z.min (delay options * attempt) (maxDelayOr options)
  | None => delay options
  end.

(** [sleep d] is [await new Promise(resolve => setTimeout(resolve, d))]
    and [fn] the retried operation.  [loop] is the [for] statement from
    the test of [attempt <= options.attempts] on; [fuel] bounds the
    iterations that are left and [retry] supplies enough of it.  The
    two log calls that read [lastError.message] throw a [TypeError] when
    the operation threw [undefined]; the throw of a value the retry
    condition refuses reads nothing. *)
Fixpoint loop (sleep : Z -> W -> W) (fn : W -> W * Result T)
  (options : RetryOptions) (fuel : nat) (attempt : Z)
  (lastError : Thrown) (w : W) : W * Result T :=
  if attempts options <? attempt then (w, Throw lastError)
  else
    match fuel with
    | O => (w, Throw lastError)
    | S fuel' =>
        let '(w1, r) := fn w in
        match r with
        | Return v => (w1, Return v)
        | Throw lastError =>
            let proceed :=
              if attempt =? attempts options
              then
                (* logger.error(.., { error: lastError.message, .. }) *)
                match messageOf lastError with
                | Throw t => (w1, Throw t)
                | Return _ => (w1, Throw lastError)
                end
              else
                let w2 :=
                  match onRetry options with
                  | Some f => f lastError attempt w1
                  | None => w1
                  end in
                (* logger.info(.., { error: lastError.message }) *)
                match messageOf lastError with
                | Throw t => (w2, Throw t)
                | Return _ =>
                    loop sleep fn options fuel' (attempt + 1) lastError
                      (sleep (delayFor options attempt) w2)
                end in
            match retryCondition options with
            | Some cond =>
                match cond lastError with
                | Throw t => (w1, Throw t)
                | Return false => (w1, Throw lastError)
                | Return true => proceed
                end
            | None => proceed
            end
        end
    end.

Definition retry (sleep : Z -> W -> W) (fn : W -> W * Result T)
  (options : RetryOptions) (w : W) : W * Result T :=
  loop sleep fn options (Z.to_nat (attempts options)) 1 ThrownUndefined w.

End WithWorld.

Arguments RetryOptions : clear implicits.

Definition retryableErrors : list string :=
  ["TIMEOUT"; "ETIMEDOUT"; "ECONNRESET"; "ECONNREFUSED"; "NETWORK_ERROR";
   "RATE_LIMIT"; "TEMPORARY_FAILURE"; "429"; "503"; "504"]%string.

(** [(error as any).code || ''] : an absent code, the empty string and
    the number 0 all give the empty string. *)
Definition codeOr (c : Code) : Code :=
  match c with
  | CodeAbsent => CodeString ""
  | CodeString s => CodeString s
  | CodeNumber n => if n =? 0 then CodeString "" else CodeNumber n
  end.

(** The callback of [retryableErrors.some]: a number has no [includes]
    method, so the second disjunct throws when it is reached. *)
Definition matchesType (errorMessage : string) (errorCode : Code)
  (type : string) : Result bool :=
  if JsString.includes errorMessage type then Return true
  else
    match errorCode with
    | CodeString c =>
        Return (JsString.includes c type || String.eqb c type)
    | _ =>
        Throw (ThrownError
                 (typeError "errorCode.includes is not a function"))
    end.

(** [Array.prototype.some] with a callback that may throw. *)
Fixpoint some (f : string -> Result bool) (l : list string) : Result bool :=
  match l with
  | [] => Return false
  | x :: rest =>
      match f x with
      | Throw t => Throw t
      | Return true => Return true
      | Return false => some f rest
      end
  end.

(** [isRetryableError(error)] for an error object. *)
Definition isRetryableErrorObject (error : Error) : Result bool :=
  some (matchesType (message error) (codeOr (code error))) retryableErrors.

(** [isRetryableError] on whatever was caught: [undefined.message]
    throws. *)
Definition isRetryableError (error : Thrown) : Result bool :=
  match error with
  | ThrownError e => isRetryableErrorObject e
  | ThrownUndefined =>
      Throw (ThrownError (typeError
        "Cannot read properties of undefined (reading 'message')"))
  end.

End Retry.

(** ** Regular expressions of the analyzer

    The analyzer uses three kinds of pattern, each modelled by its
    matcher: [\b<name>\b] with flags [gi] where the name went through
    [escapeRegex] and so matches literally; fixed alternations of
    literals with flag [i]; and patterns that splice a name in without
    escaping it.  The last kind is modelled for names that hold no
    regular-expression syntax character ([regexLiteral]), where the
    name matches literally; for other names the matcher answers [None]
    (outside the modelled fragment). *)

Module Regex.

Import JsString.
Local Open Scope string_scope.

(** The class [\w] without the [u] flag. *)
Definition isWordChar (c : ascii) : bool :=
  isUpper c || isLower c || isDigit c || Ascii.eqb c "_".

Definition isWord (o : option ascii) : bool :=
  match o with
  | Some c => isWordChar c
  | None => false
  end.

(** [\b] between the character before and the character after. *)
Definition boundary (prev next : option ascii) : bool :=
  xorb (isWord prev) (isWord next).

(** Canonicalize of the [i] flag: the upper-case form. *)
Definition canonicalize (c : ascii) : ascii :=
  if isLower c then ascii_of_nat (nat_of_ascii c - 32) else c.

Definition head (s : string) : option ascii :=
  match s with
  | EmptyString => None
  | String c _ => Some c
  end.

(** Match the literal [lit] at the start of [s], ignoring case; the
    answer is the last character consumed ([prev] when [lit] is empty)
    and the rest of [s]. *)
Fixpoint matchLiteral (lit : string) (prev : option ascii) (s : string)
  : option (option ascii * string) :=
  match lit with
  | EmptyString => Some (prev, s)
  | String a lit' =>
      match s with
      | EmptyString => None
      | String c rest =>
          if Ascii.eqb (canonicalize a) (canonicalize c)
          then matchLiteral lit' (Some c) rest
          else None
      end
  end.

Definition prefixCI (lit s : string) : bool :=
  match matchLiteral lit None s with
  | Some _ => true
  | None => false
  end.

(** [\b<name>\b] matched at the start of [s], with [prev] before it. *)
Definition wholeWordHere (name : string) (prev : option ascii) (s : string)
  : bool :=
  boundary prev (head s) &&
  match matchLiteral name prev s with
  | Some (last, rest) => boundary last (head rest)
  | None => false
  end.

(** The indices of [Array.from(text.matchAll(/\b<name>\b/gi))]: a scan
    from left to right in which a match of length [L] moves [lastIndex]
    by [L], or by one when [L = 0].  [skip] counts the positions still
    covered by the previous match. *)
Fixpoint scan (name : string) (skip : nat) (prev : option ascii) (pos : nat)
  (s : string) : list nat :=
  let here := (skip =? 0)%nat && wholeWordHere name prev s in
  let found := if here then [pos] else [] in
  match s with
  | EmptyString => found
  | String c rest =>
      found ++
      scan name (if here then String.length name - 1 else skip - 1)%nat
        (Some c) (S pos) rest
  end.

Definition matchAll (name text : string) : list nat :=
  scan name 0 None 0 text.

(** [\b<name>\b] matches at index [i] of [s], where [prev] is the
    character before [s]. *)
Fixpoint wholeWordAt (name : string) (prev : option ascii) (s : string)
  (i : nat) : bool :=
  match i, s with
  | O, _ => wholeWordHere name prev s
  | S k, String c rest => wholeWordAt name (Some c) rest k
  | S _, EmptyString => false
  end.

(** The first index at which [test] holds of the suffix, as
    [text.match(/l1|l2|.../i)] finds it. *)
Fixpoint searchCI (s : string) (test : string -> bool) : option nat :=
  if test s then Some O
  else
    match s with
    | EmptyString => None
    | String _ rest => S <$> searchCI rest test
    end.

Definition matchesAnyCI (s : string) (literals : list string) : bool :=
  bool_decide (is_Some (searchCI s (fun suffix =>
    existsb (fun lit => prefixCI lit suffix) literals))).

(** The syntax characters that [escapeRegex] escapes. *)
Definition isSyntaxChar (c : ascii) : bool :=
  existsb (Ascii.eqb c)
    ["."; "*"; "+"; "?"; "^"; "$"; "{"; "}"; "("; ")"; "|"; "[";
     "]"; "\"]%char.

Fixpoint regexLiteral (name : string) : bool :=
  match name with
  | EmptyString => true
  | String c rest => negb (isSyntaxChar c) && regexLiteral rest
  end.

(** [context.match(new RegExp(`^${brand}\\s+(is|are)`, 'i'))] is not
    null. *)
Definition subjectLiteral (brand context : string) : bool :=
  match matchLiteral brand None context with
  | Some (_, rest) =>
      let rest' := trimStart rest in
      negb (String.eqb rest' rest) &&
      (prefixCI "is" rest' || prefixCI "are" rest')
  | None => false
  end.

Definition subjectPattern (brand context : string) : option bool :=
  if regexLiteral brand then Some (subjectLiteral brand context) else None.

(** The index of [text.match(new RegExp(pattern, 'i'))] for the four
    patterns of [findComparisonContext]. *)
Definition comparedTo (competitor text : string) : option (option nat) :=
  if regexLiteral competitor
  then Some (searchCI text (prefixCI ("compared to " ++ competitor)))
  else None.

Definition versus (competitor text : string) : option (option nat) :=
  if regexLiteral competitor
  then Some (searchCI text (prefixCI ("versus " ++ competitor)))
  else None.

(** [vs\.? <competitor>] *)
Definition vsBefore (competitor text : string) : option (option nat) :=
  if regexLiteral competitor
  then Some (searchCI text (fun suffix =>
         prefixCI ("vs. " ++ competitor) suffix ||
         prefixCI ("vs " ++ competitor) suffix))
  else None.

(** [<competitor> vs\.?] : the optional dot never decides a match. *)
Definition vsAfter (competitor text : string) : option (option nat) :=
  if regexLiteral competitor
  then Some (searchCI text (prefixCI (competitor ++ " vs")))
  else None.

(** The character before a position, folded to lower case. *)
Definition lowerChar (o : option ascii) : option ascii := toLowerChar <$> o.

(** How far the scan moves after a match: the length of the name, or
    one position for the empty name. *)
Definition gapOf (name : string) : nat := Nat.max 1 (String.length name).

(** Consecutive indices are at least [gap] apart. *)
Fixpoint spaced (gap : nat) (indices : list nat) : Prop :=
  match indices with
  | i :: (j :: _) as rest => (i + gap <= j)%nat /\ spaced gap rest
  | _ => True
  end.

End Regex.

(** ** Number division

    [n / d] on two integers below 2^53 in magnitude, [d] positive: the
    binary64 value nearest to the exact quotient, ties to even, given
    as the rational it is.  No overflow and no subnormal arises from
    such operands. *)

Module JsNumber.

Local Open Scope Z_scope.

(** [N / D] rounded to the nearest integer, ties to even, for
    [0 <= N] and [0 < D]. *)
Definition roundHalfEven (N D : Z) : Z :=
  let q := N / D in
  let r := N mod D in
  if 2 * r <? D then q
  else if D <? 2 * r then q + 1
  else if Z.even q then q else q + 1.

(** The binary exponent of [n / d], the [E] with
    [2 ^ E <= n / d < 2 ^ (E + 1)], for positive [n] and [d]. *)
Definition exponent (n d : Z) : Z :=
  let k := Z.log2 n - Z.log2 d in
  if d * 2 ^ Z.max 0 k <=? n * 2 ^ Z.max 0 (- k) then k else k - 1.

(** [m * 2 ^ e] *)
Definition scale (m e : Z) : Q :=
  if 0 <=? e then inject_Z (m * 2 ^ e) else Qmake m (Z.to_pos (2 ^ (- e))).

(** The quotient of [0 <= n] by [0 < d], with a significand of 53
    bits. *)
Definition quotient (n d : Z) : Q :=
  if n =? 0 then 0%Q
  else
    let e := exponent n d - 52 in
    scale (roundHalfEven (n * 2 ^ Z.max 0 (- e)) (d * 2 ^ Z.max 0 e)) e.

Definition divide (n d : Z) : Q :=
  if n <? 0 then Qopp (quotient (- n) d) else quotient n d.

End JsNumber.

(** ** agents/analyzer.agent.ts *)

Module Analyzer.

Import JsString Regex.
Local Open Scope string_scope.
Local Open Scope list_scope.
Local Open Scope Z_scope.

Inductive Sentiment := positive | neutral | negative.

Inductive RelativePosition := beginning | early | middle | late | theEnd.

Record BrandMention := {
  brand : string;
  count : nat;
  positions : list nat;
  contexts : list string;
  sentiment : Sentiment;
  strength : Z
}.

Record CompetitorMention := {
  competitor : string;
  competitorCount : nat;
  competitorPositions : list nat;
  comparisonContext : option string
}.

Record SentimentAnalysis := {
  overall : Sentiment;
  score : Q;
  breakdown : Q * Q * Q      (* positive, neutral, negative *)
}.

Record PositionAnalysis := {
  averagePosition : Q;
  firstMentionPosition : Z;
  lastMentionPosition : Z;
  relativePosition : RelativePosition
}.

Record Factors := {
  mentionCount : Z;
  positionScore : Z;
  sentimentScore : Z;
  competitorComparison : Z
}.

Record VisibilityScore := {
  visibilityScore : Z;       (* the field [score] *)
  factors : Factors
}.

Record Analysis := {
  brandMentions : list BrandMention;
  competitorMentions : list CompetitorMention;
  sentimentAnalysis : SentimentAnalysis;
  position : PositionAnalysis;
  visibility : VisibilityScore;
  recommendations : list string
}.

(** The scrape result as far as the analyzer reads it. *)
Record ScrapeResult := { response : option string }.

(** [result.response || ''] *)
Definition textOf (result : ScrapeResult) : string :=
  default "" (response result).

Definition extractContext (text : string) (position windowSize : nat)
  : string :=
  let start := (position - windowSize)%nat in
  let stop := Nat.min (String.length text) (position + windowSize) in
  trim (substring text start stop).

Definition positiveWords : list string :=
  ["best"; "excellent"; "great"; "recommended"; "top"; "leading";
   "最高"; "優れ"; "おすすめ"; "人気"; "信頼"].

Definition negativeWords : list string :=
  ["poor"; "bad"; "worst"; "avoid"; "problem"; "issue";
   "問題"; "悪い"; "避ける"; "欠点"].

(** How many words of the list the text includes. *)
Definition countWords (words : list string) (lowerContext : string) : nat :=
  length (filter (fun word => includes lowerContext word = true) words).

Definition analyzeMentionSentiment (contexts : list string) : Sentiment :=
  let positiveCount :=
    foldl (fun n context =>
             (n + countWords positiveWords (toLowerCase context))%nat)
          O contexts in
  let negativeCount :=
    foldl (fun n context =>
             (n + countWords negativeWords (toLowerCase context))%nat)
          O contexts in
  (* [p > n * 1.5] on integers is [2 * p > 3 * n] *)
  if (3 * negativeCount <? 2 * positiveCount)%nat then positive
  else if (3 * positiveCount <? 2 * negativeCount)%nat then negative
  else neutral.

Definition strongEndorsement (context : string) : bool :=
  matchesAnyCI context
    ["highly recommend"; "strongly recommend"; "best choice"; "top choice"].

Definition primarySubject (context brand : string) : option bool :=
  if startsWith context brand then Some true
  else subjectPattern brand context.

Definition comparisonWin (context : string) : bool :=
  matchesAnyCI context ["better than"; "superior to"; "outperforms"].

(** What one context adds to the strength: the body of the [forEach]. *)
Definition contextBonus (brand context : string) : option Z :=
  subject ← primarySubject context brand;
  Some ((if strongEndorsement context then 10 else 0)
        + (if subject : bool then 5 else 0)
        + (if comparisonWin context then 5 else 0)).

(** What one context earns when the brand holds no syntax character,
    so that [contextBonus] has an answer. *)
Definition bonusOf (brand context : string) : Z :=
  (if strongEndorsement context then 10 else 0)
  + (if startsWith context brand || subjectLiteral brand context
     then 5 else 0)
  + (if comparisonWin context then 5 else 0).

Definition sumZ (l : list Z) : Z := foldr Z.add 0 l.

Definition calculateMentionStrength (contexts : list string) (brand : string)
  : option Z :=
  strength ← foldl (fun acc context =>
                      strength ← acc;
                      bonus ← contextBonus brand context;
                      Some (strength + bonus))
                   (Some 50) contexts;
  Some (Z.min strength 100).

Definition findComparisonContext (text competitor : string)
  : option (option string) :=
  m1 ← comparedTo competitor text;
  m2 ← versus competitor text;
  m3 ← vsBefore competitor text;
  m4 ← vsAfter competitor text;
  Some (match m1, m2, m3, m4 with
        | Some index, _, _, _
        | None, Some index, _, _
        | None, None, Some index, _
        | None, None, None, Some index =>
            Some (extractContext text index 200)
        | None, None, None, None => None
        end).

Fixpoint analyzeBrandMentionsIn (text : string) (brandNames : list string)
  : option (list BrandMention) :=
  match brandNames with
  | [] => Some []
  | brand :: rest =>
      let matches := matchAll brand text in
      match matches with
      | [] => analyzeBrandMentionsIn text rest
      | _ =>
          let contexts :=
            map (fun index => extractContext text index 150) matches in
          strength ← calculateMentionStrength contexts brand;
          mentions ← analyzeBrandMentionsIn text rest;
          Some ({| brand := brand;
                   count := length matches;
                   positions := matches;
                   contexts := contexts;
                   sentiment := analyzeMentionSentiment contexts;
                   strength := strength |} :: mentions)
      end
  end.

Definition analyzeBrandMentions (result : ScrapeResult)
  (brandNames : list string) : option (list BrandMention) :=
  analyzeBrandMentionsIn (textOf result) brandNames.

Fixpoint analyzeCompetitorMentionsIn (text : string)
  (competitorNames : list string) : option (list CompetitorMention) :=
  match competitorNames with
  | [] => Some []
  | competitor :: rest =>
      let matches := matchAll competitor text in
      match matches with
      | [] => analyzeCompetitorMentionsIn text rest
      | _ =>
          context ← findComparisonContext text competitor;
          mentions ← analyzeCompetitorMentionsIn text rest;
          Some ({| competitor := competitor;
                   competitorCount := length matches;
                   competitorPositions := matches;
                   comparisonContext := context |} :: mentions)
      end
  end.

Definition analyzeCompetitorMentions (result : ScrapeResult)
  (competitorNames : list string) : option (list CompetitorMention) :=
  analyzeCompetitorMentionsIn (textOf result) competitorNames.

(** The sum of the counts of the mentions with the given label
    ([default] of the [switch] is [neutral]). *)
Definition countOf (label : Sentiment) (mentions : list BrandMention) : nat :=
  foldl (fun n m =>
           match label, sentiment m with
           | positive, positive | negative, negative | neutral, neutral =>
               (n + count m)%nat
           | _, _ => n
           end) O mentions.

Definition ofNat (n : nat) : Q := inject_Z (Z.of_nat n).

(** The literal [0.3]: the double nearest to 3/10. *)
Definition literal_0_3 : Q := JsNumber.divide 3 10.

(** The counts are integers; the score and the three shares are the
    doubles that the divisions give. *)
Definition analyzeSentiment (mentions : list BrandMention)
  : SentimentAnalysis :=
  let pos := countOf positive mentions in
  let neu := countOf neutral mentions in
  let neg := countOf negative mentions in
  let total := (pos + neu + neg)%nat in
  if (total =? 0)%nat then
    {| overall := neutral; score := 0; breakdown := (0, 0, 0)%Q |}
  else
    let score :=
      JsNumber.divide (Z.of_nat pos - Z.of_nat neg) (Z.of_nat total) in
    {| overall :=
         if Qlt_le_dec literal_0_3 score then positive
         else if Qlt_le_dec score (- literal_0_3)%Q then negative
         else neutral;
       score := score;
       breakdown := (JsNumber.divide (Z.of_nat pos) (Z.of_nat total),
                     JsNumber.divide (Z.of_nat neu) (Z.of_nat total),
                     JsNumber.divide (Z.of_nat neg) (Z.of_nat total)) |}.

(** [Math.min(...a)] and [Math.max(...a)] on a non-empty array. *)
Definition minOf (a : list nat) : Z :=
  match a with
  | [] => 0
  | x :: rest => Z.of_nat (foldl Nat.min x rest)
  end.

Definition maxOf (a : list nat) : Z :=
  match a with
  | [] => 0
  | x :: rest => Z.of_nat (foldl Nat.max x rest)
  end.

(** The bucket of [averagePosition / 5000], in exact arithmetic. *)
Definition bucket (averagePosition : Q) : RelativePosition :=
  let relativePos := (averagePosition / 5000)%Q in
  if Qlt_le_dec relativePos (2 # 10) then beginning
  else if Qlt_le_dec relativePos (4 # 10) then early
  else if Qlt_le_dec relativePos (6 # 10) then middle
  else if Qlt_le_dec relativePos (8 # 10) then late
  else theEnd.

Definition analyzePosition (mentions : list BrandMention)
  : PositionAnalysis :=
  if bool_decide (mentions = [])
     || forallb (fun m => (length (positions m) =? 0)%nat) mentions
  then
    {| averagePosition := - 1;
       firstMentionPosition := - 1;
       lastMentionPosition := - 1;
       relativePosition := theEnd |}
  else
    let allPositions :=
      merge_sort Nat.le (concat (map positions mentions)) in
    let averagePosition :=
      (ofNat (foldl Nat.add O allPositions)
       / ofNat (length allPositions))%Q in
    {| averagePosition := averagePosition;
       firstMentionPosition := minOf allPositions;
       lastMentionPosition := maxOf allPositions;
       relativePosition := bucket averagePosition |}.

(** [mentions.reduce((sum, m) => sum + m.count, 0)] *)
Definition totalMentions {A} (countOf : A -> nat) (mentions : list A) : Z :=
  Z.of_nat (foldl (fun sum m => (sum + countOf m)%nat) O mentions).

Definition calculateVisibilityScore (brands : list BrandMention)
  (competitors : list CompetitorMention) (sentiment : SentimentAnalysis)
  (position : PositionAnalysis) : VisibilityScore :=
  let totalBrandMentions := totalMentions count brands in
  let totalCompetitorMentions := totalMentions competitorCount competitors in
  let mentionCount := Z.min (totalBrandMentions * 5) 25 in
  let positionScore :=
    match relativePosition position with
    | beginning => 25
    | early => 20
    | middle => 15
    | late => 10
    | theEnd => 5
    end in
  let sentimentScore :=
    match overall sentiment with
    | positive => 25
    | neutral => 15
    | negative => 5
    end in
  let competitorComparison :=
    if totalCompetitorMentions <? totalBrandMentions then 25
    else if totalBrandMentions =? totalCompetitorMentions then 15
    else 5 in
  {| visibilityScore :=
       mentionCount + positionScore + sentimentScore + competitorComparison;
     factors := {| mentionCount := mentionCount;
                   positionScore := positionScore;
                   sentimentScore := sentimentScore;
                   competitorComparison := competitorComparison |} |}.

Definition generateRecommendations (brands : list BrandMention)
  (competitors : list CompetitorMention) (sentiment : SentimentAnalysis)
  (position : PositionAnalysis) (visibility : VisibilityScore)
  : list string :=
  let totalBrandMentions := totalMentions count brands in
  let totalCompetitorMentions := totalMentions competitorCount competitors in
  (if visibilityScore visibility <? 30
   then ["Increase brand presence through more comprehensive content";
         "Consider creating dedicated FAQ sections about your brand"]
   else [])
  ++ (match relativePosition position with
      | late | theEnd =>
          ["Optimize content to appear earlier in AI responses";
           "Focus on primary keywords and main value propositions"]
      | _ => []
      end)
  ++ (match overall sentiment with
      | negative =>
          ["Address negative perceptions through improved messaging";
           "Create positive case studies and success stories"]
      | _ => []
      end)
  ++ (if totalBrandMentions <? totalCompetitorMentions
      then ["Strengthen competitive positioning";
            "Highlight unique differentiators more prominently"]
      else [])
  ++ (match brands with
      | [] => ["Critical: No brand mentions detected";
               "Urgent need for brand awareness campaign"]
      | _ => []
      end).

(** The [analysis] field of what [AnalyzerAgent.execute] returns for a
    scrape result and a client's names ([competitorNames || []] is the
    caller's list or the empty one). *)
Definition execute (result : ScrapeResult) (brandNames : list string)
  (competitorNames : option (list string)) : option Analysis :=
  brands ← analyzeBrandMentions result brandNames;
  competitors ← analyzeCompetitorMentions result (default [] competitorNames);
  let sentiment := analyzeSentiment brands in
  let position := analyzePosition brands in
  let visibility :=
    calculateVisibilityScore brands competitors sentiment position in
  Some {| brandMentions := brands;
          competitorMentions := competitors;
          sentimentAnalysis := sentiment;
          position := position;
          visibility := visibility;
          recommendations :=
            generateRecommendations brands competitors sentiment position
              visibility |}.

End Analyzer.

(** ** workflows/monitoring.workflow.ts *)

Module Workflow.

Import Js.
Local Open Scope string_scope.
Local Open Scope list_scope.
Local Open Scope Z_scope.

Inductive Platform := chatgpt | perplexity | gemini | claude | google_ai.

Definition platformName (p : Platform) : string :=
  match p with
  | chatgpt => "chatgpt"
  | perplexity => "perplexity"
  | gemini => "gemini"
  | claude => "claude"
  | google_ai => "google-ai"
  end.

Inductive Priority := high | medium | low.

(** The value [MonitoringInputSchema.parse] returns. *)
Record MonitoringInput := {
  clientIds : option (list Z);
  platforms : option (list Platform);
  priority : Priority;
  retryOnFailure : bool;
  maxRetries : Z;
  timeout : Z
}.

Record Client := {
  id : Z;
  name : string;
  brandNames : list string;
  competitorNames : option (list string)
}.

(** An entry of the [errors] array. *)
Record ErrorEntry := {
  errorClientId : option Z;
  errorPlatform : option Platform;
  error : string;
  resetTime : option Z;
  errorTimestamp : Z
}.

(** The [data] of a successful entry: the analysis, or the scrape result
    itself when there is no analyzer agent. *)
Inductive Data :=
| Analysed (analysis : Analyzer.Analysis)
| Scraped (result : Analyzer.ScrapeResult).

(** An entry of a client's [clientResults] array. *)
Record PlatformResult := {
  platform : Platform;
  success : bool;
  data : option Data;
  raw : option Analyzer.ScrapeResult;
  resultError : option string
}.

(** What a client's task resolves to. *)
Record ClientResult := {
  clientId : Z;
  clientName : string;
  results : list PlatformResult;
  timestamp : Z
}.

Record Stats := {
  executionTime : Z;
  totalClients : nat;
  totalPlatforms : nat;
  successfulResults : nat;
  failedResults : nat
}.

Record Outcome := {
  outcomeSuccess : bool;
  outcomeResults : list ClientResult;
  outcomeErrors : list ErrorEntry;
  stats : Stats
}.

(** The two agents are collaborators handed to [execute].  The scraper
    is given the clock reading and the number of scrape calls made
    before this one, and answers how long the call took and how it
    completed; the analyzer completes at once. *)
Definition ScraperAgent : Type :=
  Platform -> Client -> Z -> Z -> nat -> Z * Result Analyzer.ScrapeResult.

Definition AnalyzerAgent : Type :=
  Analyzer.ScrapeResult -> Client -> Platform -> Result Analyzer.Analysis.

Record Agents := {
  scraper : option ScraperAgent;       (* agents.get('scraper') *)
  analyzer : option AnalyzerAgent      (* agents.get('analyzer') *)
}.

(** The module-level state ([circuitBreakers], [rateLimiters]), the
    clock, the [errors] array that all client tasks of a run share, and
    the log of the calls made to the scraper agent. *)
Record State := {
  clock : Z;
  circuitBreakers : gmap string CircuitBreaker.t;
  rateLimiters : Platform -> RateLimiter.t;
  errors : list ErrorEntry;
  scrapeLog : list (Z * Platform)
}.

(** The limits read from the environment, by default 10, 20, 15, 10 and
    25 requests per 60000 ms. *)
Record Limits := {
  maxRequestsOf : Platform -> Z;
  rateLimitWindowMs : Z
}.

Definition defaultLimits : Limits :=
  {| maxRequestsOf := fun p =>
       match p with
       | chatgpt => 10
       | perplexity => 20
       | gemini => 15
       | claude => 10
       | google_ai => 25
       end;
     rateLimitWindowMs := 60000 |}.

Definition limiterOptions (limits : Limits) (p : Platform)
  : RateLimiter.RateLimiterOptions :=
  {| RateLimiter.maxRequests := maxRequestsOf limits p;
     RateLimiter.windowMs := rateLimitWindowMs limits |}.

#[export] Instance Platform_eq_dec : EqDecision Platform.
Proof. solve_decision. Defined.

(** [`${client.id}-${platform}`] *)
Definition breakerKey (client : Client) (p : Platform) : string :=
  pretty (id client) +:+ "-" +:+ platformName p.

Definition setBreaker (key : string) (b : CircuitBreaker.t) (s : State)
  : State :=
  {| clock := clock s;
     circuitBreakers := <[key := b]> (circuitBreakers s);
     rateLimiters := rateLimiters s;
     errors := errors s;
     scrapeLog := scrapeLog s |}.

Definition setLimiter (p : Platform) (l : RateLimiter.t) (s : State)
  : State :=
  {| clock := clock s;
     circuitBreakers := circuitBreakers s;
     rateLimiters := fun q => if decide (q = p) then l else rateLimiters s q;
     errors := errors s;
     scrapeLog := scrapeLog s |}.

Definition pushError (e : ErrorEntry) (s : State) : State :=
  {| clock := clock s;
     circuitBreakers := circuitBreakers s;
     rateLimiters := rateLimiters s;
     errors := errors s ++ [e];
     scrapeLog := scrapeLog s |}.

(** [const errors: any[] = []] at the start of a run. *)
Definition clearErrors (s : State) : State :=
  {| clock := clock s;
     circuitBreakers := circuitBreakers s;
     rateLimiters := rateLimiters s;
     errors := [];
     scrapeLog := scrapeLog s |}.

(** Time passing: a scrape call or the sleep between two attempts. *)
Definition sleep (ms : Z) (s : State) : State :=
  {| clock := clock s + ms;
     circuitBreakers := circuitBreakers s;
     rateLimiters := rateLimiters s;
     errors := errors s;
     scrapeLog := scrapeLog s |}.

Definition logScrape (client : Client) (p : Platform) (s : State) : State :=
  {| clock := clock s;
     circuitBreakers := circuitBreakers s;
     rateLimiters := rateLimiters s;
     errors := errors s;
     scrapeLog := scrapeLog s ++ [(id client, p)] |}.

(** The breaker of a key, once [circuitBreakers.has/set] made sure there
    is one. *)
Definition breakerOf (key : string) (s : State) : CircuitBreaker.t :=
  default CircuitBreaker.new (circuitBreakers s !! key).

(** The operation handed to [retry]: look the scraper agent up and call
    it. *)
Definition scrapeOnce (agents : Agents) (input : MonitoringInput)
  (client : Client) (p : Platform) (s : State)
  : State * Result Analyzer.ScrapeResult :=
  match scraper agents with
  | None =>
      (s, Throw (ThrownError {| message := "Scraper agent not found";
                                code := CodeAbsent |}))
  | Some scraperAgent =>
      let '(elapsed, r) :=
        scraperAgent p client (timeout input) (clock s)
          (length (scrapeLog s)) in
      (sleep elapsed (logScrape client p s), r)
  end.

(** The options literal of the call to [retry]; [onRetry] only logs. *)
Definition retryOptions (input : MonitoringInput)
  : Retry.RetryOptions State :=
  {| Retry.attempts := maxRetries input;
     Retry.delay := 2000;
     Retry.backoff := Some Retry.exponential;
     Retry.maxDelay := Some 30000;
     Retry.onRetry := Some (fun _ _ s => s);
     Retry.retryCondition := Some Retry.isRetryableError |}.

Definition failureError (client : Client) (p : Platform) (msg : string)
  (now : Z) : ErrorEntry :=
  {| errorClientId := Some (id client);
     errorPlatform := Some p;
     error := msg;
     resetTime := None;
     errorTimestamp := now |}.

Definition failureResult (p : Platform) (msg : string) : PlatformResult :=
  {| platform := p; success := false; data := None;
     raw := None; resultError := Some msg |}.

(** The [catch] block of the loop body.  [error.message] is first read
    after [breaker.recordFailure()], and reading it throws when the
    caught value is [undefined]; that exception leaves the client's
    task. *)
Definition catchBlock (client : Client) (p : Platform)
  (clientResults : list PlatformResult) (caught : Thrown) (s : State)
  : State * Result (list PlatformResult) :=
  let key := breakerKey client p in
  let s1 :=
    setBreaker key
      (CircuitBreaker.recordFailure CircuitBreaker.workflowOptions (clock s)
         (breakerOf key s)) s in
  match messageOf caught with
  | Throw t => (s1, Throw t)
  | Return msg =>
      (pushError (failureError client p msg (clock s1)) s1,
       Return (clientResults ++ [failureResult p msg]))
  end.

(** The [try] block after [retry] returned: record the success, then
    analyse. *)
Definition afterScrape (agents : Agents) (client : Client) (p : Platform)
  (clientResults : list PlatformResult) (result : Analyzer.ScrapeResult)
  (s : State) : State * Result (list PlatformResult) :=
  let key := breakerKey client p in
  let s1 :=
    setBreaker key
      (CircuitBreaker.recordSuccess CircuitBreaker.workflowOptions
         (breakerOf key s)) s in
  match analyzer agents with
  | Some analyzerAgent =>
      match analyzerAgent result client p with
      | Return analysis =>
          (s1, Return (clientResults ++
                         [{| platform := p; success := true;
                             data := Some (Analysed analysis);
                             raw := Some result; resultError := None |}]))
      | Throw t => catchBlock client p clientResults t s1
      end
  | None =>
      (s1, Return (clientResults ++
                     [{| platform := p; success := true;
                         data := Some (Scraped result);
                         raw := None; resultError := None |}]))
  end.

(** [circuitBreakers.has/set/get] followed by [breaker.isOpen()]. *)
Definition checkBreaker (client : Client) (p : Platform) (s : State)
  : State * bool :=
  let key := breakerKey client p in
  let s0 :=
    match circuitBreakers s !! key with
    | Some _ => s
    | None => setBreaker key CircuitBreaker.new s
    end in
  let '(isOpen, breaker) :=
    CircuitBreaker.isOpen CircuitBreaker.workflowOptions (clock s0)
      (breakerOf key s0) in
  (setBreaker key breaker s0, isOpen).

(** [await rateLimiters[platform].tryAcquire()] *)
Definition checkRateLimit (limits : Limits) (p : Platform) (s : State)
  : State * bool :=
  let '(acquired, limiter) :=
    RateLimiter.tryAcquire (limiterOptions limits p) (clock s)
      (rateLimiters s p) in
  (setLimiter p limiter s, acquired).

(** The [try] statement: [retry] around the scrape, then the rest of the
    [try] block or the [catch] block. *)
Definition dispatch (agents : Agents) (input : MonitoringInput)
  (client : Client) (p : Platform) (clientResults : list PlatformResult)
  (s : State) : State * Result (list PlatformResult) :=
  match Retry.retry sleep (scrapeOnce agents input client p)
          (retryOptions input) s with
  | (s1, Return result) => afterScrape agents client p clientResults result s1
  | (s1, Throw t) => catchBlock client p clientResults t s1
  end.

Definition circuitOpenError (client : Client) (p : Platform) (now : Z)
  : ErrorEntry :=
  {| errorClientId := Some (id client);
     errorPlatform := Some p;
     error := "Circuit breaker open";
     resetTime := None;
     errorTimestamp := now |}.

Definition rateLimitError (limits : Limits) (client : Client) (p : Platform)
  (s : State) : ErrorEntry :=
  {| errorClientId := Some (id client);
     errorPlatform := Some p;
     error := "Rate limit exceeded";
     resetTime :=
       Some (RateLimiter.getResetTime (limiterOptions limits p) (clock s)
               (rateLimiters s p));
     errorTimestamp := clock s |}.

(** The body of [for (const platform of platforms)] for one work unit.
    [Return] carries the client's result list after the unit ([continue]
    included); [Throw] is an exception that leaves the loop. *)
Definition processPlatform (limits : Limits) (agents : Agents)
  (input : MonitoringInput) (client : Client) (p : Platform)
  (clientResults : list PlatformResult) (s : State)
  : State * Result (list PlatformResult) :=
  let '(s1, isOpen) := checkBreaker client p s in
  if isOpen then
    (pushError (circuitOpenError client p (clock s1)) s1, Return clientResults)
  else
    let '(s2, acquired) := checkRateLimit limits p s1 in
    if negb acquired then
      (pushError (rateLimitError limits client p s2) s2, Return clientResults)
    else dispatch agents input client p clientResults s2.

(** The [for] loop over the platforms. *)
Fixpoint processPlatforms (limits : Limits) (agents : Agents)
  (input : MonitoringInput) (client : Client) (ps : list Platform)
  (clientResults : list PlatformResult) (s : State)
  : State * Result (list PlatformResult) :=
  match ps with
  | [] => (s, Return clientResults)
  | p :: rest =>
      match processPlatform limits agents input client p clientResults s with
      | (s1, Return clientResults1) =>
          processPlatforms limits agents input client rest clientResults1 s1
      | (s1, Throw t) => (s1, Throw t)
      end
  end.

(** The [async (client) => ...] task of one client: how its promise
    settles. *)
Definition processClient (limits : Limits) (agents : Agents)
  (input : MonitoringInput) (ps : list Platform) (client : Client) (s : State)
  : State * Result ClientResult :=
  match processPlatforms limits agents input client ps [] s with
  | (s1, Return clientResults) =>
      (s1, Return {| clientId := id client;
                     clientName := name client;
                     results := clientResults;
                     timestamp := clock s1 |})
  | (s1, Throw t) => (s1, Throw t)
  end.

(** The tasks of one batch, run one after the other.  For a batch of
    one client, as with priority [low], this is what the code does.  For
    a larger batch the code starts every task and the tasks take turns
    at their [await]s; this function then gives the run in which no two
    tasks overlap, which is not the order of the code, and what is
    stated about runs through it is stated for batches of one client.
    [Interleaving.runBatch] below lets the tasks take turns. *)
Fixpoint runBatch (limits : Limits) (agents : Agents)
  (input : MonitoringInput) (ps : list Platform) (batch : list Client)
  (s : State) : State * list (Result ClientResult) :=
  match batch with
  | [] => (s, [])
  | client :: rest =>
      let '(s1, settled) := processClient limits agents input ps client s in
      let '(s2, others) := runBatch limits agents input ps rest s1 in
      (s2, settled :: others)
  end.

(** [batchResults.forEach(...)]: fulfilled values go to [results], the
    message of a rejection goes to [errors]. *)
Fixpoint collect (batchResults : list (Result ClientResult))
  (results : list ClientResult) (s : State)
  : State * Result (list ClientResult) :=
  match batchResults with
  | [] => (s, Return results)
  | Return value :: rest => collect rest (results ++ [value]) s
  | Throw reason :: rest =>
      match messageOf reason with
      | Throw t => (s, Throw t)
      | Return msg =>
          collect rest results
            (pushError {| errorClientId := None;
                          errorPlatform := None;
                          error := msg;
                          resetTime := None;
                          errorTimestamp := clock s |} s)
      end
  end.

(** [chunkArray(array, size)] for [size >= 1]; [fuel] bounds the number
    of chunks. *)
Fixpoint chunkFrom {A} (fuel : nat) (array : list A) (size : nat)
  : list (list A) :=
  match fuel, array with
  | O, _ | _, [] => []
  | S fuel', _ => take size array :: chunkFrom fuel' (drop size array) size
  end.

Definition chunkArray {A} (array : list A) (size : nat) : list (list A) :=
  chunkFrom (length array) array size.

(** [for (const batch of clientBatches)] *)
Fixpoint runBatches (limits : Limits) (agents : Agents)
  (input : MonitoringInput) (ps : list Platform)
  (clientBatches : list (list Client)) (results : list ClientResult)
  (s : State) : State * Result (list ClientResult) :=
  match clientBatches with
  | [] => (s, Return results)
  | batch :: rest =>
      let '(s1, batchResults) := runBatch limits agents input ps batch s in
      match collect batchResults results s1 with
      | (s2, Return results1) =>
          runBatches limits agents input ps rest results1 s2
      | (s2, Throw t) => (s2, Throw t)
      end
  end.

Definition allPlatforms : list Platform :=
  [chatgpt; perplexity; gemini; claude; google_ai].

Definition concurrencyOf (p : Priority) : nat :=
  match p with
  | high => 5
  | medium => 3
  | low => 1
  end.

(** [monitoringWorkflow.execute] on a validated input.  [getClients] is
    the client repository's answer for the requested ids.  The state
    that comes in carries the breakers and limiters left by earlier
    runs. *)
Definition execute (limits : Limits) (agents : Agents)
  (getClients : option (list Z) -> list Client) (input : MonitoringInput)
  (s : State) : State * Result Outcome :=
  let startTime := clock s in
  let s := clearErrors s in
  let clients := getClients (clientIds input) in
  match clients with
  | [] =>
      (s, Throw (ThrownError {| message := "No clients found for monitoring";
                                code := CodeAbsent |}))
  | _ =>
      let ps := default allPlatforms (platforms input) in
      let concurrency := concurrencyOf (priority input) in
      let clientBatches := chunkArray clients concurrency in
      match runBatches limits agents input ps clientBatches [] s with
      | (s1, Throw t) => (s1, Throw t)
      | (s1, Return results) =>
          (s1, Return {| outcomeSuccess := true;
                         outcomeResults := results;
                         outcomeErrors := errors s1;
                         stats := {| executionTime := clock s1 - startTime;
                                     totalClients := length clients;
                                     totalPlatforms := length ps;
                                     successfulResults := length results;
                                     failedResults := length (errors s1) |} |})
      end
  end.

(** A state with no breaker yet, empty limiters and an empty [errors]
    array, as when the module has just been loaded. *)
Definition initial (now : Z) : State :=
  {| clock := now;
     circuitBreakers := ∅;
     rateLimiters := fun _ => RateLimiter.new;
     errors := [];
     scrapeLog := [] |}.

(** An error entry that names its work unit, as the entries pushed
    inside the platform loop do. *)
Definition namesUnit (e : ErrorEntry) : Prop :=
  is_Some (errorClientId e) /\ is_Some (errorPlatform e).

(** An error entry of the given work unit. *)
Definition namesThis (client : Client) (p : Platform) (e : ErrorEntry) : Prop :=
  errorClientId e = Some (id client) /\ errorPlatform e = Some p.

(** The error list of [after] is that of [before] followed by entries
    that all satisfy [P]. *)
Definition errorsGrow (P : ErrorEntry -> Prop) (before after : State) : Prop :=
  exists added, errors after = errors before ++ added /\ Forall P added.

(** An agent that never throws [undefined]. *)
Definition throwsErrors {A} (r : Result A) : Prop :=
  r <> Throw ThrownUndefined.

Definition wellBehaved (agents : Agents) : Prop :=
  (forall scraperAgent p client t now n,
     scraper agents = Some scraperAgent ->
     throwsErrors (snd (scraperAgent p client t now n)))
  /\ (forall analyzerAgent result client p,
        analyzer agents = Some analyzerAgent ->
        throwsErrors (analyzerAgent result client p)).

(** [after] has the breakers of [before] except perhaps that of the
    work unit, and the limiters of [before] except perhaps that of the
    unit's platform. *)
Definition sameElsewhere (client : Client) (p : Platform)
  (before after : State) : Prop :=
  (forall key, key <> breakerKey client p ->
     circuitBreakers after !! key = circuitBreakers before !! key)
  /\ (forall q, q <> p -> rateLimiters after q = rateLimiters before q).

(** What a unit may add to the client's result list: nothing, or one
    entry for its platform. *)
Definition addsAtMostOne (p : Platform) (before after : list PlatformResult)
  : Prop :=
  after = before \/ exists entry, after = before ++ [entry] /\ platform entry = p.

(** A settled task that is fulfilled, or rejected with an error
    object. *)
Definition settledProperly (r : Result ClientResult) : Prop :=
  match r with
  | Return _ => True
  | Throw t => exists e, t = ThrownError e
  end.

(** The characters a client id prints with, its sign apart. *)
Definition isDigit (c : ascii) : bool :=
  bool_decide (c ∈ ["0"; "1"; "2"; "3"; "4"; "5"; "6"; "7"; "8"; "9"]%char).

Fixpoint allDigits (text : string) : bool :=
  match text with
  | EmptyString => true
  | String c rest => isDigit c && allDigits rest
  end.

End Workflow.

(** ** The tasks of a batch, turn by turn

    [batch.map(async (client) => ...)] starts one task for each client
    of a batch and [Promise.allSettled] waits for all of them.  A task
    runs until its next [await] and then another task may take a turn.
    Here a turn is what a task does from where it waits to its next
    [await]; which task takes the next turn is given by a schedule, and
    every order of turns the code can run is one of the schedules.  A
    wait for the scraper or for a retry delay ends at a clock reading,
    and the clock is moved on to it when the task takes its turn. *)

Module Interleaving.

Import Js Workflow.
Local Open Scope string_scope.
Local Open Scope list_scope.
Local Open Scope Z_scope.

(** Where a client's task waits. *)
Inductive Phase :=
| Starting
| Acquiring (p : Platform) (acquired : bool)
| Scraping (p : Platform) (attempt : Z) (wake : Z)
    (r : Result Analyzer.ScrapeResult)
| Sleeping (p : Platform) (attempt : Z) (wake : Z) (lastError : Thrown)
| Rejected (p : Platform) (t : Thrown)
| Fulfilled (p : Platform) (result : Analyzer.ScrapeResult)
| Analysing (p : Platform) (result : Analyzer.ScrapeResult)
    (r : Result Analyzer.Analysis)
| Settled (r : Result ClientResult).

Record Task := {
  taskClient : Client;
  remaining : list Platform;
  taskResults : list PlatformResult;
  phase : Phase
}.

Definition waiting (client : Client) (rest : list Platform)
  (clientResults : list PlatformResult) (ph : Phase) : Task :=
  {| taskClient := client; remaining := rest;
     taskResults := clientResults; phase := ph |}.

(** The clock when a wait that ends at [wake] is over. *)
Definition resume (wake : Z) (s : State) : State :=
  sleep (Z.max 0 (wake - clock s)) s.

Section Steps.

Variable limits : Limits.
Variable agents : Agents.
Variable input : MonitoringInput.

(** From the head of the platform loop to the next [await]. *)
Fixpoint loopHead (client : Client) (ps : list Platform)
  (clientResults : list PlatformResult) (s : State) : State * Task :=
  match ps with
  | [] =>
      (s, waiting client [] clientResults
            (Settled (Return {| clientId := id client;
                                clientName := name client;
                                results := clientResults;
                                timestamp := clock s |})))
  | p :: rest =>
      let '(s1, isOpen) := checkBreaker client p s in
      if isOpen then
        loopHead client rest clientResults
          (pushError (circuitOpenError client p (clock s1)) s1)
      else
        let '(s2, acquired) := checkRateLimit limits p s1 in
        (s2, waiting client rest clientResults (Acquiring p acquired))
  end.

(** The head of [retry]'s loop, up to the call of the scraper. *)
Definition startAttempt (client : Client) (p : Platform)
  (rest : list Platform) (clientResults : list PlatformResult)
  (attempt : Z) (lastError : Thrown) (s : State) : State * Task :=
  if maxRetries input <? attempt then
    (s, waiting client rest clientResults (Rejected p lastError))
  else
    match scraper agents with
    | None =>
        (s, waiting client rest clientResults
              (Scraping p attempt (clock s)
                 (Throw (ThrownError
                           {| message := "Scraper agent not found";
                              code := CodeAbsent |}))))
    | Some scraperAgent =>
        let '(elapsed, r) :=
          scraperAgent p client (timeout input) (clock s)
            (length (scrapeLog s)) in
        (logScrape client p s,
         waiting client rest clientResults
           (Scraping p attempt (clock s + elapsed) r))
    end.

(** The [catch] block of [retry]. *)
Definition afterFailure (p : Platform) (attempt : Z) (t : Thrown)
  (s : State) : Phase :=
  match Retry.isRetryableError t with
  | Throw t' => Rejected p t'
  | Return false => Rejected p t
  | Return true =>
      if attempt =? maxRetries input then
        match messageOf t with
        | Throw t' => Rejected p t'
        | Return _ => Rejected p t
        end
      else
        match messageOf t with
        | Throw t' => Rejected p t'
        | Return _ =>
            Sleeping p (attempt + 1)
              (clock s + Retry.delayFor (retryOptions input) attempt) t
        end
  end.

(** The workflow's [catch] block and what follows it. *)
Definition afterCatch (client : Client) (p : Platform)
  (rest : list Platform) (clientResults : list PlatformResult)
  (t : Thrown) (s : State) : State * Task :=
  match catchBlock client p clientResults t s with
  | (s1, Return clientResults1) => loopHead client rest clientResults1 s1
  | (s1, Throw t') =>
      (s1, waiting client rest clientResults (Settled (Throw t')))
  end.

(** One turn of a task: from where it waits to its next [await]. *)
Definition step (task : Task) (s : State) : State * Task :=
  let client := taskClient task in
  let rest := remaining task in
  let clientResults := taskResults task in
  match phase task with
  | Starting => loopHead client rest clientResults s
  | Acquiring p acquired =>
      if negb acquired then
        loopHead client rest clientResults
          (pushError (rateLimitError limits client p s) s)
      else startAttempt client p rest clientResults 1 ThrownUndefined s
  | Scraping p attempt wake r =>
      let s1 := resume wake s in
      match r with
      | Return result =>
          (s1, waiting client rest clientResults (Fulfilled p result))
      | Throw t =>
          (s1, waiting client rest clientResults (afterFailure p attempt t s1))
      end
  | Sleeping p attempt wake lastError =>
      startAttempt client p rest clientResults attempt lastError
        (resume wake s)
  | Rejected p t => afterCatch client p rest clientResults t s
  | Fulfilled p result =>
      let key := breakerKey client p in
      let s1 :=
        setBreaker key
          (CircuitBreaker.recordSuccess CircuitBreaker.workflowOptions
             (breakerOf key s)) s in
      match analyzer agents with
      | Some analyzerAgent =>
          (s1, waiting client rest clientResults
                 (Analysing p result (analyzerAgent result client p)))
      | None =>
          loopHead client rest
            (clientResults ++
               [{| platform := p; success := true;
                   data := Some (Scraped result);
                   raw := None; resultError := None |}]) s1
      end
  | Analysing p result r =>
      match r with
      | Return analysis =>
          loopHead client rest
            (clientResults ++
               [{| platform := p; success := true;
                   data := Some (Analysed analysis);
                   raw := Some result; resultError := None |}]) s
      | Throw t => afterCatch client p rest clientResults t s
      end
  | Settled _ => (s, task)
  end.

Definition unsettled (task : Task) : bool :=
  match phase task with
  | Settled _ => false
  | _ => true
  end.

(** A turn of the [k]-th task that has not settled. *)
Fixpoint stepNth (k : nat) (tasks : list Task) (s : State)
  : State * list Task :=
  match tasks with
  | [] => (s, [])
  | task :: rest =>
      if unsettled task then
        match k with
        | O => let '(s1, task1) := step task s in (s1, task1 :: rest)
        | S k' =>
            let '(s1, rest1) := stepNth k' rest s in (s1, task :: rest1)
        end
      else let '(s1, rest1) := stepNth k rest s in (s1, task :: rest1)
  end.

(** The tasks take turns as [schedule] says until all have settled. *)
Fixpoint run (fuel : nat) (schedule : list nat) (tasks : list Task)
  (s : State) : State * list Task :=
  match fuel with
  | O => (s, tasks)
  | S fuel' =>
      match length (filter (fun task => unsettled task = true) tasks) with
      | O => (s, tasks)
      | S n =>
          let '(s1, tasks1) :=
            stepNth (hd O schedule mod S n) tasks s in
          run fuel' (tl schedule) tasks1 s1
      end
  end.

(** The turns a task still takes at most, and the calls of the scraper
    it still makes at most. *)
Definition attemptsLeft (attempt : Z) : nat :=
  Z.to_nat (maxRetries input - attempt).

Definition turnsPerUnit : nat := (2 * Z.to_nat (maxRetries input) + 3)%nat.

Definition turnsLeft (task : Task) : nat :=
  match phase task with
  | Settled _ => 0
  | Starting => length (remaining task) * turnsPerUnit + 1
  | Acquiring _ _ =>
      length (remaining task) * turnsPerUnit
      + (2 * Z.to_nat (maxRetries input) + 2)
  | Scraping _ attempt _ _ =>
      length (remaining task) * turnsPerUnit + (2 * attemptsLeft attempt + 3)
  | Sleeping _ attempt _ _ =>
      length (remaining task) * turnsPerUnit + (2 * attemptsLeft attempt + 4)
  | Rejected _ _ | Analysing _ _ _ =>
      length (remaining task) * turnsPerUnit + 1
  | Fulfilled _ _ => length (remaining task) * turnsPerUnit + 2
  end%nat.

Definition callsLeft (task : Task) : nat :=
  match phase task with
  | Settled _ => 0
  | Acquiring _ _ =>
      (length (remaining task) + 1) * Z.to_nat (maxRetries input)
  | Scraping _ attempt _ _ =>
      length (remaining task) * Z.to_nat (maxRetries input)
      + attemptsLeft attempt
  | Sleeping _ attempt _ _ =>
      length (remaining task) * Z.to_nat (maxRetries input)
      + (attemptsLeft attempt + 1)
  | _ => length (remaining task) * Z.to_nat (maxRetries input)
  end%nat.

(** The attempt a task is in is one of the allowed attempts. *)
Definition inRange (task : Task) : Prop :=
  match phase task with
  | Scraping _ attempt _ _ | Sleeping _ attempt _ _ =>
      1 <= attempt <= maxRetries input
  | _ => True
  end.

(** A task that takes its turns with no other task in between. *)
Fixpoint alone (fuel : nat) (task : Task) (s : State) : State * Task :=
  match fuel with
  | O => (s, task)
  | S fuel' =>
      if unsettled task then
        let '(s1, task1) := step task s in alone fuel' task1 s1
      else (s, task)
  end.

(** A task that has settled is fulfilled with a result for its client,
    or rejected with an error object. *)
Definition settlesWell (task : Task) : Prop :=
  match phase task with
  | Settled r =>
      settledProperly r
      /\ forall value, r = Return value -> clientId value = id (taskClient task)
  | _ => True
  end.

(** Nothing a task waits for has thrown [undefined], and a task that
    has settled is fulfilled. *)
Definition onTrack (task : Task) : Prop :=
  match phase task with
  | Scraping _ _ _ r => throwsErrors r
  | Analysing _ _ r => throwsErrors r
  | Rejected _ t => exists e, t = ThrownError e
  | Settled r => exists value, r = Return value
  | _ => True
  end.

(** What [Promise.allSettled] reports for a task. *)
Definition outcomeOf (task : Task) : Result ClientResult :=
  match phase task with
  | Settled r => r
  | _ => Throw ThrownUndefined
  end.

Definition turns (ps : list Platform) (batch : list Client) : nat :=
  (length batch * (length ps * turnsPerUnit + 1))%nat.

(** The tasks of a batch, started together and taking turns as
    [schedule] says, and how each of them settles, in the order of the
    batch. *)
Definition runBatch (schedule : list nat) (ps : list Platform)
  (batch : list Client) (s : State) : State * list (Result ClientResult) :=
  let tasks := map (fun client => waiting client ps [] Starting) batch in
  let '(s1, tasks1) := run (turns ps batch) schedule tasks s in
  (s1, map outcomeOf tasks1).

End Steps.

End Interleaving.

(** ** database/repositories/client.repository.ts *)

Module ClientRepository.

Import Workflow.
Local Open Scope list_scope.

(** A row of the [clients] table: the client and its [is_active]
    column. *)
Record Row := { client : Client; isActive : bool }.

Definition Table : Type := list Row.

(** [findActive()]: the rows [WHERE is_active = 1]. *)
Definition findActive (table : Table) : list Client :=
  map client (filter (fun row => isActive row = true) table).

(** [getClientsForMonitoring(clientIds)]: the active rows, and those
    with [id IN (clientIds)] when ids are given. *)
Definition getClientsForMonitoring (clientIds : option (list Z))
  (table : Table) : list Client :=
  match clientIds with
  | Some ((_ :: _) as ids) =>
      map client
        (filter (fun row => isActive row = true /\ id (client row) ∈ ids)
           table)
  | _ => findActive table
  end.

End ClientRepository.

(** ** api/controllers/monitoring.controller.ts, and [getClients] of
    monitoring.workflow.ts, which receives what the controller selects *)

Module Controller.

Import Js.
Local Open Scope string_scope.
Local Open Scope list_scope.

(** [getClients(clientIds)] of monitoring.workflow.ts. *)
Definition getClients (table : ClientRepository.Table)
  (clientIds : option (list Z)) : list Workflow.Client :=
  match clientIds with
  | Some ((_ :: _) as ids) =>
      ClientRepository.getClientsForMonitoring (Some ids) table
  | _ => ClientRepository.findActive table
  end.

Inductive Role := admin | user | readonly.

#[export] Instance Role_eq_dec : EqDecision Role.
Proof. solve_decision. Defined.

(** [req.user], as far as [startMonitoring] reads it. *)
Record AuthUser := {
  role : Role;
  clientIds : option (list Z)
}.

(** [req.user?.role !== 'admin'] *)
Definition notAdmin (requester : option AuthUser) : bool :=
  match requester with
  | Some u => negb (bool_decide (role u = admin))
  | None => true
  end.

(** [validatedInput.clientIds.every(id => userClientIds.includes(id))]
    with [userClientIds = req.user?.clientIds || []]. *)
Definition hasAccess (requester : option AuthUser) (requested : list Z)
  : bool :=
  let userClientIds := default [] (requester ≫= clientIds) in
  forallb (fun clientId => bool_decide (clientId ∈ userClientIds)) requested.

(** The [clientIds] handed to the workflow. *)
Definition filterClientIds (requester : option AuthUser)
  (requested : option (list Z)) : option (list Z) :=
  if notAdmin requester then
    match requester ≫= clientIds with
    | Some own =>
        match requested with
        | Some ids => Some (filter (fun clientId => clientId ∈ own) ids)
        | None => Some own
        end
    | None => requested
    end
  else requested.

Definition forbidden : Error :=
  {| message := "Access denied to one or more specified clients";
     code := CodeString "FORBIDDEN" |}.

(** The input of the workflow: [{...validatedInput, clientIds}]. *)
Definition workflowInput (requester : option AuthUser)
  (validatedInput : Workflow.MonitoringInput) : Workflow.MonitoringInput :=
  {| Workflow.clientIds :=
       filterClientIds requester (Workflow.clientIds validatedInput);
     Workflow.platforms := Workflow.platforms validatedInput;
     Workflow.priority := Workflow.priority validatedInput;
     Workflow.retryOnFailure := Workflow.retryOnFailure validatedInput;
     Workflow.maxRetries := Workflow.maxRetries validatedInput;
     Workflow.timeout := Workflow.timeout validatedInput |}.

(** [startMonitoring] from the validated request body up to the call of
    the workflow: the input it hands over, or the error it throws. *)
Definition startMonitoring (requester : option AuthUser)
  (validatedInput : Workflow.MonitoringInput)
  : Result Workflow.MonitoringInput :=
  let denied :=
    match Workflow.clientIds validatedInput with
    | Some requested =>
        notAdmin requester && negb (hasAccess requester requested)
    | None => false
    end in
  if denied then Throw (ThrownError forbidden)
  else Return (workflowInput requester validatedInput).

End Controller.

(** ** The specification's wording, for comparison with the code *)

Module Spec.

Import Js JsString.
Local Open Scope string_scope.
Local Open Scope list_scope.
Local Open Scope Z_scope.

(** The default retry classification as the specification words it: a
    network or timeout code among ETIMEDOUT, ECONNRESET, ECONNREFUSED, or
    an HTTP-style code in 429, 503, 504, or a message containing TIMEOUT,
    RATE_LIMIT or TEMPORARY_FAILURE. *)
Definition defaultClassification (e : Error) : bool :=
  match code e with
  | CodeString c =>
      bool_decide (c ∈ ["ETIMEDOUT"; "ECONNRESET"; "ECONNREFUSED";
                        "429"; "503"; "504"])
  | CodeNumber n => bool_decide (n ∈ [429; 503; 504])
  | CodeAbsent => false
  end
  || existsb (includes (message e)) ["TIMEOUT"; "RATE_LIMIT"; "TEMPORARY_FAILURE"].

(** The mention strength as the specification words it: each of the
    three bonuses is granted once, when any context earns it. *)
Definition mentionStrength (contexts : list string) (brand : string) : Z :=
  Z.min
    (50
     + (if existsb Analyzer.strongEndorsement contexts then 10 else 0)
     + (if existsb (fun context =>
                      startsWith context brand
                      || Regex.subjectLiteral brand context) contexts
        then 5 else 0)
     + (if existsb Analyzer.comparisonWin contexts then 5 else 0))
    100.

End Spec.

(** ** Concrete runs *)

Module Scenario.

Import Js Workflow.
Local Open Scope string_scope.
Local Open Scope list_scope.
Local Open Scope Z_scope.

Definition acme : Client :=
  {| id := 1; name := "Acme Corp"; brandNames := ["Acme"];
     competitorNames := Some ["Globex"] |}.

Definition initech : Client :=
  {| id := 2; name := "Initech"; brandNames := ["Initech"];
     competitorNames := None |}.

Definition answer : Analyzer.ScrapeResult :=
  {| Analyzer.response := Some "Nothing relevant was found." |}.

(** A scraper that answers after 10 ms, every time. *)
Definition steadyScraper : ScraperAgent :=
  fun _ _ _ _ _ => (10, Return answer).

(** A scraper that fails after 10 ms with a connection reset, every
    time. *)
Definition resetError : Error :=
  {| message := "socket hang up"; code := CodeString "ECONNRESET" |}.

Definition failingScraper : ScraperAgent :=
  fun _ _ _ _ _ => (10, Throw (ThrownError resetError)).

(** An analyzer that throws. *)
Definition analysisError : Error :=
  {| message := "Analysis failed"; code := CodeAbsent |}.

Definition failingAnalyzer : AnalyzerAgent :=
  fun _ _ _ => Throw (ThrownError analysisError).

(** A breaker that five failures, the last at time 1000, have opened. *)
Definition tripped : CircuitBreaker.t :=
  CircuitBreaker.failures CircuitBreaker.workflowOptions
    [600; 700; 800; 900; 1000] CircuitBreaker.new.

(** A breaker that went from OPEN to HALF_OPEN. *)
Definition probing : CircuitBreaker.t :=
  snd (CircuitBreaker.isOpen CircuitBreaker.workflowOptions 70000 tripped).

(** The module state at time 2000 with the breaker of (Acme, chatgpt)
    open. *)
Definition preOpened : State :=
  setBreaker (breakerKey acme chatgpt) tripped (initial 2000).

Definition request (retries : Z) : MonitoringInput :=
  {| clientIds := None;
     platforms := Some [chatgpt; perplexity];
     priority := low;
     retryOnFailure := true;
     maxRetries := retries;
     timeout := 30000 |}.

Definition bothClients : option (list Z) -> list Client :=
  fun _ => [acme; initech].

Definition scrapeOnly : Agents :=
  {| scraper := Some steadyScraper; analyzer := None |}.

Definition brokenAnalysis : Agents :=
  {| scraper := Some steadyScraper; analyzer := Some failingAnalyzer |}.

Definition brokenScraper : Agents :=
  {| scraper := Some failingScraper; analyzer := None |}.

(** Limits that admit nothing, as with every [*_RATE_LIMIT] set to 0. *)
Definition noRoom : Limits :=
  {| maxRequestsOf := fun _ => 0; rateLimitWindowMs := 60000 |}.

(** The module state at time 70000 with the breaker of (Acme, chatgpt)
    in HALF_OPEN. *)
Definition halfOpened : State :=
  setBreaker (breakerKey acme chatgpt) probing (initial 70000).


(** The number of entries of the error list with the given text. *)
Definition countErrors (text : string) (l : list ErrorEntry) : nat :=
  length (filter (fun e => error e = text) l).

End Scenario.

(** ** A recording world for [retry]

    To observe what [retry] does, run it on a world that is the list of
    what happened so far: each call of the operation, each [onRetry]
    callback and each sleep leaves an event. *)

Module RetryTrace.

Import Js.

Inductive Event :=
| Called
| Retried (attempt : Z)
| Slept (ms : Z).

#[export] Instance Event_eq_dec : EqDecision Event.
Proof. solve_decision. Defined.

(** How many times the operation has been called. *)
Definition callsIn (trace : list Event) : nat :=
  length (filter (fun e => e = Called) trace).

(** An operation whose [i]-th call (counting from 0) completes as
    [script i]. *)
Definition scripted {T : Type} (script : nat -> Result T)
  (trace : list Event) : list Event * Result T :=
  (trace ++ [Called], script (callsIn trace)).

Definition sleep (ms : Z) (trace : list Event) : list Event :=
  trace ++ [Slept ms].

Definition onRetry (_ : Thrown) (attempt : Z) (trace : list Event)
  : list Event :=
  trace ++ [Retried attempt].

(** The events of [k] failed attempts that were each retried. *)
Fixpoint rounds (options : Retry.RetryOptions (list Event)) (k : nat)
  : list Event :=
  match k with
  | O => []
  | S k' =>
      rounds options k'
      ++ [Called; Retried (Z.of_nat k);
          Slept (Retry.delayFor options (Z.of_nat k))]
  end.

(** The retry condition, if there is one, accepts the error. *)
Definition accepted (options : Retry.RetryOptions (list Event)) (t : Thrown)
  : Prop :=
  match Retry.retryCondition options with
  | Some cond => cond t = Return true
  | None => True
  end.

(** The options of the workflow's call, with the recording callback. *)
Definition recorded (attempts : Z) : Retry.RetryOptions (list Event) :=
  {| Retry.attempts := attempts;
     Retry.delay := 2000;
     Retry.backoff := Some Retry.exponential;
     Retry.maxDelay := Some 30000;
     Retry.onRetry := Some onRetry;
     Retry.retryCondition := Some Retry.isRetryableError |}.

Definition timedOut : Thrown :=
  ThrownError {| message := "TIMEOUT"; code := CodeAbsent |}.


(** An operation that times out every time. *)
Definition down (_ : nat) : Result string := Throw timedOut.

End RetryTrace.

(** * Properties *)

(** ** The circuit breaker *)

Section CircuitBreakerFacts.

Import CircuitBreaker.

Variable options : CircuitBreakerOptions.

Lemma isOpen_closed now b :
  state b = CLOSED -> isOpen options now b = (false, b).
Proof. unfold isOpen. intros ->. reflexivity. Qed.

Lemma isOpen_half_open now b :
  state b = HALF_OPEN -> isOpen options now b = (false, b).
Proof. unfold isOpen. intros ->. reflexivity. Qed.

Lemma isOpen_open_early now b last :
  state b = OPEN -> lastFailureTime b = Some last ->
  now - last <= resetTimeout options ->
  isOpen options now b = (true, b).
Proof.
  unfold isOpen. intros -> -> Hearly. simpl.
  replace (resetTimeout options <? now - last) with false
    by (symmetry; apply Z.ltb_ge; lia).
  now rewrite andb_false_r.
Qed.

Lemma isOpen_open_late now b last :
  state b = OPEN -> lastFailureTime b = Some last -> last <> 0 ->
  resetTimeout options < now - last ->
  isOpen options now b =
  (false, {| failureCount := failureCount b;
             lastFailureTime := Some last;
             state := HALF_OPEN;
             halfOpenAttempts := 0 |}).
Proof.
  unfold isOpen. intros -> -> Hlast Hlate. simpl.
  replace (last =? 0) with false by (symmetry; apply Z.eqb_neq; lia).
  replace (resetTimeout options <? now - last) with true
    by (symmetry; apply Z.ltb_lt; lia).
  reflexivity.
Qed.

Lemma recordFailure_half_open now b :
  state b = HALF_OPEN -> state (recordFailure options now b) = OPEN.
Proof. unfold recordFailure. intros ->. reflexivity. Qed.

Lemma recordFailure_count now b :
  failureCount (recordFailure options now b) = failureCount b + 1.
Proof. unfold recordFailure. destruct (state b); reflexivity. Qed.

Lemma recordFailure_time now b :
  lastFailureTime (recordFailure options now b) = Some now.
Proof. unfold recordFailure. destruct (state b); reflexivity. Qed.

Lemma recordFailure_closed now b :
  state b = CLOSED ->
  state (recordFailure options now b) =
  if failureThreshold options <=? failureCount b + 1 then OPEN else CLOSED.
Proof. unfold recordFailure. intros ->. reflexivity. Qed.

Lemma failureCount_nonneg_call c b :
  0 <= failureCount b -> 0 <= failureCount (call options c b).
Proof.
  destruct c; simpl; auto.
  - unfold isOpen. destruct (state b); simpl; auto.
    destruct (_ && _); simpl; auto.
  - unfold recordSuccess. destruct (state b); auto.
    + simpl. lia.
    + destruct (_ <=? _); simpl; auto; lia.
  - rewrite recordFailure_count. lia.
Qed.

Lemma checks_half_open nows b :
  state b = HALF_OPEN ->
  checks options nows b = (map (fun _ => false) nows, b).
Proof.
  intros Hb. induction nows as [|now rest IH]; simpl; [reflexivity|].
  rewrite (isOpen_half_open now b Hb), IH. reflexivity.
Qed.

End CircuitBreakerFacts.

(** C7.  With [failureThreshold = 5] and [halfOpenRequests = 2], from the
    initial CLOSED state: four failures leave the breaker CLOSED and the
    fifth opens it, after which [isOpen()] answers true as long as the
    reset timeout has not passed since the last failure; once it has
    passed, the check answers false and puts the breaker in HALF_OPEN
    (and every further check answers false without changing it); there,
    one success keeps it HALF_OPEN and the second closes it with
    [failureCount = 0]; a single failure in HALF_OPEN, before or after
    the first success, opens it again.  The clock readings are those of
    [Date.now()], which are not 0. *)
Theorem circuit_breaker_cycle :
  forall (options : CircuitBreaker.CircuitBreakerOptions)
         (t1 t2 t3 t4 t5 now later again tf : Z),
    CircuitBreaker.failureThreshold options = 5 ->
    CircuitBreaker.halfOpenRequests options = Some 2 ->
    t5 <> 0 ->
    now - t5 <= CircuitBreaker.resetTimeout options ->
    CircuitBreaker.resetTimeout options < later - t5 ->
    let opened :=
      CircuitBreaker.failures options [t1; t2; t3; t4; t5] CircuitBreaker.new in
    let probing := snd (CircuitBreaker.isOpen options later opened) in
    let once := CircuitBreaker.recordSuccess options probing in
    let twice := CircuitBreaker.recordSuccess options once in
    CircuitBreaker.state
      (CircuitBreaker.failures options [t1; t2; t3; t4] CircuitBreaker.new)
    = CircuitBreaker.CLOSED
    /\ CircuitBreaker.state opened = CircuitBreaker.OPEN
    /\ CircuitBreaker.isOpen options now opened = (true, opened)
    /\ fst (CircuitBreaker.isOpen options later opened) = false
    /\ CircuitBreaker.state probing = CircuitBreaker.HALF_OPEN
    /\ CircuitBreaker.isOpen options again probing = (false, probing)
    /\ CircuitBreaker.state once = CircuitBreaker.HALF_OPEN
    /\ CircuitBreaker.state twice = CircuitBreaker.CLOSED
    /\ CircuitBreaker.failureCount twice = 0
    /\ CircuitBreaker.state (CircuitBreaker.recordFailure options tf probing)
       = CircuitBreaker.OPEN
    /\ CircuitBreaker.state (CircuitBreaker.recordFailure options tf once)
       = CircuitBreaker.OPEN.
Proof.
  intros options t1 t2 t3 t4 t5 now later again tf Hthreshold Hhalf Ht5
    Hearly Hlate opened probing once twice.
  assert (Hopened : opened =
    {| CircuitBreaker.failureCount := 5;
       CircuitBreaker.lastFailureTime := Some t5;
       CircuitBreaker.state := CircuitBreaker.OPEN;
       CircuitBreaker.halfOpenAttempts := 0 |}).
  { unfold opened, CircuitBreaker.failures, CircuitBreaker.recordFailure.
    simpl. rewrite Hthreshold. reflexivity. }
  assert (Hprobing : probing =
    {| CircuitBreaker.failureCount := 5;
       CircuitBreaker.lastFailureTime := Some t5;
       CircuitBreaker.state := CircuitBreaker.HALF_OPEN;
       CircuitBreaker.halfOpenAttempts := 0 |}).
  { unfold probing.
    rewrite (isOpen_open_late options later opened t5);
      rewrite ?Hopened; auto. }
  assert (Honce : once =
    {| CircuitBreaker.failureCount := 5;
       CircuitBreaker.lastFailureTime := Some t5;
       CircuitBreaker.state := CircuitBreaker.HALF_OPEN;
       CircuitBreaker.halfOpenAttempts := 1 |}).
  { unfold once. rewrite Hprobing.
    unfold CircuitBreaker.recordSuccess, CircuitBreaker.requiredSuccesses.
    simpl. rewrite Hhalf. reflexivity. }
  assert (Htwice : twice =
    {| CircuitBreaker.failureCount := 0;
       CircuitBreaker.lastFailureTime := Some t5;
       CircuitBreaker.state := CircuitBreaker.CLOSED;
       CircuitBreaker.halfOpenAttempts := 0 |}).
  { unfold twice. rewrite Honce.
    unfold CircuitBreaker.recordSuccess, CircuitBreaker.requiredSuccesses.
    simpl. rewrite Hhalf. reflexivity. }
  repeat split.
  - unfold CircuitBreaker.failures, CircuitBreaker.recordFailure.
    simpl. rewrite Hthreshold. reflexivity.
  - now rewrite Hopened.
  - apply isOpen_open_early with (last := t5); rewrite ?Hopened; auto.
  - rewrite (isOpen_open_late options later opened t5);
      rewrite ?Hopened; auto.
  - now rewrite Hprobing.
  - apply isOpen_half_open. now rewrite Hprobing.
  - now rewrite Honce.
  - now rewrite Htwice.
  - now rewrite Htwice.
  - apply recordFailure_half_open. now rewrite Hprobing.
  - apply recordFailure_half_open. now rewrite Honce.
Qed.

Lemma circuit_breaker_cycle_witness :
  CircuitBreaker.state
    (snd (CircuitBreaker.isOpen CircuitBreaker.workflowOptions 61001
            (CircuitBreaker.failures CircuitBreaker.workflowOptions
               [600; 700; 800; 900; 1000] CircuitBreaker.new)))
  = CircuitBreaker.HALF_OPEN.
Proof.
  refine (proj1 (proj2 (proj2 (proj2 (proj2
    (circuit_breaker_cycle CircuitBreaker.workflowOptions
       600 700 800 900 1000 1000 61001 61002 61003 _ _ _ _ _)))))).
  - reflexivity.
  - reflexivity.
  - lia.
  - simpl. lia.
  - simpl. lia.
Defined.

(** C10.  In HALF_OPEN every [isOpen()] answers false and leaves the
    breaker as it is, however many checks are made, so any number of work
    units is admitted; of all the methods only [recordSuccess()] and
    [recordFailure()] can move the breaker out of HALF_OPEN, and
    [recordFailure()] always does. *)
Theorem half_open_admits_every_check :
  forall (options : CircuitBreaker.CircuitBreakerOptions)
         (b : CircuitBreaker.t),
    CircuitBreaker.state b = CircuitBreaker.HALF_OPEN ->
    (forall now, CircuitBreaker.isOpen options now b = (false, b))
    /\ (forall nows,
          CircuitBreaker.checks options nows b
          = (map (fun _ => false) nows, b))
    /\ (forall c,
          CircuitBreaker.state (CircuitBreaker.call options c b)
          <> CircuitBreaker.HALF_OPEN ->
          c = CircuitBreaker.CallRecordSuccess
          \/ exists now, c = CircuitBreaker.CallRecordFailure now)
    /\ (forall now,
          CircuitBreaker.state (CircuitBreaker.recordFailure options now b)
          = CircuitBreaker.OPEN).
Proof.
  intros options b Hb. repeat split.
  - intros now. now apply isOpen_half_open.
  - intros nows. now apply checks_half_open.
  - intros [now| |now| |] Hleft; simpl in Hleft.
    + rewrite isOpen_half_open in Hleft by assumption. now destruct Hleft.
    + now left.
    + right. now exists now.
    + now destruct Hleft.
    + now destruct Hleft.
  - intros now. now apply recordFailure_half_open.
Qed.

Lemma half_open_admits_every_check_witness :
  CircuitBreaker.checks CircuitBreaker.workflowOptions [70001; 70002; 70003]
    Scenario.probing
  = ([false; false; false], Scenario.probing).
Proof.
  apply (proj1 (proj2 (half_open_admits_every_check
    CircuitBreaker.workflowOptions Scenario.probing eq_refl))).
Defined.

(** ** The rate limiter *)

Section RateLimiterFacts.

Import RateLimiter.

Variable options : RateLimiterOptions.

Lemma tryAcquire_keep_all now (requests : list Z) :
  (forall s, s ∈ requests -> now - windowMs options < s) ->
  tryAcquire options now requests =
  if Z.of_nat (length requests) <? maxRequests options
  then (true, requests ++ [now]) else (false, requests).
Proof.
  intros Hin. unfold tryAcquire.
  replace (filter _ requests) with requests; [reflexivity|].
  induction requests as [|r rest IH]; [reflexivity|].
  rewrite filter_cons_True by (apply Hin; now left).
  f_equal. apply IH. intros s Hs. apply Hin. now right.
Qed.

(** Calls that all fall in one window, starting with [requests] already
    admitted in that window: they are admitted while there is room. *)
Lemma acquires_within_window (nows requests : list Z) :
  (forall s t, s ∈ requests ++ nows -> t ∈ nows ->
               t - windowMs options < s) ->
  Z.of_nat (length requests + length nows) <= maxRequests options ->
  acquires options nows requests
  = (replicate (length nows) true, requests ++ nows).
Proof.
  revert requests. induction nows as [|now rest IH]; intros requests Hw Hroom.
  - simpl. now rewrite app_nil_r.
  - simpl. rewrite tryAcquire_keep_all.
    + replace (_ <? _) with true
        by (symmetry; apply Z.ltb_lt; simpl in Hroom; lia).
      rewrite (IH (requests ++ [now])).
      * now rewrite <- app_assoc.
      * intros s t Hs Ht. apply Hw.
        -- rewrite <- app_assoc in Hs. exact Hs.
        -- now right.
      * rewrite length_app. simpl in *. lia.
    + intros s Hs. apply Hw; [|now left].
      apply elem_of_app. now left.
Qed.

Lemma oldestRequest_elem (requests : list Z) :
  requests <> [] -> oldestRequest requests ∈ requests.
Proof.
  destruct requests as [|r rest]; [congruence|intros _]. simpl.
  revert r. induction rest as [|x rest IH]; intros r; simpl.
  - now left.
  - specialize (IH (Z.min r x)).
    apply elem_of_cons in IH as [->|IH].
    + destruct (Z.min_spec r x) as [[_ ->]|[_ ->]].
      * now left.
      * right. now left.
    + right. now right.
Qed.

End RateLimiterFacts.

(** C8.  With [maxRequests = N], starting from an empty limiter, [N]
    calls of [tryAcquire()] followed by one more, all within one window
    (no call is [windowMs] or more after an earlier one), answer true [N]
    times and then false; and once [windowMs] has passed since the
    oldest admitted timestamp, the next call answers true. *)
Theorem rate_limiter_window :
  forall (options : RateLimiter.RateLimiterOptions) (N : nat)
         (nows : list Z) (denied later : Z),
    RateLimiter.maxRequests options = Z.of_nat N ->
    length nows = N ->
    (forall s t, s ∈ nows -> t ∈ nows ++ [denied] ->
                 t - RateLimiter.windowMs options < s) ->
    let run := RateLimiter.acquires options (nows ++ [denied]) RateLimiter.new in
    fst run = replicate N true ++ [false]
    /\ (snd run <> [] ->
        RateLimiter.oldestRequest (snd run) + RateLimiter.windowMs options
        <= later ->
        fst (RateLimiter.tryAcquire options later (snd run)) = true).
Proof.
  intros options N nows denied later Hmax Hlen Hwindow run.
  assert (Hfirst : RateLimiter.acquires options nows RateLimiter.new
                   = (replicate N true, nows)).
  { rewrite <- Hlen. apply (acquires_within_window options nows []).
    - intros s t Hs Ht. apply Hwindow; [exact Hs|].
      apply elem_of_app. now left.
    - simpl. lia. }
  assert (Hrun : run = (replicate N true ++ [false], nows)).
  { unfold run. clear run.
    assert (Hsplit : forall l1 l2 requests,
      RateLimiter.acquires options (l1 ++ l2) requests =
      let '(r1, q1) := RateLimiter.acquires options l1 requests in
      let '(r2, q2) := RateLimiter.acquires options l2 q1 in
      (r1 ++ r2, q2)).
    { induction l1 as [|x l1 IH]; intros l2 requests; simpl.
      - now destruct (RateLimiter.acquires options l2 requests).
      - destruct (RateLimiter.tryAcquire options x requests) as [r q].
        rewrite IH.
        destruct (RateLimiter.acquires options l1 q) as [r1 q1].
        now destruct (RateLimiter.acquires options l2 q1). }
    rewrite Hsplit, Hfirst. simpl.
    rewrite tryAcquire_keep_all.
    - replace (_ <? _) with false
        by (symmetry; apply Z.ltb_ge; lia).
      reflexivity.
    - intros s Hs. apply Hwindow; [exact Hs|].
      apply elem_of_app. right. now left. }
  rewrite Hrun. simpl. split; [reflexivity|].
  intros Hne Hold. unfold RateLimiter.tryAcquire.
  assert (Hdrop : (length (filter
            (fun time => (later - RateLimiter.windowMs options < time)%Z) nows)
          < length nows)%nat).
  { apply length_filter_lt with (x := RateLimiter.oldestRequest nows).
    - now apply oldestRequest_elem.
    - lia. }
  replace (_ <? _) with true; [reflexivity|].
  symmetry. apply Z.ltb_lt. rewrite Hmax, <- Hlen.
  apply Nat2Z.inj_lt. exact Hdrop.
Qed.

Lemma rate_limiter_window_witness :
  fst (RateLimiter.acquires
         {| RateLimiter.maxRequests := 3; RateLimiter.windowMs := 60000 |}
         ([1000; 2000; 3000] ++ [4000]) RateLimiter.new)
  = [true; true; true; false]
  /\ fst (RateLimiter.tryAcquire
            {| RateLimiter.maxRequests := 3; RateLimiter.windowMs := 60000 |}
            61000 [1000; 2000; 3000]) = true.
Proof.
  pose proof (rate_limiter_window
    {| RateLimiter.maxRequests := 3; RateLimiter.windowMs := 60000 |}
    3 [1000; 2000; 3000] 4000 61000 eq_refl eq_refl) as H.
  destruct H as [Hfirst Hlater].
  - intros s t Hs Ht. simpl.
    assert (Hs' : s = 1000 \/ s = 2000 \/ s = 3000).
    { repeat (apply elem_of_cons in Hs as [Hs|Hs]; [auto|]).
      inversion Hs. }
    assert (Ht' : t = 1000 \/ t = 2000 \/ t = 3000 \/ t = 4000).
    { repeat (apply elem_of_cons in Ht as [Ht|Ht]; [auto|]).
      inversion Ht. }
    lia.
  - split; [exact Hfirst|]. apply Hlater.
    + discriminate.
    + simpl. lia.
Defined.

(** ** The analyzer *)

Section AnalyzerFacts.

Import Regex Analyzer.

Lemma totalMentions_nonneg {A} (countOf : A -> nat) (mentions : list A) :
  0 <= totalMentions countOf mentions.
Proof. unfold totalMentions. lia. Qed.

Lemma scan_empty name skip prev pos :
  scan name skip prev pos EmptyString =
  if (skip =? 0)%nat && wholeWordHere name prev EmptyString
  then [pos] else [].
Proof. reflexivity. Qed.

Lemma scan_cons name skip prev pos c rest :
  scan name skip prev pos (String c rest) =
  (if (skip =? 0)%nat && wholeWordHere name prev (String c rest)
   then [pos] else [])
  ++ scan name
       (if (skip =? 0)%nat && wholeWordHere name prev (String c rest)
        then String.length name - 1 else skip - 1)%nat
       (Some c) (S pos) rest.
Proof. reflexivity. Qed.

Lemma wholeWordAt_0 name prev s :
  wholeWordAt name prev s 0 = wholeWordHere name prev s.
Proof. now destruct s. Qed.

(** A scan that is not inside a match finds nothing exactly when the
    pattern matches at no index. *)
Lemma scan_nil name prev pos s :
  (forall i, wholeWordAt name prev s i = false) ->
  scan name 0 prev pos s = [].
Proof.
  revert prev pos. induction s as [|c rest IH]; intros prev pos Hno.
  - rewrite scan_empty, <- wholeWordAt_0, (Hno O). reflexivity.
  - rewrite scan_cons, <- wholeWordAt_0, (Hno O). simpl. apply IH.
    intros i. exact (Hno (S i)).
Qed.

Lemma scan_found name prev pos s i :
  wholeWordAt name prev s i = true -> scan name 0 prev pos s <> [].
Proof.
  revert prev pos i. induction s as [|c rest IH]; intros prev pos i Hat.
  - destruct i; [|discriminate].
    rewrite wholeWordAt_0 in Hat. rewrite scan_empty, Hat. discriminate.
  - rewrite scan_cons.
    destruct (wholeWordHere name prev (String c rest)) eqn:Hhere.
    + discriminate.
    + destruct i as [|i]; [rewrite wholeWordAt_0 in Hat; congruence|].
      simpl. now apply (IH _ _ i).
Qed.

Lemma matchAll_nil name text :
  matchAll name text = [] <-> forall i, wholeWordAt name None text i = false.
Proof.
  split.
  - intros Hnil i. destruct (wholeWordAt name None text i) eqn:Hat; [|easy].
    now apply (scan_found name None 0%nat) in Hat.
  - apply scan_nil.
Qed.

Lemma analyzeBrandMentionsIn_none text brandNames :
  (forall b, b ∈ brandNames -> matchAll b text = []) ->
  analyzeBrandMentionsIn text brandNames = Some [].
Proof.
  induction brandNames as [|b rest IH]; intros Hno; [reflexivity|].
  simpl. rewrite (Hno b) by now left.
  apply IH. intros b' Hb'. apply Hno. now right.
Qed.

Lemma analyzeCompetitorMentionsIn_none text competitorNames :
  (forall c, c ∈ competitorNames -> matchAll c text = []) ->
  analyzeCompetitorMentionsIn text competitorNames = Some [].
Proof.
  induction competitorNames as [|c rest IH]; intros Hno; [reflexivity|].
  simpl. rewrite (Hno c) by now left.
  apply IH. intros c' Hc'. apply Hno. now right.
Qed.

(** Every mention the analyzer reports has at least one match. *)
Lemma analyzeBrandMentionsIn_counts text brandNames mentions :
  analyzeBrandMentionsIn text brandNames = Some mentions ->
  Forall (fun m => (0 < count m)%nat /\ count m = length (positions m))
         mentions.
Proof.
  revert mentions. induction brandNames as [|b rest IH]; intros mentions.
  - intros [= <-]. constructor.
  - simpl. destruct (matchAll b text) as [|i is_] eqn:Hm; [apply IH|].
    destruct (calculateMentionStrength _ b); [|discriminate]. simpl.
    destruct (analyzeBrandMentionsIn text rest); [|discriminate]. simpl.
    intros [= <-]. constructor; [simpl; lia|]. now apply IH.
Qed.

End AnalyzerFacts.

(** C9.  Whatever the brand mentions, competitor mentions, sentiment and
    position analysis, the visibility score lies between 15 and 100:
    [mentionCount] is between 0 and 25 and each of [positionScore],
    [sentimentScore] and [competitorComparison] between 5 and 25. *)
Theorem visibility_score_bounds :
  forall (brands : list Analyzer.BrandMention)
         (competitors : list Analyzer.CompetitorMention)
         (sentiment : Analyzer.SentimentAnalysis)
         (position : Analyzer.PositionAnalysis),
    let v :=
      Analyzer.calculateVisibilityScore brands competitors sentiment position in
    15 <= Analyzer.visibilityScore v <= 100
    /\ 0 <= Analyzer.mentionCount (Analyzer.factors v) <= 25
    /\ 5 <= Analyzer.positionScore (Analyzer.factors v) <= 25
    /\ 5 <= Analyzer.sentimentScore (Analyzer.factors v) <= 25
    /\ 5 <= Analyzer.competitorComparison (Analyzer.factors v) <= 25.
Proof.
  intros brands competitors sentiment position.
  unfold Analyzer.calculateVisibilityScore. simpl.
  pose proof (totalMentions_nonneg Analyzer.count brands) as Hb.
  destruct (Analyzer.relativePosition position),
           (Analyzer.overall sentiment);
    repeat case_match; lia.
Qed.

(** The lower bound 15 is reached. *)
Lemma visibility_score_least :
  Analyzer.visibilityScore
    (Analyzer.calculateVisibilityScore []
       [{| Analyzer.competitor := "Globex"; Analyzer.competitorCount := 1;
           Analyzer.competitorPositions := [0%nat];
           Analyzer.comparisonContext := None |}]
       {| Analyzer.overall := Analyzer.negative; Analyzer.score := - 1;
          Analyzer.breakdown := (0, 0, 1)%Q |}
       (Analyzer.analyzePosition []))
  = 15.
Proof. reflexivity. Qed.

(** C6.  When the response text has no whole-word match of any brand
    name nor of any competitor name, the analysis has no mention, the
    position sentinel (-1, 'end'), the factors 0, 5, 15 and 15, the
    score 35, and among its recommendations the advice 'Critical: No
    brand mentions detected'. *)
Theorem zero_mention_analysis :
  forall (result : Analyzer.ScrapeResult) (brandNames : list string)
         (competitorNames : option (list string)),
    (forall b i, b ∈ brandNames ->
       Regex.wholeWordAt b None (Analyzer.textOf result) i = false) ->
    (forall c i, c ∈ default [] competitorNames ->
       Regex.wholeWordAt c None (Analyzer.textOf result) i = false) ->
    exists a,
      Analyzer.execute result brandNames competitorNames = Some a
      /\ Analyzer.brandMentions a = []
      /\ Analyzer.competitorMentions a = []
      /\ Analyzer.averagePosition (Analyzer.position a) = (- 1)%Q
      /\ Analyzer.relativePosition (Analyzer.position a) = Analyzer.theEnd
      /\ Analyzer.factors (Analyzer.visibility a)
         = {| Analyzer.mentionCount := 0;
              Analyzer.positionScore := 5;
              Analyzer.sentimentScore := 15;
              Analyzer.competitorComparison := 15 |}
      /\ Analyzer.visibilityScore (Analyzer.visibility a) = 35
      /\ "Critical: No brand mentions detected"%string
         ∈ Analyzer.recommendations a.
Proof.
  intros result brandNames competitorNames Hbrands Hcompetitors.
  unfold Analyzer.execute, Analyzer.analyzeBrandMentions,
    Analyzer.analyzeCompetitorMentions.
  rewrite analyzeBrandMentionsIn_none.
  2:{ intros b Hb. apply matchAll_nil. intros i. now apply Hbrands. }
  rewrite analyzeCompetitorMentionsIn_none.
  2:{ intros c Hc. apply matchAll_nil. intros i. now apply Hcompetitors. }
  simpl. eexists. split; [reflexivity|]. simpl.
  repeat split. do 2 right. now left.
Qed.

Lemma zero_mention_analysis_witness :
  exists a,
    Analyzer.execute Scenario.answer ["Acme"%string] (Some ["Globex"%string])
    = Some a
    /\ Analyzer.visibilityScore (Analyzer.visibility a) = 35.
Proof.
  destruct (zero_mention_analysis Scenario.answer ["Acme"%string]
              (Some ["Globex"%string])) as (a & Ha & _ & _ & _ & _ & _ & Hs & _).
  - intros b i Hb. apply list_elem_of_singleton in Hb as ->.
    apply matchAll_nil. reflexivity.
  - intros c i Hc. apply list_elem_of_singleton in Hc as ->.
    apply matchAll_nil. reflexivity.
  - exists a. split; assumption.
Defined.

Section MentionStrength.

Import JsString Regex Analyzer.

Lemma contextBonus_literal brand context :
  regexLiteral brand = true ->
  contextBonus brand context = Some (bonusOf brand context).
Proof.
  intros Hlit. unfold contextBonus, bonusOf, primarySubject, subjectPattern.
  rewrite Hlit. destruct (startsWith context brand); reflexivity.
Qed.

Lemma strength_fold brand contexts acc :
  regexLiteral brand = true ->
  foldl (fun acc context =>
           strength ← acc;
           bonus ← contextBonus brand context;
           Some (strength + bonus)) (Some acc) contexts
  = Some (acc + sumZ (map (bonusOf brand) contexts)).
Proof.
  intros Hlit. revert acc.
  induction contexts as [|c rest IH]; intros acc; simpl.
  - f_equal. lia.
  - rewrite contextBonus_literal by assumption. simpl.
    rewrite IH. f_equal. unfold sumZ. lia.
Qed.

Lemma bonusOf_bounds brand context : 0 <= bonusOf brand context <= 20.
Proof. unfold bonusOf. repeat case_match; lia. Qed.

End MentionStrength.

(** C5, as the code has it.  For a brand name without
    regular-expression syntax characters and any list of contexts, the
    mention strength is the base 50 plus, for each context in turn, 10
    if that context matches a strong-endorsement pattern, 5 if the brand
    opens it or is its subject, and 5 if it holds a comparison-win
    pattern, the sum capped at 100. *)
Theorem mention_strength_accumulates :
  forall (contexts : list string) (brand : string),
    Regex.regexLiteral brand = true ->
    Analyzer.calculateMentionStrength contexts brand
    = Some (Z.min (50 + Analyzer.sumZ (map (Analyzer.bonusOf brand) contexts))
            100).
Proof.
  intros contexts brand Hlit. unfold Analyzer.calculateMentionStrength.
  rewrite strength_fold by assumption. reflexivity.
Qed.

Lemma mention_strength_accumulates_witness :
  Analyzer.calculateMentionStrength
    ["Acme is the best choice and outperforms the rest."%string;
     "Most reviewers highly recommend Acme."%string] "Acme"
  = Some 80.
Proof.
  exact (mention_strength_accumulates
    ["Acme is the best choice and outperforms the rest."%string;
     "Most reviewers highly recommend Acme."%string] "Acme" eq_refl).
Defined.

(** C5 as the specification states it fails: with two contexts that both
    hold a strong endorsement the code adds 10 twice and answers 70,
    where a bonus granted once for "any context" would give 60. *)
Lemma mention_strength_counterexample :
  let contexts :=
    ["We highly recommend this tool."%string;
     "Reviewers strongly recommend it."%string] in
  contexts <> []
  /\ Analyzer.calculateMentionStrength contexts "Acme" = Some 70
  /\ Spec.mentionStrength contexts "Acme" = 60
  /\ Analyzer.calculateMentionStrength contexts "Acme"
     <> Some (Spec.mentionStrength contexts "Acme").
Proof.
  cbv zeta. split; [discriminate|].
  split; [vm_compute; reflexivity|].
  split; [vm_compute; reflexivity|].
  vm_compute. discriminate.
Qed.

(** ** The retry policy *)

Section RetryFacts.

Import Js JsString Retry.

Lemma prefix_refl (s : string) : String.prefix s s = true.
Proof.
  induction s as [|c s IH]; simpl; [reflexivity|].
  destruct (ascii_dec c c); [assumption|congruence].
Qed.

Lemma includes_self (s : string) : includes s s = true.
Proof.
  destruct s as [|c s]; [reflexivity|].
  change (includes (String c s) (String c s))
    with (String.prefix (String c s) (String c s) || includes s (String c s)).
  now rewrite prefix_refl.
Qed.

Lemma includes_or_equal (c type : string) :
  includes c type || String.eqb c type = includes c type.
Proof.
  destruct (String.eqb c type) eqn:Heq.
  - apply String.eqb_eq in Heq as ->. now rewrite includes_self.
  - apply orb_false_r.
Qed.

Lemma some_string_code (msg c : string) (types : list string) :
  some (matchesType msg (CodeString c)) types
  = Return (existsb (fun type => includes msg type || includes c type) types).
Proof.
  induction types as [|type rest IH]; simpl; [reflexivity|].
  unfold matchesType at 1. destruct (includes msg type); simpl.
  - reflexivity.
  - rewrite includes_or_equal. destruct (includes c type); simpl.
    + reflexivity.
    + exact IH.
Qed.

(** A first failure that the condition does not accept goes straight to
    the caller. *)
Lemma retry_not_retryable {W T : Type} (sleep : Z -> W -> W)
  (fn : W -> W * Result T) (options : RetryOptions W) (cond : Thrown -> Result bool)
  (w w1 : W) (t : Thrown) :
  retryCondition options = Some cond ->
  1 <= attempts options ->
  fn w = (w1, Throw t) ->
  cond t = Return false ->
  retry sleep fn options w = (w1, Throw t).
Proof.
  intros Hcond Hattempts Hfn Hfalse. unfold retry.
  destruct (Z.to_nat (attempts options)) as [|fuel] eqn:Hfuel; [lia|].
  simpl. replace (attempts options <? 1) with false
    by (symmetry; apply Z.ltb_ge; lia).
  rewrite Hfn, Hcond, Hfalse. reflexivity.
Qed.

(** With no attempt allowed the operation is never run and what is
    thrown is the unassigned [lastError]. *)
Lemma retry_no_attempt {W T : Type} (sleep : Z -> W -> W)
  (fn : W -> W * Result T) (options : RetryOptions W) (w : W) :
  attempts options <= 0 ->
  retry sleep fn options w = (w, Throw ThrownUndefined).
Proof.
  intros Hattempts. unfold retry.
  replace (Z.to_nat (attempts options)) with O by lia.
  simpl. replace (attempts options <? 1) with true
    by (symmetry; apply Z.ltb_lt; lia).
  reflexivity.
Qed.

(** A first call that succeeds is the result. *)
Lemma retry_first_success {W T : Type} (sleep : Z -> W -> W)
  (fn : W -> W * Result T) (options : RetryOptions W) (w w1 : W) (v : T) :
  1 <= attempts options ->
  fn w = (w1, Return v) ->
  retry sleep fn options w = (w1, Return v).
Proof.
  intros Hattempts Hfn. unfold retry.
  destruct (Z.to_nat (attempts options)) as [|fuel] eqn:Hfuel; [lia|].
  simpl. replace (attempts options <? 1) with false
    by (symmetry; apply Z.ltb_ge; lia).
  rewrite Hfn. reflexivity.
Qed.

End RetryFacts.

(** C4, as the code has it.  For an error whose [code] is absent or a
    string, the default classification answers true exactly when the
    message or the code contains one of TIMEOUT, ETIMEDOUT, ECONNRESET,
    ECONNREFUSED, NETWORK_ERROR, RATE_LIMIT, TEMPORARY_FAILURE, 429, 503,
    504, and false otherwise; and when it answers false, [retry] with at
    least one attempt throws that error after the first call of the
    operation, in the state that call left. *)
Theorem default_retry_classification :
  forall (e : Js.Error),
    (forall n, Js.code e <> Js.CodeNumber n) ->
    let codeText :=
      match Js.code e with Js.CodeString c => c | _ => EmptyString end in
    let retryable :=
      existsb (fun type =>
                 JsString.includes (Js.message e) type
                 || JsString.includes codeText type)
              Retry.retryableErrors in
    Retry.isRetryableError (Js.ThrownError e) = Js.Return retryable
    /\ forall (W T : Type) (sleep : Z -> W -> W)
              (fn : W -> W * Js.Result T) (options : Retry.RetryOptions W)
              (w w1 : W),
         Retry.retryCondition options = Some Retry.isRetryableError ->
         1 <= Retry.attempts options ->
         fn w = (w1, Js.Throw (Js.ThrownError e)) ->
         retryable = false ->
         Retry.retry sleep fn options w = (w1, Js.Throw (Js.ThrownError e)).
Proof.
  intros e Hcode codeText retryable.
  assert (Hclass : Retry.isRetryableError (Js.ThrownError e)
                   = Js.Return retryable).
  { unfold Retry.isRetryableError, Retry.isRetryableErrorObject.
    replace (Retry.codeOr (Js.code e)) with (Js.CodeString codeText).
    - apply some_string_code.
    - unfold codeText, Retry.codeOr.
      destruct (Js.code e) as [|c|n]; [reflexivity|reflexivity|].
      now destruct (Hcode n). }
  split; [exact Hclass|].
  intros W T sleep fn options w w1 Hcond Hattempts Hfn Hfalse.
  apply retry_not_retryable with (cond := Retry.isRetryableError); auto.
  now rewrite Hclass, Hfalse.
Qed.

Lemma default_retry_classification_witness :
  Retry.isRetryableError
    (Js.ThrownError {| Js.message := "Scraper agent not found";
                       Js.code := Js.CodeAbsent |})
  = Js.Return false.
Proof.
  refine (proj1 (default_retry_classification
    {| Js.message := "Scraper agent not found"; Js.code := Js.CodeAbsent |}
    _)).
  intros n. discriminate.
Defined.

(** A numeric [code] has no [includes] method: unless the message
    already decides at the first entry, the classification throws. *)
Lemma numeric_code_throws :
  Retry.isRetryableError
    (Js.ThrownError {| Js.message := "Too Many Requests";
                       Js.code := Js.CodeNumber 429 |})
  = Js.Throw (Js.ThrownError
               (Js.typeError "errorCode.includes is not a function")).
Proof. reflexivity. Qed.

(** C4 as the specification states it fails: an error whose message is
    NETWORK_ERROR and that has no code is none of the listed cases, and
    the code classifies it as retryable. *)
Lemma default_retry_classification_counterexample :
  let e := {| Js.message := "NETWORK_ERROR"; Js.code := Js.CodeAbsent |} in
  Spec.defaultClassification e = false
  /\ Retry.isRetryableError (Js.ThrownError e) = Js.Return true.
Proof. split; reflexivity. Qed.

(** ** The monitoring workflow *)

Section WorkflowFacts.

Import Js Workflow.

Variable limits : Limits.
Variable agents : Agents.
Variable input : MonitoringInput.

(** [retry] keeps whatever the operation, the sleep and the callback
    keep. *)
Lemma retry_preserves {W T : Type} (I : W -> Prop) (sleep : Z -> W -> W)
  (fn : W -> W * Result T) (options : Retry.RetryOptions W) :
  (forall w, I w -> I (fst (fn w))) ->
  (forall d w, I w -> I (sleep d w)) ->
  (forall f t n w, Retry.onRetry options = Some f -> I w -> I (f t n w)) ->
  forall w, I w -> I (fst (Retry.retry sleep fn options w)).
Proof.
  intros Hfn Hsleep Hcallback. unfold Retry.retry.
  generalize (Z.to_nat (Retry.attempts options)) as fuel.
  generalize 1 as attempt. generalize ThrownUndefined as lastError.
  intros lastError attempt fuel. revert lastError attempt.
  induction fuel as [|fuel IH]; intros lastError attempt w Hw; simpl.
  - destruct (_ <? _); exact Hw.
  - destruct (_ <? _); [exact Hw|].
    pose proof (Hfn w Hw) as Hw1.
    destruct (fn w) as [w1 [v|t]]; simpl in *; [exact Hw1|].
    assert (Hw2 : I match Retry.onRetry options with
                    | Some f => f t attempt w1
                    | None => w1
                    end).
    { destruct (Retry.onRetry options) as [f|] eqn:Hf; [|exact Hw1].
      now apply (Hcallback f). }
    assert (Hproceed : I (fst (
      if attempt =? Retry.attempts options
      then match messageOf t with
           | Throw t' => (w1, Throw t')
           | Return _ => (w1, Throw t)
           end
      else match messageOf t with
           | Throw t' =>
               (match Retry.onRetry options with
                | Some f => f t attempt w1
                | None => w1
                end, Throw t')
           | Return _ =>
               Retry.loop sleep fn options fuel (attempt + 1) t
                 (sleep (Retry.delayFor options attempt)
                    match Retry.onRetry options with
                    | Some f => f t attempt w1
                    | None => w1
                    end)
           end))).
    { destruct (_ =? _); destruct (messageOf t); try exact Hw1;
        [apply IH, Hsleep, Hw2|exact Hw2]. }
    destruct (Retry.retryCondition options) as [cond|]; [|exact Hproceed].
    destruct (cond t) as [[|]|t']; [exact Hproceed|exact Hw1|exact Hw1].
Qed.

Lemma scrapeOnce_errors client p s :
  errors (fst (scrapeOnce agents input client p s)) = errors s.
Proof.
  unfold scrapeOnce. destruct (scraper agents) as [a|]; [|reflexivity].
  now destruct (a _ _ _ _ _).
Qed.

Lemma retry_scrape_errors client p s :
  errors (fst (Retry.retry sleep (scrapeOnce agents input client p)
                 (retryOptions input) s)) = errors s.
Proof.
  apply (retry_preserves (fun w => errors w = errors s)).
  - intros w Hw. now rewrite scrapeOnce_errors.
  - intros d w Hw. exact Hw.
  - intros f t n w [= <-] Hw. exact Hw.
  - reflexivity.
Qed.




















End WorkflowFacts.




Section AnalysisFailure.

Import Js Workflow.

Lemma breakerOf_setBreaker key b s : breakerOf key (setBreaker key b s) = b.
Proof. unfold breakerOf, setBreaker. simpl. now rewrite lookup_insert_eq. Qed.

(** When the analyzer throws after a successful scrape, the [catch]
    block runs on the breaker that has just recorded the success. *)
Lemma afterScrape_analysis_error (agents : Agents) (a : AnalyzerAgent)
  client p clientResults result s err :
  analyzer agents = Some a ->
  a result client p = Throw (ThrownError err) ->
  let key := breakerKey client p in
  let unit := afterScrape agents client p clientResults result s in
  breakerOf key (fst unit)
  = CircuitBreaker.recordFailure CircuitBreaker.workflowOptions (clock s)
      (CircuitBreaker.recordSuccess CircuitBreaker.workflowOptions
         (breakerOf key s))
  /\ snd unit = Return (clientResults ++ [failureResult p (message err)]).
Proof.
  intros Ha Hthrow key unit. unfold unit, afterScrape.
  rewrite Ha, Hthrow. unfold catchBlock. simpl.
  split; [|reflexivity].
  unfold pushError, breakerOf. simpl.
  rewrite !lookup_insert_eq. reflexivity.
Qed.

End AnalysisFailure.

(** C1 on the code.  Acme's chatgpt unit with a scraper that answers at
    once and an analyzer that throws: the scrape is called once and
    succeeds, the analysis error is surfaced in both lists, and the
    breaker is not what [recordSuccess()] left.  From a fresh breaker
    the failure count is 1, not 0, and a last failure time is set; from
    a breaker in HALF_OPEN, which [recordSuccess()] keeps in HALF_OPEN,
    the breaker ends OPEN. *)
Theorem analysis_error_reaches_breaker :
  let key := Workflow.breakerKey Scenario.acme Workflow.chatgpt in
  let options := CircuitBreaker.workflowOptions in
  let fresh :=
    Workflow.processPlatform Workflow.defaultLimits Scenario.brokenAnalysis
      (Scenario.request 3) Scenario.acme Workflow.chatgpt []
      (Workflow.initial 2000) in
  let probe :=
    Workflow.processPlatform Workflow.defaultLimits Scenario.brokenAnalysis
      (Scenario.request 3) Scenario.acme Workflow.chatgpt []
      Scenario.halfOpened in
  Workflow.scrapeLog (fst fresh) = [(1, Workflow.chatgpt)]
  /\ snd fresh
     = Js.Return [Workflow.failureResult Workflow.chatgpt "Analysis failed"]
  /\ Workflow.errors (fst fresh)
     = [Workflow.failureError Scenario.acme Workflow.chatgpt
          "Analysis failed" 2010]
  /\ CircuitBreaker.recordSuccess options CircuitBreaker.new
     = CircuitBreaker.new
  /\ Workflow.breakerOf key (fst fresh)
     = {| CircuitBreaker.failureCount := 1;
          CircuitBreaker.lastFailureTime := Some 2010;
          CircuitBreaker.state := CircuitBreaker.CLOSED;
          CircuitBreaker.halfOpenAttempts := 0 |}
  /\ CircuitBreaker.state
       (CircuitBreaker.recordSuccess options Scenario.probing)
     = CircuitBreaker.HALF_OPEN
  /\ CircuitBreaker.state (Workflow.breakerOf key (fst probe))
     = CircuitBreaker.OPEN.
Proof. cbv zeta. repeat apply conj; vm_compute; reflexivity. Qed.

(** C2 on the code.  The request [{priority: 'low', maxRetries: 0}] over
    two clients and two platforms, with the breaker of (Acme, chatgpt)
    open: the scraper is never called.  [retry] makes no attempt and
    throws the unassigned [lastError]; the [catch] block fails on
    [error.message], which rejects the client's task, so that the run
    ends with the 'Circuit breaker open' error, two type errors and no
    client result. *)
Theorem zero_retries_never_scrape :
  let run :=
    Workflow.execute Workflow.defaultLimits Scenario.scrapeOnly
      Scenario.bothClients (Scenario.request 0) Scenario.preOpened in
  Workflow.scrapeLog (fst run) = []
  /\ match snd run with
     | Js.Return out =>
         Scenario.countErrors "Circuit breaker open"
           (Workflow.outcomeErrors out) = 1%nat
         /\ Scenario.countErrors
              "Cannot read properties of undefined (reading 'message')"
              (Workflow.outcomeErrors out) = 2%nat
         /\ length (Workflow.outcomeErrors out) = 3%nat
         /\ Workflow.outcomeResults out = []
     | Js.Throw _ => False
     end.
Proof. cbv zeta. split; vm_compute; repeat split; reflexivity. Qed.

(** With [maxRetries: 1] the same run makes the three scrape calls and
    records the one 'Circuit breaker open' error. *)
Lemma one_attempt_scrapes_three_times :
  let run :=
    Workflow.execute Workflow.defaultLimits Scenario.scrapeOnly
      Scenario.bothClients (Scenario.request 1) Scenario.preOpened in
  Workflow.scrapeLog (fst run)
  = [(1, Workflow.perplexity); (2, Workflow.chatgpt);
     (2, Workflow.perplexity)]
  /\ match snd run with
     | Js.Return out =>
         Scenario.countErrors "Circuit breaker open"
           (Workflow.outcomeErrors out) = 1%nat
         /\ length (Workflow.outcomeErrors out) = 1%nat
     | Js.Throw _ => False
     end.
Proof. cbv zeta. split; vm_compute; repeat split; reflexivity. Qed.

(** * Further properties *)

(** ** The circuit breaker over whole histories *)

Section CircuitBreakerHistories.

Import CircuitBreaker.

Variable options : CircuitBreakerOptions.

Lemma sound_call c b :
  0 < failureThreshold options ->
  sound options b -> sound options (call options c b).
Proof.
  intros Hthreshold (Hcount & Hattempts & Hlast & Hzero & Hclosed & Hhalf).
  destruct (state b) eqn:Hs.
  - (* CLOSED *)
    assert (Ha : halfOpenAttempts b = 0) by (apply Hzero; congruence).
    specialize (Hclosed eq_refl).
    destruct c as [now| |now| |]; simpl;
      unfold sound, isOpen, recordSuccess, recordFailure; rewrite ?Hs; simpl.
    + rewrite ?Hs. repeat split; intros; try congruence; try lia.
    + repeat split; intros; try congruence; try lia.
    + destruct (_ <=? _) eqn:Hreach; simpl;
        [|apply Z.leb_gt in Hreach];
        repeat split; intros; try congruence; try lia; eauto.
    + rewrite ?Hs. repeat split; intros; try congruence; try lia.
    + rewrite ?Hs. repeat split; intros; try congruence; try lia.
  - (* OPEN *)
    assert (Ha : halfOpenAttempts b = 0) by (apply Hzero; congruence).
    destruct Hlast as [last Hlast]; [congruence|].
    destruct c as [now| |now| |]; simpl;
      unfold sound, isOpen, recordSuccess, recordFailure; rewrite ?Hs; simpl.
    + destruct (truthy _ && _); simpl; rewrite ?Hs;
        repeat split; intros; try congruence; try lia; eauto.
    + rewrite ?Hs. repeat split; intros; try congruence; try lia; eauto.
    + destruct (_ <=? _); simpl;
        repeat split; intros; try congruence; try lia; eauto.
    + rewrite ?Hs. repeat split; intros; try congruence; try lia; eauto.
    + rewrite ?Hs. repeat split; intros; try congruence; try lia; eauto.
  - (* HALF_OPEN *)
    destruct Hlast as [last Hlast]; [congruence|].
    destruct c as [now| |now| |]; simpl;
      unfold sound, isOpen, recordSuccess, recordFailure; rewrite ?Hs; simpl.
    + rewrite ?Hs. repeat split; intros; try congruence; try lia; eauto.
    + destruct (_ <=? _) eqn:Hreq; simpl;
        [|apply Z.leb_gt in Hreq];
        repeat split; intros; try congruence; try lia; eauto.
    + repeat split; intros; try congruence; try lia; eauto.
    + rewrite ?Hs. repeat split; intros; try congruence; try lia; eauto.
    + rewrite ?Hs. repeat split; intros; try congruence; try lia; eauto.
Qed.

Lemma sound_new : 0 < failureThreshold options -> sound options new.
Proof.
  intros Hthreshold. repeat split; simpl; try lia; congruence.
Qed.

Lemma sound_calls history b :
  0 < failureThreshold options ->
  sound options b -> sound options (calls options history b).
Proof.
  intros Hthreshold. revert b. unfold calls.
  induction history as [|c rest IH]; intros b Hb; simpl; [exact Hb|].
  apply IH. now apply sound_call.
Qed.

Lemma successes_S n b :
  successes options (S n) b = recordSuccess options (successes options n b).
Proof. reflexivity. Qed.

Lemma successes_closed n b :
  state b = CLOSED -> 0 <= failureCount b ->
  state (successes options n b) = CLOSED
  /\ failureCount (successes options n b)
     = Z.max 0 (failureCount b - Z.of_nat n)
  /\ lastFailureTime (successes options n b) = lastFailureTime b
  /\ halfOpenAttempts (successes options n b) = halfOpenAttempts b.
Proof.
  intros Hs Hc. induction n as [|n IH].
  - simpl. repeat split; [assumption|lia].
  - destruct IH as (Hs' & Hc' & Hl' & Ha').
    rewrite successes_S. unfold recordSuccess. rewrite Hs'. simpl.
    repeat split; [|assumption|assumption]. rewrite Hc'. lia.
Qed.

Lemma failures_closed nows b :
  state b = CLOSED ->
  failureCount b + Z.of_nat (length nows) < failureThreshold options ->
  state (failures options nows b) = CLOSED
  /\ failureCount (failures options nows b)
     = failureCount b + Z.of_nat (length nows).
Proof.
  revert b. unfold failures.
  induction nows as [|now rest IH]; intros b Hs Hroom; simpl.
  - split; [assumption|lia].
  - simpl in Hroom.
    destruct (IH (recordFailure options now b)) as [Hs' Hc'].
    + rewrite recordFailure_closed by assumption.
      replace (_ <=? _) with false; [reflexivity|].
      symmetry. apply Z.leb_gt. lia.
    + rewrite recordFailure_count. lia.
    + split; [assumption|]. rewrite Hc', recordFailure_count. lia.
Qed.

Lemma successes_half_open k b :
  state b = HALF_OPEN ->
  halfOpenAttempts b + Z.of_nat k < requiredSuccesses options ->
  successes options k b =
  {| failureCount := failureCount b;
     lastFailureTime := lastFailureTime b;
     state := HALF_OPEN;
     halfOpenAttempts := halfOpenAttempts b + Z.of_nat k |}.
Proof.
  intros Hs. induction k as [|k IH]; intros Hroom.
  - simpl. destruct b; simpl in *; subst. f_equal. lia.
  - rewrite successes_S, IH by lia. unfold recordSuccess. simpl.
    replace (_ <=? _) with false by (symmetry; apply Z.leb_gt; lia).
    f_equal. lia.
Qed.

Lemma checks_open_early nows b last :
  state b = OPEN -> lastFailureTime b = Some last ->
  last = 0 \/ (forall now, now ∈ nows -> now - last <= resetTimeout options) ->
  checks options nows b = (map (fun _ => true) nows, b).
Proof.
  intros Hs Hlast Hearly.
  induction nows as [|now rest IH]; simpl; [reflexivity|].
  assert (Hnow : isOpen options now b = (true, b)).
  { destruct Hearly as [->|Hearly].
    - unfold isOpen. now rewrite Hs, Hlast.
    - apply isOpen_open_early with (last := last); auto.
      apply Hearly. now left. }
  rewrite Hnow, IH; [reflexivity|].
  destruct Hearly as [->|Hearly]; [now left|right].
  intros t Ht. apply Hearly. now right.
Qed.

End CircuitBreakerHistories.

(** X1.  Whatever methods are called on a breaker since its
    construction, in whatever order and at whatever clock readings (with
    a positive failure threshold): the failure count and the half-open
    counter are never negative; a breaker that is not CLOSED has a last
    failure time; the half-open counter is 0 outside HALF_OPEN and below
    the required number of successes inside it; and a CLOSED breaker has
    fewer failures on its count than the threshold. *)
Theorem breaker_history_invariant :
  forall (options : CircuitBreaker.CircuitBreakerOptions)
         (history : list CircuitBreaker.Call),
    0 < CircuitBreaker.failureThreshold options ->
    let b := CircuitBreaker.calls options history CircuitBreaker.new in
    0 <= CircuitBreaker.failureCount b
    /\ 0 <= CircuitBreaker.halfOpenAttempts b
    /\ (CircuitBreaker.state b <> CircuitBreaker.CLOSED ->
        exists last, CircuitBreaker.lastFailureTime b = Some last)
    /\ (CircuitBreaker.state b <> CircuitBreaker.HALF_OPEN ->
        CircuitBreaker.halfOpenAttempts b = 0)
    /\ (CircuitBreaker.state b = CircuitBreaker.CLOSED ->
        CircuitBreaker.failureCount b < CircuitBreaker.failureThreshold options)
    /\ (CircuitBreaker.state b = CircuitBreaker.HALF_OPEN ->
        1 <= CircuitBreaker.requiredSuccesses options ->
        CircuitBreaker.halfOpenAttempts b
        < CircuitBreaker.requiredSuccesses options).
Proof.
  intros options history Hthreshold b.
  apply (sound_calls options history CircuitBreaker.new Hthreshold).
  now apply sound_new.
Qed.

Lemma breaker_history_invariant_witness :
  0 <= CircuitBreaker.failureCount
         (CircuitBreaker.calls CircuitBreaker.workflowOptions
            [CircuitBreaker.CallRecordSuccess;
             CircuitBreaker.CallRecordFailure 10;
             CircuitBreaker.CallIsOpen 20;
             CircuitBreaker.CallRecordSuccess;
             CircuitBreaker.CallRecordSuccess]
            CircuitBreaker.new).
Proof.
  refine (proj1 (breaker_history_invariant CircuitBreaker.workflowOptions
                   _ _)).
  simpl. lia.
Defined.

(** X2.  A breaker that has just entered HALF_OPEN (counter 0) stays in
    HALF_OPEN, with its failure count untouched, through any number of
    consecutive successes below the required number, and the success
    that reaches the required number closes it with the failure count
    and the counter back at 0.  The required number is
    [halfOpenRequests], or 1 when that option is absent or 0. *)
Theorem half_open_closes_after_required :
  forall (options : CircuitBreaker.CircuitBreakerOptions)
         (b : CircuitBreaker.t) (n k : nat),
    CircuitBreaker.state b = CircuitBreaker.HALF_OPEN ->
    CircuitBreaker.halfOpenAttempts b = 0 ->
    CircuitBreaker.requiredSuccesses options = Z.of_nat (S n) ->
    (k <= n)%nat ->
    CircuitBreaker.successes options k b
    = {| CircuitBreaker.failureCount := CircuitBreaker.failureCount b;
         CircuitBreaker.lastFailureTime := CircuitBreaker.lastFailureTime b;
         CircuitBreaker.state := CircuitBreaker.HALF_OPEN;
         CircuitBreaker.halfOpenAttempts := Z.of_nat k |}
    /\ CircuitBreaker.successes options (S n) b
       = {| CircuitBreaker.failureCount := 0;
            CircuitBreaker.lastFailureTime := CircuitBreaker.lastFailureTime b;
            CircuitBreaker.state := CircuitBreaker.CLOSED;
            CircuitBreaker.halfOpenAttempts := 0 |}.
Proof.
  intros options b n k Hs Ha Hreq Hk. split.
  - rewrite successes_half_open by (assumption || lia).
    f_equal. lia.
  - rewrite successes_S, successes_half_open by (assumption || lia).
    unfold CircuitBreaker.recordSuccess. simpl.
    replace (_ <=? _) with true by (symmetry; apply Z.leb_le; lia).
    reflexivity.
Qed.

Lemma half_open_closes_after_required_witness :
  CircuitBreaker.state
    (CircuitBreaker.successes
       {| CircuitBreaker.failureThreshold := 5;
          CircuitBreaker.resetTimeout := 60000;
          CircuitBreaker.halfOpenRequests := None |}
       1 Scenario.probing)
  = CircuitBreaker.CLOSED.
Proof.
  destruct (half_open_closes_after_required
    {| CircuitBreaker.failureThreshold := 5;
       CircuitBreaker.resetTimeout := 60000;
       CircuitBreaker.halfOpenRequests := None |}
    Scenario.probing 0 0 eq_refl eq_refl eq_refl (le_n 0)) as [_ ->].
  reflexivity.
Defined.

(** X3.  In CLOSED a success forgives one failure and no more: after [k]
    failures that stay below the threshold and then [j] successes, the
    breaker is CLOSED with the count it had, plus [k], minus [j], but
    not below 0. *)
Theorem successes_forgive_one_failure_each :
  forall (options : CircuitBreaker.CircuitBreakerOptions)
         (b : CircuitBreaker.t) (nows : list Z) (j : nat),
    CircuitBreaker.state b = CircuitBreaker.CLOSED ->
    0 <= CircuitBreaker.failureCount b ->
    CircuitBreaker.failureCount b + Z.of_nat (length nows)
    < CircuitBreaker.failureThreshold options ->
    let after :=
      CircuitBreaker.successes options j
        (CircuitBreaker.failures options nows b) in
    CircuitBreaker.state after = CircuitBreaker.CLOSED
    /\ CircuitBreaker.failureCount after
       = Z.max 0 (CircuitBreaker.failureCount b + Z.of_nat (length nows)
                  - Z.of_nat j).
Proof.
  intros options b nows j Hs Hc Hroom after.
  destruct (failures_closed options nows b Hs Hroom) as [Hs1 Hc1].
  destruct (successes_closed options j _ Hs1) as (Hs2 & Hc2 & _).
  - rewrite Hc1. lia.
  - split; [exact Hs2|]. unfold after. rewrite Hc2, Hc1. reflexivity.
Qed.

Lemma successes_forgive_one_failure_each_witness :
  CircuitBreaker.failureCount
    (CircuitBreaker.successes CircuitBreaker.workflowOptions 1
       (CircuitBreaker.failures CircuitBreaker.workflowOptions
          [10; 20; 30; 40] CircuitBreaker.new))
  = 3.
Proof.
  refine (proj2 (successes_forgive_one_failure_each
    CircuitBreaker.workflowOptions CircuitBreaker.new [10; 20; 30; 40] 1
    eq_refl _ _)).
  - simpl. lia.
  - simpl. lia.
Defined.

(** X4.  An OPEN breaker lets nothing through before its reset timeout:
    every [isOpen()] made no later than [resetTimeout] after the last
    failure answers true and changes nothing, and [recordSuccess()] on
    an OPEN breaker changes nothing either.  The same holds at any time
    at all when the last failure was recorded at clock reading 0, which
    the test of [lastFailureTime] takes for "no failure time". *)
Theorem open_blocks_until_timeout :
  forall (options : CircuitBreaker.CircuitBreakerOptions)
         (b : CircuitBreaker.t) (last : Z) (nows : list Z),
    CircuitBreaker.state b = CircuitBreaker.OPEN ->
    CircuitBreaker.lastFailureTime b = Some last ->
    last = 0
    \/ (forall now, now ∈ nows ->
          now - last <= CircuitBreaker.resetTimeout options) ->
    CircuitBreaker.checks options nows b = (map (fun _ => true) nows, b)
    /\ CircuitBreaker.recordSuccess options b = b.
Proof.
  intros options b last nows Hs Hlast Hearly. split.
  - now apply checks_open_early with (last := last).
  - unfold CircuitBreaker.recordSuccess. now rewrite Hs.
Qed.

Lemma open_blocks_until_timeout_witness :
  CircuitBreaker.checks CircuitBreaker.workflowOptions [1001; 30000; 61000]
    Scenario.tripped
  = ([true; true; true], Scenario.tripped).
Proof.
  refine (proj1 (open_blocks_until_timeout CircuitBreaker.workflowOptions
                   Scenario.tripped 1000 [1001; 30000; 61000]
                   eq_refl eq_refl _)).
  right. intros now Hnow. simpl.
  assert (H : now = 1001 \/ now = 30000 \/ now = 61000).
  { repeat (apply elem_of_cons in Hnow as [Hnow|Hnow]; [auto|]).
    inversion Hnow. }
  lia.
Defined.

(** ** The rate limiter over whole histories *)

Section RateLimiterHistories.

Import RateLimiter.

Variable options : RateLimiterOptions.

Lemma oldestRequest_le (requests : list Z) s :
  s ∈ requests -> oldestRequest requests <= s.
Proof.
  destruct requests as [|r rest]; [intros H; inversion H|]. simpl.
  revert r. induction rest as [|x rest IH]; intros r Hs; simpl.
  - apply list_elem_of_singleton in Hs as ->. lia.
  - assert (Hmono : forall a b l, a <= b -> foldl Z.min a l <= foldl Z.min b l).
    { intros a b l. revert a b.
      induction l as [|y l IHl]; intros a b Hab; simpl; [exact Hab|].
      apply IHl. lia. }
    apply elem_of_cons in Hs as [->|Hs].
    + etrans; [apply (Hmono (Z.min r x) r); lia|].
      apply (IH r). now left.
    + etrans; [apply (Hmono (Z.min r x) x); lia|].
      apply (IH x). exact Hs.
Qed.

Lemma filter_window_idem (start : Z) (requests : list Z) :
  filter (fun time => start < time)
    (filter (fun time => start < time) requests)
  = filter (fun time => start < time) requests.
Proof.
  induction requests as [|r rest IH]; [reflexivity|].
  rewrite (filter_cons _ r rest). destruct (decide (start < r)) as [Hr|Hr].
  - rewrite filter_cons_True by exact Hr. now rewrite IH.
  - exact IH.
Qed.

Lemma tryAcquire_capacity now (requests : list Z) :
  Z.of_nat (length requests) <= maxRequests options ->
  Z.of_nat (length (snd (tryAcquire options now requests)))
  <= maxRequests options.
Proof.
  intros Hcap. unfold tryAcquire.
  match goal with
  | |- context [@filter ?A ?B ?F ?P ?D requests] =>
      set (valid := @filter A B F P D requests) in *;
      assert (Hle : (length valid <= length requests)%nat)
        by apply (@length_filter A P D requests)
  end.
  destruct (_ <? _) eqn:Hroom; simpl.
  - apply Z.ltb_lt in Hroom. rewrite length_app. simpl. lia.
  - lia.
Qed.

Lemma tryAcquire_sublist now (requests : list Z) :
  snd (tryAcquire options now requests) `sublist_of` requests ++ [now].
Proof.
  unfold tryAcquire. destruct (_ <? _); simpl.
  - apply sublist_app; [apply sublist_filter|reflexivity].
  - etrans; [apply sublist_filter|]. now apply sublist_inserts_r.
Qed.

Lemma acquires_capacity nows (requests : list Z) :
  Z.of_nat (length requests) <= maxRequests options ->
  Z.of_nat (length (snd (acquires options nows requests)))
  <= maxRequests options
  /\ snd (acquires options nows requests) `sublist_of` requests ++ nows
  /\ length (fst (acquires options nows requests)) = length nows.
Proof.
  revert requests. induction nows as [|now rest IH]; intros requests Hcap.
  - simpl. rewrite app_nil_r. repeat split; [exact Hcap|reflexivity].
  - simpl.
    pose proof (tryAcquire_capacity now requests Hcap) as Hcap1.
    pose proof (tryAcquire_sublist now requests) as Hsub1.
    destruct (tryAcquire options now requests) as [r requests1].
    simpl in Hcap1, Hsub1.
    destruct (IH requests1 Hcap1) as (Hcap2 & Hsub2 & Hlen).
    destruct (acquires options rest requests1) as [rs requests2].
    simpl in *. repeat split; [exact Hcap2| |now rewrite Hlen].
    etrans; [exact Hsub2|].
    replace (requests ++ now :: rest) with ((requests ++ [now]) ++ rest)
      by now rewrite <- app_assoc.
    apply sublist_app; [exact Hsub1|reflexivity].
Qed.

End RateLimiterHistories.

(** X5.  A limiter never stores more than [maxRequests] timestamps: from
    a state within that capacity (the empty one for instance), after any
    sequence of [tryAcquire()] calls at any clock readings, the stored
    list is still within capacity, and it is a subsequence, in order, of
    what was stored before followed by the clock readings of the
    calls. *)
Theorem limiter_stays_within_capacity :
  forall (options : RateLimiter.RateLimiterOptions) (nows : list Z)
         (requests : RateLimiter.t),
    Z.of_nat (length requests) <= RateLimiter.maxRequests options ->
    let run := RateLimiter.acquires options nows requests in
    Z.of_nat (length (snd run)) <= RateLimiter.maxRequests options
    /\ snd run `sublist_of` requests ++ nows
    /\ length (fst run) = length nows.
Proof.
  intros options nows requests Hcap. now apply acquires_capacity.
Qed.

Lemma limiter_stays_within_capacity_witness :
  Z.of_nat (length (snd (RateLimiter.acquires
     {| RateLimiter.maxRequests := 2; RateLimiter.windowMs := 1000 |}
     [10; 20; 30; 2000; 2001; 2002] RateLimiter.new)))
  <= 2.
Proof.
  refine (proj1 (limiter_stays_within_capacity
    {| RateLimiter.maxRequests := 2; RateLimiter.windowMs := 1000 |}
    [10; 20; 30; 2000; 2001; 2002] RateLimiter.new _)).
  simpl. lia.
Defined.

Section RateLimiterAnswers.

Import RateLimiter.

Variable options : RateLimiterOptions.

Lemma filter_window_all (start : Z) (requests : list Z) :
  (forall s, s ∈ requests -> start < s) ->
  filter (fun time => start < time) requests = requests.
Proof.
  induction requests as [|r rest IH]; intros Hall; [reflexivity|].
  rewrite filter_cons_True by (apply Hall; now left).
  f_equal. apply IH. intros s Hs. apply Hall. now right.
Qed.

Lemma filter_window_elem (start : Z) (requests : list Z) s :
  s ∈ filter (fun time => start < time) requests -> start < s /\ s ∈ requests.
Proof. intros Hs. now apply list_elem_of_filter in Hs. Qed.

(** What a denial leaves: the timestamps of the window, as many as the
    capacity. *)
Lemma tryAcquire_denied now (requests denied : list Z) :
  Z.of_nat (length requests) <= maxRequests options ->
  tryAcquire options now requests = (false, denied) ->
  denied = filter (fun time => now - windowMs options < time) requests
  /\ Z.of_nat (length denied) = maxRequests options
  /\ (forall s, s ∈ denied -> now - windowMs options < s).
Proof.
  intros Hcap. unfold tryAcquire.
  match goal with
  | |- context [@filter ?A ?B ?F ?P ?D requests] =>
      set (valid := @filter A B F P D requests) in *;
      assert (Hle : (length valid <= length requests)%nat)
        by apply (@length_filter A P D requests);
      assert (Hin : forall s, s ∈ valid -> now - windowMs options < s)
        by (intros s Hs; now apply filter_window_elem in Hs)
  end.
  destruct (_ <? _) eqn:Hroom; [discriminate|].
  apply Z.ltb_ge in Hroom. intros [= <-].
  repeat split; [lia|exact Hin].
Qed.

End RateLimiterAnswers.

(** X6.  [tryAcquire()] admits exactly when [getRemainingRequests()],
    read at the same clock reading just before, is positive.  With a
    positive window an admission lowers the remaining count by one, and
    after a denial the remaining count is 0. *)
Theorem admission_matches_remaining :
  forall (options : RateLimiter.RateLimiterOptions) (now : Z)
         (requests : RateLimiter.t),
    let before := RateLimiter.getRemainingRequests options now requests in
    let answer := RateLimiter.tryAcquire options now requests in
    let after := RateLimiter.getRemainingRequests options now (snd answer) in
    (fst answer = true <-> 0 < before)
    /\ (0 < RateLimiter.windowMs options -> fst answer = true ->
        after = before - 1)
    /\ (fst answer = false -> before = 0 /\ after = 0).
Proof.
  intros options now requests.
  unfold RateLimiter.getRemainingRequests, RateLimiter.tryAcquire.
  pose proof (filter_window_idem (now - RateLimiter.windowMs options)
                requests) as Hidem.
  match goal with
  | |- context [@filter ?A ?B ?F ?P ?D requests] =>
      set (valid := @filter A B F P D requests) in *
  end.
  destruct (_ <? _) eqn:Hroom; cbn [fst snd].
  - apply Z.ltb_lt in Hroom. repeat split; try lia; try discriminate.
    intros Hwindow _. subst valid. unfold RateLimiter.t in *.
    rewrite filter_app, Hidem.
    rewrite filter_cons_True by lia. rewrite filter_nil, length_app.
    simpl. lia.
  - apply Z.ltb_ge in Hroom. subst valid. unfold RateLimiter.t in *.
    rewrite Hidem. repeat split; try lia; try discriminate.
Qed.

Lemma admission_matches_remaining_witness :
  RateLimiter.getRemainingRequests
    {| RateLimiter.maxRequests := 3; RateLimiter.windowMs := 60000 |} 3000
    (snd (RateLimiter.tryAcquire
            {| RateLimiter.maxRequests := 3; RateLimiter.windowMs := 60000 |}
            3000 [1000; 2000]))
  = RateLimiter.getRemainingRequests
      {| RateLimiter.maxRequests := 3; RateLimiter.windowMs := 60000 |} 3000
      [1000; 2000] - 1.
Proof.
  refine (proj1 (proj2 (admission_matches_remaining
    {| RateLimiter.maxRequests := 3; RateLimiter.windowMs := 60000 |} 3000
    [1000; 2000])) _ _).
  - simpl. lia.
  - reflexivity.
Defined.

(** X7.  The reset time is exact.  When a limiter with a positive
    [maxRequests], holding no more timestamps than that, denies a call,
    then [getResetTime()] read at the same clock reading is positive,
    and a later [tryAcquire()] on the limiter as the denial left it is
    admitted exactly when at least that many milliseconds have
    passed. *)
Theorem reset_time_is_exact :
  forall (options : RateLimiter.RateLimiterOptions) (now t : Z)
         (requests denied : RateLimiter.t),
    0 < RateLimiter.maxRequests options ->
    Z.of_nat (length requests) <= RateLimiter.maxRequests options ->
    RateLimiter.tryAcquire options now requests = (false, denied) ->
    0 < RateLimiter.getResetTime options now denied
    /\ (fst (RateLimiter.tryAcquire options t denied) = true
        <-> now + RateLimiter.getResetTime options now denied <= t).
Proof.
  intros options now t requests denied Hmax Hcap Hdenied.
  destruct (tryAcquire_denied options now requests denied Hcap Hdenied)
    as (_ & Hlen & Hin).
  assert (Hne : denied <> []) by (intros ->; simpl in Hlen; lia).
  pose proof (oldestRequest_elem denied Hne) as Hold.
  pose proof (Hin _ Hold) as Hwin.
  assert (Hreset : RateLimiter.getResetTime options now denied
                   = RateLimiter.oldestRequest denied
                     + RateLimiter.windowMs options - now).
  { unfold RateLimiter.getResetTime.
    destruct denied; [congruence|]. lia. }
  rewrite Hreset. split; [lia|].
  unfold RateLimiter.tryAcquire.
  match goal with
  | |- context [@filter ?A ?B ?F ?P ?D denied] =>
      set (valid := @filter A B F P D denied) in *;
      assert (Hle : (length valid <= length denied)%nat)
        by apply (@length_filter A P D denied);
      assert (Hlt : ~ P (RateLimiter.oldestRequest denied) ->
                    (length valid < length denied)%nat)
        by (intros Hout;
            now apply (@length_filter_lt A P D denied
                         (RateLimiter.oldestRequest denied)));
      assert (Hall : (forall s, s ∈ denied -> P s) -> valid = denied)
        by (intros Hp; now apply filter_window_all)
  end.
  simpl in Hlt, Hall.
  destruct (_ <? _) eqn:Hroom; simpl.
  - apply Z.ltb_lt in Hroom. split; [intros _|reflexivity].
    destruct (Z_le_gt_dec
      (now + (RateLimiter.oldestRequest denied
              + RateLimiter.windowMs options - now)) t) as [Hok|Hearly];
      [exact Hok|exfalso].
    rewrite Hall in Hroom; [lia|].
    intros s Hs. pose proof (oldestRequest_le denied s Hs). lia.
  - apply Z.ltb_ge in Hroom. split; [discriminate|intros Hlate].
    exfalso. assert ((length valid < length denied)%nat) by (apply Hlt; lia).
    lia.
Qed.

Lemma reset_time_is_exact_witness :
  fst (RateLimiter.tryAcquire
         {| RateLimiter.maxRequests := 2; RateLimiter.windowMs := 1000 |}
         1100 [100; 200])
  = true.
Proof.
  refine (proj2 (proj2 (reset_time_is_exact
    {| RateLimiter.maxRequests := 2; RateLimiter.windowMs := 1000 |}
    300 1100 [100; 200] [100; 200] _ _ eq_refl)) _).
  - simpl. lia.
  - simpl. lia.
  - simpl. lia.
Defined.

(** X8.  Degenerate options.  With [maxRequests] 0 or less no call is
    ever admitted, whatever the limiter holds.  With a positive
    [maxRequests] and a window of 0 ms or less, every call made at a
    clock reading not before the stored timestamps is admitted: the
    limiter limits nothing. *)
Theorem degenerate_limits :
  forall (options : RateLimiter.RateLimiterOptions) (now : Z)
         (requests : RateLimiter.t),
    (RateLimiter.maxRequests options <= 0 ->
     RateLimiter.tryAcquire options now requests
     = (false,
        filter (fun time => now - RateLimiter.windowMs options < time)
          requests))
    /\ (0 < RateLimiter.maxRequests options ->
        RateLimiter.windowMs options <= 0 ->
        (forall s, s ∈ requests -> s <= now) ->
        RateLimiter.tryAcquire options now requests = (true, [now])).
Proof.
  intros options now requests.
  unfold RateLimiter.tryAcquire, RateLimiter.t in *. split.
  - intros Hmax.
    replace (_ <? _) with false; [reflexivity|].
    symmetry. apply Z.ltb_ge. lia.
  - intros Hmax Hwindow Hpast.
    replace (filter _ requests) with (@nil Z).
    + simpl. replace (0 <? _) with true; [reflexivity|].
      symmetry. now apply Z.ltb_lt.
    + symmetry. induction requests as [|r rest IH]; [reflexivity|].
      rewrite filter_cons_False.
      * apply IH. intros s Hs. apply Hpast. now right.
      * pose proof (Hpast r ltac:(now left)). lia.
Qed.

Lemma degenerate_limits_witness :
  RateLimiter.tryAcquire
    {| RateLimiter.maxRequests := 0; RateLimiter.windowMs := 60000 |} 5 []
  = (false, [])
  /\ RateLimiter.tryAcquire
       {| RateLimiter.maxRequests := 1; RateLimiter.windowMs := 0 |} 5 [5]
     = (true, [5]).
Proof.
  split.
  - refine (proj1 (degenerate_limits
      {| RateLimiter.maxRequests := 0; RateLimiter.windowMs := 60000 |} 5 [])
      _).
    simpl. lia.
  - refine (proj2 (degenerate_limits
      {| RateLimiter.maxRequests := 1; RateLimiter.windowMs := 0 |} 5 [5])
      _ _ _).
    + simpl. lia.
    + simpl. lia.
    + intros s Hs. apply list_elem_of_singleton in Hs as ->. lia.
Defined.

(** ** What [retry] does, event by event *)

Section RetryTraces.

Import Js Retry RetryTrace.

Context {T : Type}.
Variable options : RetryOptions (list Event).
Variable script : nat -> Result T.

Hypothesis Hcallback : Retry.onRetry options = Some RetryTrace.onRetry.

Lemma callsIn_app t1 t2 : callsIn (t1 ++ t2) = (callsIn t1 + callsIn t2)%nat.
Proof. unfold callsIn. now rewrite filter_app, length_app. Qed.

Lemma callsIn_rounds k : callsIn (rounds options k) = k.
Proof.
  induction k as [|k IH]; [reflexivity|].
  simpl rounds. rewrite callsIn_app, IH. unfold callsIn. simpl. lia.
Qed.

(** One iteration whose call fails with an accepted error object, when
    it is not the last attempt. *)
Lemma loop_retried fuel a last e :
  Z.of_nat (S a) < attempts options ->
  script a = Throw (ThrownError e) -> accepted options (ThrownError e) ->
  loop sleep (scripted script) options (S fuel) (Z.of_nat (S a)) last
    (rounds options a)
  = loop sleep (scripted script) options fuel (Z.of_nat (S (S a)))
      (ThrownError e) (rounds options (S a)).
Proof.
  intros Hmore Hfail Haccept.
  cbn [loop]. replace (_ <? _) with false
    by (symmetry; apply Z.ltb_ge; lia).
  unfold scripted at 1. rewrite callsIn_rounds, Hfail.
  replace (Z.of_nat (S a) =? attempts options) with false
    by (symmetry; apply Z.eqb_neq; lia).
  rewrite Hcallback. cbn [messageOf].
  replace (Z.of_nat (S a) + 1) with (Z.of_nat (S (S a))) by lia.
  assert (Hnext : sleep (delayFor options (Z.of_nat (S a)))
                    (RetryTrace.onRetry (ThrownError e) (Z.of_nat (S a))
                       (rounds options a ++ [Called]))
                  = rounds options (S a)).
  { unfold sleep, RetryTrace.onRetry. simpl rounds.
    now rewrite <- !app_assoc. }
  rewrite Hnext. unfold accepted in Haccept.
  destruct (retryCondition options) as [cond|]; [|reflexivity].
  now rewrite Haccept.
Qed.


(** [d] more failures and then the failure of the last attempt. *)
Lemma loop_exhausted d : forall a fuel last (errs : nat -> Error),
  (d < fuel)%nat ->
  attempts options = Z.of_nat (S (a + d)) ->
  (forall i, (a <= i <= a + d)%nat ->
     script i = Throw (ThrownError (errs i))
     /\ accepted options (ThrownError (errs i))) ->
  loop sleep (scripted script) options fuel (Z.of_nat (S a)) last
    (rounds options a)
  = (rounds options (a + d) ++ [Called],
     Throw (ThrownError (errs (a + d)%nat))).
Proof.
  induction d as [|d IH]; intros a fuel last errs Hfuel Hlast Hfails.
  - destruct fuel as [|fuel]; [lia|]. rewrite Nat.add_0_r in *.
    destruct (Hfails a ltac:(lia)) as (Hfail & Haccept).
    cbn [loop]. replace (_ <? _) with false
      by (symmetry; apply Z.ltb_ge; lia).
    unfold scripted. rewrite callsIn_rounds, Hfail.
    replace (_ =? _) with true by (symmetry; apply Z.eqb_eq; lia).
    cbn [messageOf]. unfold accepted in Haccept.
    destruct (retryCondition options) as [cond|]; [|reflexivity].
    now rewrite Haccept.
  - destruct fuel as [|fuel]; [lia|].
    destruct (Hfails a ltac:(lia)) as (Hfail & Haccept).
    rewrite (loop_retried fuel a last (errs a)) by (assumption || lia).
    replace (a + S d)%nat with (S a + d)%nat in * by lia.
    apply IH; [lia|assumption|].
    intros i Hi. apply Hfails. lia.
Qed.

(** A call that throws [undefined] is the last one when no retry
    condition is set: the log call that reads [lastError.message]
    throws, after [onRetry] has run if attempts are left. *)
Lemma loop_undefined fuel a last :
  Z.of_nat (S a) <= attempts options ->
  retryCondition options = None ->
  script a = Throw ThrownUndefined ->
  loop sleep (scripted script) options (S fuel) (Z.of_nat (S a)) last
    (rounds options a)
  = (rounds options a ++ [Called]
     ++ (if Z.of_nat (S a) =? attempts options then []
         else [Retried (Z.of_nat (S a))]),
     Throw (ThrownError (typeError
       "Cannot read properties of undefined (reading 'message')"))).
Proof.
  intros Hmore Hnone Hfail.
  cbn [loop]. replace (_ <? _) with false
    by (symmetry; apply Z.ltb_ge; lia).
  unfold scripted at 1. rewrite callsIn_rounds, Hfail, Hnone, Hcallback.
  cbn [messageOf].
  destruct (Z.of_nat (S a) =? attempts options).
  - reflexivity.
  - unfold RetryTrace.onRetry. now rewrite <- app_assoc.
Qed.

End RetryTraces.



(** X10.  When every one of the [attempts] calls fails with an error
    object the retry condition accepts, [retry] throws the error of the
    last call, having run the operation exactly [attempts] times, with
    [onRetry] and a sleep after each call but the last. *)
Theorem retry_exhausted_throws_last_error :
  forall (T : Type) (options : Retry.RetryOptions (list RetryTrace.Event))
         (script : nat -> Js.Result T) (errs : nat -> Js.Error) (n : nat),
    Retry.onRetry options = Some RetryTrace.onRetry ->
    Retry.attempts options = Z.of_nat (S n) ->
    (forall i, (i <= n)%nat ->
       script i = Js.Throw (Js.ThrownError (errs i))
       /\ RetryTrace.accepted options (Js.ThrownError (errs i))) ->
    Retry.retry RetryTrace.sleep (RetryTrace.scripted script) options []
    = (RetryTrace.rounds options n ++ [RetryTrace.Called],
       Js.Throw (Js.ThrownError (errs n))).
Proof.
  intros T options script errs n Hcallback Hlast Hfails.
  unfold Retry.retry. rewrite Hlast, Nat2Z.id.
  apply (loop_exhausted options script Hcallback n 0); auto; try lia.
  intros i Hi. apply Hfails. lia.
Qed.

Lemma retry_exhausted_throws_last_error_witness :
  Retry.retry RetryTrace.sleep (RetryTrace.scripted RetryTrace.down)
    (RetryTrace.recorded 2) []
  = ([RetryTrace.Called; RetryTrace.Retried 1; RetryTrace.Slept 2000;
      RetryTrace.Called],
     Js.Throw RetryTrace.timedOut).
Proof.
  refine (retry_exhausted_throws_last_error string (RetryTrace.recorded 2)
            RetryTrace.down
            (fun _ => {| Js.message := "TIMEOUT"; Js.code := Js.CodeAbsent |})
            1 eq_refl eq_refl _).
  intros i Hi. split; reflexivity.
Defined.

(** The operation throws [undefined] at its first call and would
    succeed at the second: without a retry condition there is no second
    call, [retry] throws the [TypeError] of the log call. *)
Lemma thrown_undefined_is_not_retried :
  forall (T : Type) (options : Retry.RetryOptions (list RetryTrace.Event))
         (script : nat -> Js.Result T),
    Retry.onRetry options = Some RetryTrace.onRetry ->
    Retry.retryCondition options = None ->
    1 <= Retry.attempts options ->
    script 0%nat = Js.Throw Js.ThrownUndefined ->
    Retry.retry RetryTrace.sleep (RetryTrace.scripted script) options []
    = ([RetryTrace.Called]
       ++ (if 1 =? Retry.attempts options then []
           else [RetryTrace.Retried 1]),
       Js.Throw (Js.ThrownError (Js.typeError
         "Cannot read properties of undefined (reading 'message')"))).
Proof.
  intros T options script Hcallback Hnone Hattempts Hfail.
  unfold Retry.retry.
  destruct (Z.to_nat (Retry.attempts options)) as [|fuel] eqn:Hfuel;
    [lia|].
  exact (loop_undefined options script Hcallback fuel 0 Js.ThrownUndefined
           Hattempts Hnone Hfail).
Qed.

Section RetryDelays.

Import Retry.

Context {W : Type}.
Variable options : RetryOptions W.

Lemma delayFor_capped attempt (b : Backoff) :
  backoff options = Some b ->
  delayFor options attempt <= maxDelayOr options.
Proof. unfold delayFor. intros ->. destruct b; lia. Qed.

Lemma delayFor_monotone attempt (b : Backoff) :
  backoff options = Some b -> 0 <= delay options -> 1 <= attempt ->
  delayFor options attempt <= delayFor options (attempt + 1).
Proof.
  unfold delayFor. intros -> Hdelay Hattempt. destruct b.
  - apply Z.min_le_compat_r. nia.
  - apply Z.min_le_compat_r.
    apply Z.mul_le_mono_nonneg_l; [assumption|].
    apply Z.pow_le_mono_r; lia.
Qed.

End RetryDelays.

(** X11.  With a backoff chosen and a non-negative base delay, the delay
    slept after attempt 1, 2, 3, ... never decreases from one attempt to
    the next and never exceeds [maxDelay] (60000 when [maxDelay] is
    absent or 0); with the exponential backoff it is the base delay
    doubled [attempt - 1] times as long as that stays within the cap. *)
Theorem backoff_delay_grows_to_cap :
  forall (W : Type) (options : Retry.RetryOptions W) (b : Retry.Backoff)
         (attempt : Z),
    Retry.backoff options = Some b ->
    0 <= Retry.delay options ->
    1 <= attempt ->
    Retry.delayFor options attempt <= Retry.delayFor options (attempt + 1)
    /\ Retry.delayFor options attempt <= Retry.maxDelayOr options
    /\ (b = Retry.exponential ->
        Retry.delay options * 2 ^ (attempt - 1) <= Retry.maxDelayOr options ->
        Retry.delayFor options attempt
        = Retry.delay options * 2 ^ (attempt - 1)).
Proof.
  intros W options b attempt Hb Hdelay Hattempt. repeat split.
  - now apply delayFor_monotone with (b := b).
  - now apply delayFor_capped with (b := b).
  - intros -> Hcap. unfold Retry.delayFor. rewrite Hb. lia.
Qed.

Lemma backoff_delay_grows_to_cap_witness :
  Retry.delayFor (RetryTrace.recorded 5) 4 = 16000
  /\ Retry.delayFor (RetryTrace.recorded 5) 5 <= 30000.
Proof.
  destruct (backoff_delay_grows_to_cap _ (RetryTrace.recorded 5)
              Retry.exponential 4 eq_refl ltac:(simpl; lia) ltac:(lia))
    as (_ & _ & Hexact).
  destruct (backoff_delay_grows_to_cap _ (RetryTrace.recorded 5)
              Retry.exponential 5 eq_refl ltac:(simpl; lia) ltac:(lia))
    as (_ & Hcap & _).
  split.
  - rewrite Hexact; [reflexivity|reflexivity|]. vm_compute. discriminate.
  - exact Hcap.
Defined.



(** ** Mention extraction *)

Section MatchAllFacts.

Import JsString Regex.

Lemma matchLiteral_length lit prev s last rest :
  matchLiteral lit prev s = Some (last, rest) ->
  String.length s = (String.length lit + String.length rest)%nat.
Proof.
  revert prev s. induction lit as [|a lit IH]; intros prev s; simpl.
  - now intros [= _ <-].
  - destruct s as [|c s]; [discriminate|].
    destruct (Ascii.eqb _ _); [|discriminate].
    intros Hm. simpl. f_equal. exact (IH _ _ Hm).
Qed.

Lemma wholeWordHere_length name prev s :
  wholeWordHere name prev s = true ->
  (String.length name <= String.length s)%nat.
Proof.
  unfold wholeWordHere. intros H. apply andb_true_iff in H as [_ H].
  destruct (matchLiteral name prev s) as [[last rest]|] eqn:Hm;
    [|discriminate].
  apply matchLiteral_length in Hm. lia.
Qed.

Lemma wholeWordAt_length name prev s i :
  wholeWordAt name prev s i = true ->
  (i + String.length name <= String.length s)%nat.
Proof.
  revert prev s. induction i as [|i IH]; intros prev s H.
  - rewrite wholeWordAt_0 in H. apply wholeWordHere_length in H. lia.
  - destruct s as [|c s]; [discriminate|]. simpl in H.
    apply IH in H. simpl. lia.
Qed.

Lemma spaced_cons gap i l :
  Forall (fun j => (i + gap <= j)%nat) l -> spaced gap l -> spaced gap (i :: l).
Proof.
  intros Hall Hl. destruct l as [|j l]; [exact I|].
  split; [|exact Hl]. now inversion Hall.
Qed.

Lemma scan_sound name s : forall skip prev pos,
  Forall (fun i => (pos + skip <= i)%nat
                   /\ wholeWordAt name prev s (i - pos) = true)
         (scan name skip prev pos s)
  /\ spaced (gapOf name) (scan name skip prev pos s).
Proof.
  induction s as [|c rest IH]; intros skip prev pos.
  - rewrite scan_empty.
    destruct ((skip =? 0)%nat && wholeWordHere name prev "") eqn:Hhere.
    + apply andb_true_iff in Hhere as [Hskip Hw].
      apply Nat.eqb_eq in Hskip. subst skip. split; [|exact I].
      constructor; [|constructor]. split; [lia|].
      now rewrite Nat.sub_diag, wholeWordAt_0.
    + split; [constructor|exact I].
  - rewrite scan_cons.
    destruct ((skip =? 0)%nat && wholeWordHere name prev (String c rest))
      eqn:Hhere.
    + apply andb_true_iff in Hhere as [Hskip Hw].
      apply Nat.eqb_eq in Hskip. subst skip.
      destruct (IH (String.length name - 1)%nat (Some c) (S pos))
        as [Hall Hsp].
      simpl app. split.
      * constructor.
        -- split; [lia|]. now rewrite Nat.sub_diag, wholeWordAt_0.
        -- eapply Forall_impl; [exact Hall|]. intros i [Hi Hat].
           split; [lia|].
           replace (i - pos)%nat with (S (i - S pos)) by lia. exact Hat.
      * apply spaced_cons; [|exact Hsp].
        eapply Forall_impl; [exact Hall|]. intros i [Hi _].
        unfold gapOf. lia.
    + destruct (IH (skip - 1)%nat (Some c) (S pos)) as [Hall Hsp].
      simpl app. split; [|exact Hsp].
      eapply Forall_impl; [exact Hall|]. intros i [Hi Hat].
      split; [lia|].
      replace (i - pos)%nat with (S (i - S pos)) by lia. exact Hat.
Qed.

End MatchAllFacts.

(** X13.  Every index [matchAll] reports is a whole-word match of the
    name that fits in the text, and the reported matches do not overlap:
    the indices increase, each at least the length of the name (at least
    one) after the one before. *)
Theorem matchAll_reports_disjoint_whole_words :
  forall (name text : string),
    Forall (fun i =>
              Regex.wholeWordAt name None text i = true
              /\ (i + String.length name <= String.length text)%nat)
           (Regex.matchAll name text)
    /\ Regex.spaced (Regex.gapOf name) (Regex.matchAll name text).
Proof.
  intros name text. unfold Regex.matchAll.
  destruct (scan_sound name text 0 None 0) as [Hall Hsp].
  split; [|exact Hsp].
  eapply Forall_impl; [exact Hall|]. intros i [_ Hat].
  rewrite Nat.sub_0_r in Hat. split; [exact Hat|].
  now apply wholeWordAt_length in Hat.
Qed.

Section CaseFolding.

Import JsString Regex.

Lemma canonicalize_toLowerChar c : canonicalize (toLowerChar c) = canonicalize c.
Proof. destruct c as [[] [] [] [] [] [] [] []]; reflexivity. Qed.

Lemma isWordChar_toLowerChar c : isWordChar (toLowerChar c) = isWordChar c.
Proof. destruct c as [[] [] [] [] [] [] [] []]; reflexivity. Qed.

Lemma length_toLowerCase s : String.length (toLowerCase s) = String.length s.
Proof. induction s as [|c s IH]; simpl; congruence. Qed.

Lemma isWord_lowerChar o : isWord (lowerChar o) = isWord o.
Proof. destruct o; simpl; [apply isWordChar_toLowerChar|reflexivity]. Qed.

Lemma head_toLowerCase s : head (toLowerCase s) = lowerChar (head s).
Proof. now destruct s. Qed.

(** Folding the case of the name changes nothing. *)
Lemma matchLiteral_lower_name lit prev s :
  matchLiteral (toLowerCase lit) prev s = matchLiteral lit prev s.
Proof.
  revert prev s. induction lit as [|a lit IH]; intros prev s; simpl;
    [reflexivity|].
  destruct s as [|c s]; [reflexivity|].
  rewrite canonicalize_toLowerChar, IH. reflexivity.
Qed.

(** Folding the case of the text folds what is consumed and what is
    left. *)
Lemma matchLiteral_lower_text lit prev s :
  matchLiteral lit (lowerChar prev) (toLowerCase s)
  = (fun '(last, rest) => (lowerChar last, toLowerCase rest))
      <$> matchLiteral lit prev s.
Proof.
  revert prev s. induction lit as [|a lit IH]; intros prev s; simpl;
    [reflexivity|].
  destruct s as [|c s]; [reflexivity|]. simpl.
  rewrite canonicalize_toLowerChar.
  destruct (Ascii.eqb _ _); [|reflexivity].
  exact (IH (Some c) s).
Qed.

Lemma wholeWordHere_lower_name name prev s :
  wholeWordHere (toLowerCase name) prev s = wholeWordHere name prev s.
Proof. unfold wholeWordHere. now rewrite matchLiteral_lower_name. Qed.

Lemma wholeWordHere_lower_text name prev s :
  wholeWordHere name (lowerChar prev) (toLowerCase s)
  = wholeWordHere name prev s.
Proof.
  unfold wholeWordHere, boundary.
  rewrite matchLiteral_lower_text, head_toLowerCase, !isWord_lowerChar.
  destruct (matchLiteral name prev s) as [[last rest]|]; simpl;
    [|reflexivity].
  now rewrite head_toLowerCase, !isWord_lowerChar.
Qed.

Lemma scan_lower_name name s : forall skip prev pos,
  scan (toLowerCase name) skip prev pos s = scan name skip prev pos s.
Proof.
  induction s as [|c rest IH]; intros skip prev pos.
  - now rewrite !scan_empty, wholeWordHere_lower_name.
  - now rewrite !scan_cons, wholeWordHere_lower_name, length_toLowerCase, IH.
Qed.

Lemma scan_lower_text name s : forall skip prev pos,
  scan name skip (lowerChar prev) pos (toLowerCase s)
  = scan name skip prev pos s.
Proof.
  induction s as [|c rest IH]; intros skip prev pos.
  - change (toLowerCase "") with (toLowerCase EmptyString).
    rewrite !scan_empty.
    now rewrite <- (wholeWordHere_lower_text name prev EmptyString).
  - change (toLowerCase (String c rest))
      with (String (toLowerChar c) (toLowerCase rest)).
    rewrite !scan_cons.
    change (String (toLowerChar c) (toLowerCase rest))
      with (toLowerCase (String c rest)).
    rewrite wholeWordHere_lower_text.
    change (Some (toLowerChar c)) with (lowerChar (Some c)).
    now rewrite IH.
Qed.

End CaseFolding.

(** X14.  Mention matching ignores ASCII case on both sides: folding the
    name or the text to lower case leaves the reported match indices
    unchanged. *)
Theorem matchAll_ignores_case :
  forall (name text : string),
    Regex.matchAll (JsString.toLowerCase name) text = Regex.matchAll name text
    /\ Regex.matchAll name (JsString.toLowerCase text)
       = Regex.matchAll name text.
Proof.
  intros name text. unfold Regex.matchAll. split.
  - apply scan_lower_name.
  - exact (scan_lower_text name text 0 None 0).
Qed.

(** ** What the analyzer reports *)

Section MentionRecords.

Import JsString Regex Analyzer.

Lemma contextBonus_nonneg brand context bonus :
  contextBonus brand context = Some bonus -> 0 <= bonus.
Proof.
  unfold contextBonus. destruct (primarySubject context brand) as [subject|];
    simpl; [|discriminate].
  intros [= <-]. repeat case_match; lia.
Qed.

Lemma strength_fold_lower brand contexts acc strength :
  foldl (fun acc context =>
           strength ← acc;
           bonus ← contextBonus brand context;
           Some (strength + bonus)) acc contexts = Some strength ->
  exists start, acc = Some start /\ start <= strength.
Proof.
  revert acc. induction contexts as [|c rest IH]; intros acc; simpl.
  - intros ->. exists strength. split; [reflexivity|lia].
  - intros Hfold. destruct (IH _ Hfold) as (mid & Hmid & Hle).
    destruct acc as [start|]; [|discriminate]. simpl in Hmid.
    destruct (contextBonus brand c) as [bonus|] eqn:Hb; [|discriminate].
    simpl in Hmid. injection Hmid as <-.
    apply contextBonus_nonneg in Hb. exists start. split; [reflexivity|lia].
Qed.

Lemma calculateMentionStrength_range contexts brand strength :
  calculateMentionStrength contexts brand = Some strength ->
  50 <= strength <= 100.
Proof.
  unfold calculateMentionStrength.
  destruct (foldl _ (Some 50) contexts) as [total|] eqn:Hfold;
    [|discriminate].
  simpl. intros [= <-].
  destruct (strength_fold_lower _ _ _ _ Hfold) as (start & [= <-] & Hle).
  lia.
Qed.

Lemma analyzeBrandMentionsIn_records text brandNames mentions :
  analyzeBrandMentionsIn text brandNames = Some mentions ->
  Forall (fun m =>
            brand m ∈ brandNames
            /\ positions m = matchAll (brand m) text
            /\ positions m <> []
            /\ count m = length (positions m)
            /\ length (contexts m) = count m
            /\ 50 <= strength m <= 100) mentions
  /\ map brand mentions `sublist_of` brandNames.
Proof.
  revert mentions. induction brandNames as [|b rest IH]; intros mentions.
  - intros [= <-]. split; [constructor|reflexivity].
  - cbn [analyzeBrandMentionsIn].
    destruct (matchAll b text) as [|i is_] eqn:Hm.
    + intros Hrest. destruct (IH _ Hrest) as [Hall Hsub]. split.
      * eapply Forall_impl; [exact Hall|]. intros m (Hin & Hrec).
        split; [now right|exact Hrec].
      * now apply sublist_cons.
    + destruct (calculateMentionStrength _ b) as [strength|] eqn:Hs;
        [|discriminate]. simpl.
      destruct (analyzeBrandMentionsIn text rest) as [others|];
        [|discriminate]. simpl.
      intros [= <-]. destruct (IH _ eq_refl) as [Hall Hsub]. split.
      * constructor.
        -- simpl. rewrite Hm. repeat split; try congruence.
           ++ now left.
           ++ now rewrite length_map.
           ++ now apply calculateMentionStrength_range in Hs.
           ++ now apply calculateMentionStrength_range in Hs.
        -- eapply Forall_impl; [exact Hall|]. intros m (Hin & Hrec).
           split; [now right|exact Hrec].
      * simpl. now apply sublist_skip.
Qed.

Lemma totalMentions_cons {A} (countOf : A -> nat) m (mentions : list A) :
  totalMentions countOf (m :: mentions)
  = Z.of_nat (countOf m) + totalMentions countOf mentions.
Proof.
  unfold totalMentions. simpl.
  assert (Hshift : forall l acc,
    foldl (fun sum x => (sum + countOf x)%nat) acc l
    = (acc + foldl (fun sum x => (sum + countOf x)%nat) 0%nat l)%nat).
  { induction l as [|x l IHl]; intros acc; simpl; [lia|].
    rewrite (IHl (acc + countOf x)%nat), (IHl (countOf x)). lia. }
  rewrite Hshift. lia.
Qed.

End MentionRecords.

(** X15.  Every brand mention the analyzer reports is for one of the
    client's brand names, in the order of that list; its positions are
    the match indices of that name and there is at least one; its count
    is the number of positions and it has one context per position; and
    its strength lies between 50 and 100. *)
Theorem brand_mentions_are_well_formed :
  forall (result : Analyzer.ScrapeResult) (brandNames : list string)
         (mentions : list Analyzer.BrandMention),
    Analyzer.analyzeBrandMentions result brandNames = Some mentions ->
    Forall (fun m =>
              Analyzer.brand m ∈ brandNames
              /\ Analyzer.positions m
                 = Regex.matchAll (Analyzer.brand m) (Analyzer.textOf result)
              /\ Analyzer.positions m <> []
              /\ Analyzer.count m = length (Analyzer.positions m)
              /\ length (Analyzer.contexts m) = Analyzer.count m
              /\ 50 <= Analyzer.strength m <= 100) mentions
    /\ map Analyzer.brand mentions `sublist_of` brandNames.
Proof.
  intros result brandNames mentions.
  apply analyzeBrandMentionsIn_records.
Qed.

Lemma brand_mentions_are_well_formed_witness :
  exists mentions,
    Analyzer.analyzeBrandMentions
      {| Analyzer.response := Some "Acme is great. Try Acme."%string |}
      ["Globex"%string; "Acme"%string] = Some mentions
    /\ map Analyzer.brand mentions `sublist_of`
       ["Globex"%string; "Acme"%string].
Proof.
  eexists. split; [vm_compute; reflexivity|].
  refine (proj2 (brand_mentions_are_well_formed
    {| Analyzer.response := Some "Acme is great. Try Acme."%string |}
    ["Globex"%string; "Acme"%string] _ _)).
  vm_compute. reflexivity.
Defined.

Section CompetitorRecords.

Import Regex Analyzer.

Lemma analyzeCompetitorMentionsIn_counts text competitorNames mentions :
  analyzeCompetitorMentionsIn text competitorNames = Some mentions ->
  Forall (fun m => (0 < competitorCount m)%nat) mentions.
Proof.
  revert mentions. induction competitorNames as [|c rest IH]; intros mentions.
  - intros [= <-]. constructor.
  - cbn [analyzeCompetitorMentionsIn].
    destruct (matchAll c text) as [|i is_] eqn:Hm; [apply IH|].
    destruct (findComparisonContext text c); [|discriminate]. simpl.
    destruct (analyzeCompetitorMentionsIn text rest); [|discriminate]. simpl.
    intros [= <-]. constructor; [simpl; lia|]. now apply IH.
Qed.

End CompetitorRecords.

(** X16.  The visibility score of an analysis that [execute] produces is
    a multiple of 5 between 20 and 100.  When no brand is mentioned it
    is 35 if no competitor is mentioned either and 25 otherwise; when a
    brand is mentioned the mention-count factor is at least 5. *)
Theorem analysis_score_range :
  forall (result : Analyzer.ScrapeResult) (brandNames : list string)
         (competitorNames : option (list string)) (a : Analyzer.Analysis),
    Analyzer.execute result brandNames competitorNames = Some a ->
    let score := Analyzer.visibilityScore (Analyzer.visibility a) in
    20 <= score <= 100
    /\ score mod 5 = 0
    /\ (Analyzer.brandMentions a = [] ->
        score = if bool_decide (Analyzer.competitorMentions a = [])
                then 35 else 25)
    /\ (Analyzer.brandMentions a <> [] ->
        5 <= Analyzer.mentionCount (Analyzer.factors (Analyzer.visibility a))).
Proof.
  intros result brandNames competitorNames a. unfold Analyzer.execute.
  destruct (Analyzer.analyzeBrandMentions result brandNames)
    as [brands|] eqn:Hb; [|discriminate]. simpl.
  destruct (Analyzer.analyzeCompetitorMentions result _)
    as [competitors|] eqn:Hc; [|discriminate]. simpl.
  intros [= <-].
  cbn [Analyzer.visibility Analyzer.brandMentions Analyzer.competitorMentions].
  apply analyzeBrandMentionsIn_counts in Hb.
  apply analyzeCompetitorMentionsIn_counts in Hc.
  pose proof (totalMentions_nonneg Analyzer.competitorCount competitors) as Hcn.
  destruct brands as [|m brands].
  - assert (Hscore : Analyzer.visibilityScore
             (Analyzer.calculateVisibilityScore [] competitors
                (Analyzer.analyzeSentiment []) (Analyzer.analyzePosition []))
           = if bool_decide (competitors = []) then 35 else 25).
    { destruct competitors as [|c competitors]; [reflexivity|].
      assert (Hc1 : 1 <= Analyzer.totalMentions Analyzer.competitorCount
                           (c :: competitors)).
      { rewrite totalMentions_cons.
        pose proof (totalMentions_nonneg Analyzer.competitorCount competitors).
        inversion Hc; subst. lia. }
      unfold Analyzer.calculateVisibilityScore.
      set (total := Analyzer.totalMentions Analyzer.competitorCount
                      (c :: competitors)) in *.
      change (Analyzer.totalMentions Analyzer.count []) with 0.
      replace (total <? 0) with false by (symmetry; apply Z.ltb_ge; lia).
      replace (0 =? total) with false by (symmetry; apply Z.eqb_neq; lia).
      reflexivity. }
    rewrite Hscore. repeat split.
    + case_bool_decide; lia.
    + case_bool_decide; lia.
    + now case_bool_decide.
    + congruence.
  - assert (Hone : 1 <= Analyzer.totalMentions Analyzer.count (m :: brands)).
    { rewrite totalMentions_cons.
      pose proof (totalMentions_nonneg Analyzer.count brands).
      inversion Hb as [|? ? [Hpos _] _]; subst. lia. }
    unfold Analyzer.calculateVisibilityScore.
    cbn [Analyzer.visibilityScore Analyzer.factors Analyzer.mentionCount].
    set (total := Analyzer.totalMentions Analyzer.count (m :: brands)) in *.
    assert (Hmin : Z.min (total * 5) 25 = total * 5
                   \/ Z.min (total * 5) 25 = 25) by lia.
    assert (Hmod : Z.min (total * 5) 25 mod 5 = 0).
    { destruct Hmin as [-> | ->]; [apply Z_mod_mult|reflexivity]. }
    assert (Hlow : 5 <= Z.min (total * 5) 25 <= 25) by lia.
    clearbody total. generalize dependent (Z.min (total * 5) 25).
    intros mc _ Hmod Hlow.
    repeat split; try congruence; try (repeat case_match; lia).
    repeat case_match;
      rewrite <- !Z.add_assoc, <- Z.add_mod_idemp_l, Hmod by lia;
      reflexivity.
Qed.

Lemma analysis_score_range_witness :
  exists a,
    Analyzer.execute
      {| Analyzer.response := Some "Globex leads the market."%string |}
      ["Acme"%string] (Some ["Globex"%string]) = Some a
    /\ Analyzer.visibilityScore (Analyzer.visibility a) = 25.
Proof.
  eexists. split; [vm_compute; reflexivity|].
  match goal with
  | |- Analyzer.visibilityScore (Analyzer.visibility ?a) = _ =>
      destruct (analysis_score_range
        {| Analyzer.response := Some "Globex leads the market."%string |}
        ["Acme"%string] (Some ["Globex"%string]) a)
        as (_ & _ & Hnone & _); [vm_compute; reflexivity|]
  end.
  exact (Hnone eq_refl).
Defined.

Section SentimentFacts.

Import Analyzer.
Local Open Scope Q_scope.

Lemma ofNat_pos n : (0 < n)%nat -> 0 < ofNat n.
Proof.
  intros Hn. unfold ofNat. change 0 with (inject_Z 0).
  rewrite <- Zlt_Qlt. lia.
Qed.

Lemma ofNat_nonneg n : 0 <= ofNat n.
Proof.
  unfold ofNat. change 0 with (inject_Z 0). rewrite <- Zle_Qle. lia.
Qed.

Lemma ofNat_plus a b : ofNat (a + b) = ofNat a + ofNat b.
Proof. unfold ofNat. now rewrite Nat2Z.inj_add, inject_Z_plus. Qed.

End SentimentFacts.

(** ** Division of counts *)

Section DivisionFacts.

Import JsNumber.
Local Open Scope Z_scope.

Lemma roundHalfEven_le N D K :
  0 < D -> N <= K * D -> roundHalfEven N D <= K.
Proof.
  intros HD HN. unfold roundHalfEven.
  pose proof (Z.div_mod N D ltac:(lia)) as Heq.
  pose proof (Z.mod_pos_bound N D HD) as Hr.
  assert (Hq : N / D <= K) by nia.
  destruct (2 * (N mod D) <? D) eqn:H1; [exact Hq|].
  apply Z.ltb_ge in H1.
  assert (N / D < K) by nia.
  destruct (D <? 2 * (N mod D)); [lia|]. destruct (Z.even _); lia.
Qed.

Lemma roundHalfEven_ge N D K :
  0 < D -> K * D <= N -> K <= roundHalfEven N D.
Proof.
  intros HD HN. unfold roundHalfEven.
  pose proof (Z.div_mod N D ltac:(lia)) as Heq.
  pose proof (Z.mod_pos_bound N D HD) as Hr.
  assert (Hq : K <= N / D) by nia.
  destruct (2 * (N mod D) <? D); [exact Hq|].
  destruct (D <? 2 * (N mod D)); [lia|]. destruct (Z.even _); lia.
Qed.

(** Below the midpoint between [K] and [K + 1] the rounding gives at
    most [K]; above it, at least [K + 1]. *)
Lemma roundHalfEven_below N D K :
  0 < D -> 2 * N < (2 * K + 1) * D -> roundHalfEven N D <= K.
Proof.
  intros HD HN. unfold roundHalfEven.
  pose proof (Z.div_mod N D ltac:(lia)) as Heq.
  pose proof (Z.mod_pos_bound N D HD) as Hr.
  assert (Hq : N / D <= K) by nia.
  destruct (2 * (N mod D) <? D) eqn:H1; [exact Hq|].
  apply Z.ltb_ge in H1.
  assert (N / D < K) by nia.
  destruct (D <? 2 * (N mod D)); [lia|]. destruct (Z.even _); lia.
Qed.

Lemma roundHalfEven_above N D K :
  0 < D -> (2 * K + 1) * D < 2 * N -> K + 1 <= roundHalfEven N D.
Proof.
  intros HD HN. unfold roundHalfEven.
  pose proof (Z.div_mod N D ltac:(lia)) as Heq.
  pose proof (Z.mod_pos_bound N D HD) as Hr.
  assert (Hq : K <= N / D) by nia.
  destruct (Z.eq_dec (N / D) K) as [Hk|Hk].
  - rewrite Hk in *.
    destruct (2 * (N mod D) <? D) eqn:H1.
    + apply Z.ltb_lt in H1. lia.
    + destruct (D <? 2 * (N mod D)) eqn:H2; [lia|].
      apply Z.ltb_ge in H1, H2. lia.
  - destruct (2 * (N mod D) <? D); [lia|].
    destruct (D <? 2 * (N mod D)); [lia|]. destruct (Z.even _); lia.
Qed.

(** The exponent of a quotient that is at most 1. *)
Lemma exponent_small n d :
  0 < n <= d ->
  exists j, 0 <= j /\ exponent n d = - j /\ d <= n * 2 ^ j < 2 * d.
Proof.
  intros [Hn Hd]. unfold exponent.
  pose proof (Z.log2_spec n Hn) as [Ha1 Ha2].
  pose proof (Z.log2_spec d ltac:(lia)) as [Hb1 Hb2].
  pose proof (Z.log2_le_mono n d Hd) as Hab.
  pose proof (Z.log2_nonneg n) as Ha0.
  set (a := Z.log2 n) in *. set (b := Z.log2 d) in *.
  assert (Hpow : 2 ^ b = 2 ^ a * 2 ^ (b - a)).
  { rewrite <- Z.pow_add_r by lia. f_equal. lia. }
  assert (Hpos : 0 < 2 ^ (b - a)) by (apply Z.pow_pos_nonneg; lia).
  assert (Hpa : 0 < 2 ^ a) by (apply Z.pow_pos_nonneg; lia).
  rewrite Z.pow_succ_r in Ha2, Hb2 by lia.
  replace (Z.max 0 (a - b)) with 0 by lia.
  replace (Z.max 0 (- (a - b))) with (b - a) by lia.
  rewrite Z.pow_0_r, Z.mul_1_r.
  destruct (d <=? n * 2 ^ (b - a)) eqn:Htest.
  - apply Z.leb_le in Htest. exists (b - a).
    split; [lia|]. split; [f_equal; lia|]. split; [exact Htest|]. nia.
  - apply Z.leb_gt in Htest. exists (b - a + 1).
    split; [lia|]. split; [lia|].
    rewrite Z.pow_add_r, Z.pow_1_r by lia. nia.
Qed.

Lemma quotient_small n d :
  0 < n <= d ->
  exists j m,
    0 <= j
    /\ quotient n d = Qmake m (Z.to_pos (2 ^ (52 + j)))
    /\ m = roundHalfEven (n * 2 ^ (52 + j)) d
    /\ 2 ^ 52 <= m <= 2 ^ (52 + j)
    /\ d <= n * 2 ^ j < 2 * d.
Proof.
  intros Hnd. destruct (exponent_small n d Hnd) as (j & Hj & He & Hlow & Hup).
  exists j, (roundHalfEven (n * 2 ^ (52 + j)) d).
  assert (Hpow : 2 ^ (52 + j) = 2 ^ 52 * 2 ^ j)
    by (rewrite Z.pow_add_r by lia; reflexivity).
  assert (Hpj : 0 < 2 ^ j) by (apply Z.pow_pos_nonneg; lia).
  repeat apply conj.
  - exact Hj.
  - unfold quotient. replace (n =? 0) with false
      by (symmetry; apply Z.eqb_neq; lia).
    rewrite He. cbv zeta.
    replace (Z.max 0 (- (- j - 52))) with (52 + j) by lia.
    replace (Z.max 0 (- j - 52)) with 0 by lia.
    rewrite Z.pow_0_r, Z.mul_1_r. unfold scale.
    replace (0 <=? - j - 52) with false by (symmetry; apply Z.leb_gt; lia).
    replace (- (- j - 52)) with (52 + j) by lia. reflexivity.
  - reflexivity.
  - apply roundHalfEven_ge; [lia|]. rewrite Hpow. nia.
  - apply roundHalfEven_le; [lia|]. nia.
  - exact Hlow.
  - exact Hup.
Qed.

Lemma quotient_range n d :
  0 <= n <= d -> 0 < d -> (0 <= quotient n d <= 1)%Q.
Proof.
  intros [Hn Hd] Hpos.
  destruct (Z.eq_dec n 0) as [->|Hne]; [split; discriminate|].
  destruct (quotient_small n d ltac:(lia)) as (j & m & Hj & -> & _ & [Hm1 Hm2] & _).
  assert (Hp : 0 < 2 ^ (52 + j)) by (apply Z.pow_pos_nonneg; lia).
  unfold Qle. cbn [Qnum Qden]. rewrite Z2Pos.id by exact Hp. split; lia.
Qed.

Lemma quotient_positive n d : 0 < n <= d -> (0 < quotient n d)%Q.
Proof.
  intros Hnd.
  destruct (quotient_small n d Hnd) as (j & m & Hj & -> & _ & [Hm1 Hm2] & _).
  unfold Qlt. simpl. lia.
Qed.

Lemma quotient_3_10 :
  quotient 3 10 = Qmake 5404319552844595 18014398509481984.
Proof. vm_compute. reflexivity. Qed.

(** A quotient of counts exceeds the double [0.3] exactly when the
    exact quotient exceeds 3/10. *)
Lemma quotient_threshold n d :
  0 <= n <= d -> 0 < d < 2 ^ 52 ->
  (quotient 3 10 < quotient n d)%Q <-> 3 * d < 10 * n.
Proof.
  intros [Hn Hd] Hbound. rewrite quotient_3_10.
  destruct (Z.eq_dec n 0) as [->|Hne].
  { split; [intros H; discriminate H|lia]. }
  destruct (quotient_small n d ltac:(lia))
    as (j & m & Hj & -> & Hm & [Hm1 Hm2] & Hlow & Hup).
  assert (Hp : 0 < 2 ^ (52 + j)) by (apply Z.pow_pos_nonneg; lia).
  unfold Qlt. cbn [Qnum Qden]. rewrite Z2Pos.id by exact Hp.
  change (Z.pos 18014398509481984) with (2 ^ 54).
  change (2 ^ 52) with 4503599627370496 in *.
  assert (j <= 1 \/ j = 2 \/ 3 <= j) as [Hj1|[->|Hj3]] by lia.
  - assert (j = 0 \/ j = 1) as [->| ->] by lia.
    + change (2 ^ (52 + 0)) with 4503599627370496 in *.
      change (2 ^ 54) with 18014398509481984. change (2 ^ 0) with 1 in *.
      lia.
    + change (2 ^ (52 + 1)) with 9007199254740992 in *.
      change (2 ^ 54) with 18014398509481984. change (2 ^ 1) with 2 in *.
      lia.
  - change (52 + 2) with 54 in *. change (2 ^ 2) with 4 in *.
    change (2 ^ 54) with 18014398509481984 in *.
    split.
    + intros Hlt.
      destruct (Z_lt_le_dec (3 * d) (10 * n)) as [|Hle]; [assumption|].
      exfalso.
      pose proof (roundHalfEven_below (n * 18014398509481984) d
                    5404319552844595 ltac:(lia) ltac:(lia)) as Hb.
      lia.
    + intros Hgt.
      pose proof (roundHalfEven_above (n * 18014398509481984) d
                    5404319552844595 ltac:(lia) ltac:(lia)) as Ha.
      lia.
  - replace (52 + j) with (55 + (j - 3)) by lia.
    rewrite Z.pow_add_r by lia.
    assert (Hq : 1 <= 2 ^ (j - 3)) by (apply Z.lt_pred_le, Z.pow_pos_nonneg; lia).
    replace (2 ^ j) with (8 * 2 ^ (j - 3)) in *
      by (replace j with (3 + (j - 3)) at 2 by lia;
          rewrite Z.pow_add_r by lia; reflexivity).
    replace (2 ^ (52 + j)) with (2 ^ 55 * 2 ^ (j - 3)) in Hm2
      by (rewrite <- Z.pow_add_r by lia; f_equal; lia).
    change (2 ^ 55) with 36028797018963968 in *.
    change (2 ^ 54) with 18014398509481984.
    assert (Hm3 : m <= 9007199254740992).
    { rewrite Hm. apply roundHalfEven_le; [lia|].
      replace (52 + j) with (52 + (3 + (j - 3))) by lia.
      rewrite !Z.pow_add_r by lia.
      change (2 ^ 52) with 4503599627370496. change (2 ^ 3) with 8. nia. }
    split; [nia|]. intros Hgt. nia.
Qed.

Lemma divide_range n d :
  - d <= n <= d -> 0 < d -> (- (1) <= divide n d <= 1)%Q.
Proof.
  intros [Hlow Hup] Hd. unfold divide.
  destruct (n <? 0) eqn:Hsign.
  - apply Z.ltb_lt in Hsign.
    destruct (quotient_range (- n) d ltac:(lia) Hd) as [H0 H1].
    split.
    + apply Qopp_le_compat in H1. exact H1.
    + apply Qopp_le_compat in H0.
      eapply Qle_trans; [exact H0|]. discriminate.
  - apply Z.ltb_ge in Hsign.
    destruct (quotient_range n d ltac:(lia) Hd) as [H0 H1].
    split; [|exact H1]. eapply Qle_trans; [|exact H0]. discriminate.
Qed.

Lemma divide_share n d :
  0 <= n <= d -> 0 < d -> (0 <= divide n d <= 1)%Q.
Proof.
  intros Hn Hd. unfold divide.
  replace (n <? 0) with false by (symmetry; apply Z.ltb_ge; lia).
  now apply quotient_range.
Qed.

(** The quotient has the sign of the numerator. *)
Lemma divide_sign n d :
  - d <= n <= d -> 0 < d ->
  ((0 < divide n d)%Q <-> 0 < n) /\ ((divide n d < 0)%Q <-> n < 0).
Proof.
  intros [Hlow Hup] Hd. unfold divide.
  destruct (n <? 0) eqn:Hsign.
  - apply Z.ltb_lt in Hsign.
    pose proof (quotient_positive (- n) d ltac:(lia)) as Hq.
    apply Qopp_lt_compat in Hq. change (- 0)%Q with 0%Q in Hq.
    split; split; try lia; try (intros _; exact Hq).
    intros Hpos. exfalso. apply (Qlt_irrefl 0).
    eapply Qlt_trans; eassumption.
  - apply Z.ltb_ge in Hsign.
    destruct (quotient_range n d ltac:(lia) Hd) as [H0 _].
    split; split; try lia.
    + intros Hpos. destruct (Z.eq_dec n 0) as [->|]; [|lia].
      discriminate Hpos.
    + intros Hpos. now apply quotient_positive.
    + intros Hneg. exfalso. now apply Qle_not_lt in H0.
Qed.

(** Against the double [0.3], a quotient of counts compares as the
    exact quotient compares against 3/10. *)
Lemma divide_threshold n d :
  - d <= n <= d -> 0 < d < 2 ^ 52 ->
  ((divide 3 10 < divide n d)%Q <-> 3 * d < 10 * n)
  /\ ((divide n d < - divide 3 10)%Q <-> 10 * n < - (3 * d)).
Proof.
  intros [Hlow Hup] Hd.
  change (divide 3 10) with (quotient 3 10).
  assert (Hlit : (0 < quotient 3 10)%Q) by (rewrite quotient_3_10; reflexivity).
  unfold divide. destruct (n <? 0) eqn:Hsign.
  - apply Z.ltb_lt in Hsign.
    destruct (quotient_range (- n) d ltac:(lia) ltac:(lia)) as [H0 _].
    split.
    + split; [|lia]. intros Hlt. exfalso.
      apply Qopp_le_compat in H0. change (- 0)%Q with 0%Q in H0.
      apply (Qlt_irrefl 0).
      eapply Qlt_le_trans; [|exact H0].
      eapply Qlt_trans; eassumption.
    + pose proof (quotient_threshold (- n) d ltac:(lia) Hd) as [Hq1 Hq2].
      split; intros Hlt.
      * apply Qopp_lt_compat in Hlt. rewrite !Qopp_involutive in Hlt.
        specialize (Hq1 Hlt). lia.
      * apply Qopp_lt_compat. apply Hq2. lia.
  - apply Z.ltb_ge in Hsign.
    destruct (quotient_range n d ltac:(lia) ltac:(lia)) as [H0 _].
    split.
    + apply quotient_threshold; lia.
    + split; [|lia]. intros Hlt. exfalso.
      apply Qopp_lt_compat in Hlit. change (- 0)%Q with 0%Q in Hlit.
      apply (Qlt_irrefl 0).
      eapply Qle_lt_trans; [exact H0|].
      eapply Qlt_trans; eassumption.
Qed.

End DivisionFacts.

(** X17.  The overall sentiment of any list of mentions, the score and
    the shares being the doubles the divisions give.  With no mention
    counted it is neutral with score 0 and an all-zero breakdown.
    Otherwise the score lies between -1 and 1 and has the sign of the
    positive count minus the negative count, each share of the
    breakdown lies between 0 and 1, the label is positive exactly when
    the score exceeds the double 0.3 and negative exactly when it is
    below -0.3; and with fewer than 2^52 mentions counted that is
    exactly when the positive count minus the negative count is more
    than 3/10 of the total, respectively less than -3/10 of it. *)
Theorem sentiment_score_is_normalised :
  forall (mentions : list Analyzer.BrandMention),
    let pos := Z.of_nat (Analyzer.countOf Analyzer.positive mentions) in
    let neu := Z.of_nat (Analyzer.countOf Analyzer.neutral mentions) in
    let neg := Z.of_nat (Analyzer.countOf Analyzer.negative mentions) in
    let total := pos + neu + neg in
    let a := Analyzer.analyzeSentiment mentions in
    let '(sharePos, shareNeu, shareNeg) := Analyzer.breakdown a in
    (total = 0 ->
     a = {| Analyzer.overall := Analyzer.neutral; Analyzer.score := 0;
            Analyzer.breakdown := (0, 0, 0)%Q |})
    /\ (0 < total ->
        (- (1) <= Analyzer.score a <= 1)%Q
        /\ ((0 < Analyzer.score a)%Q <-> neg < pos)
        /\ ((Analyzer.score a < 0)%Q <-> pos < neg)
        /\ (0 <= sharePos <= 1)%Q /\ (0 <= shareNeu <= 1)%Q
        /\ (0 <= shareNeg <= 1)%Q
        /\ (Analyzer.overall a = Analyzer.positive
            <-> (Analyzer.literal_0_3 < Analyzer.score a)%Q)
        /\ (Analyzer.overall a = Analyzer.negative
            <-> (Analyzer.score a < - Analyzer.literal_0_3)%Q)
        /\ (total < 2 ^ 52 ->
            (Analyzer.overall a = Analyzer.positive
             <-> 3 * total < 10 * (pos - neg))
            /\ (Analyzer.overall a = Analyzer.negative
                <-> 10 * (pos - neg) < - (3 * total)))).
Proof.
  intros mentions pos neu neg total. unfold Analyzer.analyzeSentiment.
  set (p := Analyzer.countOf Analyzer.positive mentions) in *.
  set (u := Analyzer.countOf Analyzer.neutral mentions) in *.
  set (n := Analyzer.countOf Analyzer.negative mentions) in *.
  destruct (p + u + n =? 0)%nat eqn:Htotal.
  - apply Nat.eqb_eq in Htotal. simpl. split; [reflexivity|].
    unfold total, pos, neu, neg. lia.
  - apply Nat.eqb_neq in Htotal. cbn [Analyzer.breakdown].
    split; [unfold total, pos, neu, neg; lia|]. intros Hpos.
    cbn [Analyzer.score Analyzer.overall].
    replace (Z.of_nat (p + u + n)) with total
      by (unfold total, pos, neu, neg; lia).
    fold pos neu neg.
    assert (Hp : 0 <= pos) by (unfold pos; lia).
    assert (Hu : 0 <= neu) by (unfold neu; lia).
    assert (Hn : 0 <= neg) by (unfold neg; lia).
    assert (Htot : total = pos + neu + neg) by reflexivity.
    clearbody total pos neu neg.
    destruct (divide_sign (pos - neg) total ltac:(lia) Hpos) as [Hs1 Hs2].
    assert (Hlabel :
      ((if Qlt_le_dec Analyzer.literal_0_3
             (JsNumber.divide (pos - neg) total)
        then Analyzer.positive
        else if Qlt_le_dec (JsNumber.divide (pos - neg) total)
                  (- Analyzer.literal_0_3)
             then Analyzer.negative else Analyzer.neutral)
       = Analyzer.positive
       <-> (Analyzer.literal_0_3 < JsNumber.divide (pos - neg) total)%Q)
      /\ ((if Qlt_le_dec Analyzer.literal_0_3
                 (JsNumber.divide (pos - neg) total)
            then Analyzer.positive
            else if Qlt_le_dec (JsNumber.divide (pos - neg) total)
                      (- Analyzer.literal_0_3)
                 then Analyzer.negative else Analyzer.neutral)
           = Analyzer.negative
           <-> (JsNumber.divide (pos - neg) total
                < - Analyzer.literal_0_3)%Q)).
    { assert (Hlit : (- Analyzer.literal_0_3 < Analyzer.literal_0_3)%Q)
        by (vm_compute; reflexivity).
      split; split.
      - destruct (Qlt_le_dec _ _) as [Hlt|Hle]; [intros _; exact Hlt|].
        destruct (Qlt_le_dec _ _); discriminate.
      - intros Hlt. destruct (Qlt_le_dec _ _) as [|Hle]; [reflexivity|].
        now apply Qle_not_lt in Hle.
      - destruct (Qlt_le_dec _ _) as [Hlt|Hle]; [discriminate|].
        destruct (Qlt_le_dec _ _) as [H|H]; [intros _; exact H|discriminate].
      - intros Hneg. destruct (Qlt_le_dec _ _) as [Hlt|Hle].
        + exfalso. apply (Qlt_irrefl Analyzer.literal_0_3).
          eapply Qlt_trans; [exact Hlt|].
          eapply Qlt_trans; [exact Hneg|exact Hlit].
        + destruct (Qlt_le_dec _ _) as [|Hle']; [reflexivity|].
          now apply Qle_not_lt in Hle'. }
    destruct Hlabel as [Hlp Hln].
    split_and!.
    + apply divide_range; lia.
    + apply divide_range; lia.
    + rewrite Hs1. lia.
    + rewrite Hs2. lia.
    + apply divide_share; lia.
    + apply divide_share; lia.
    + apply divide_share; lia.
    + apply divide_share; lia.
    + apply divide_share; lia.
    + apply divide_share; lia.
    + exact Hlp.
    + exact Hln.
    + intros Hbound.
      destruct (divide_threshold (pos - neg) total ltac:(lia) ltac:(lia))
        as [Ht1 Ht2].
      unfold Analyzer.literal_0_3 in *.
      split; [now rewrite Hlp, Ht1|now rewrite Hln, Ht2].
Qed.

Lemma sentiment_score_is_normalised_witness :
  (- (1) <= Analyzer.score (Analyzer.analyzeSentiment
     [{| Analyzer.brand := "Acme"; Analyzer.count := 2;
         Analyzer.positions := [0%nat; 9%nat];
         Analyzer.contexts := ["Acme is great"%string; "great Acme"%string];
         Analyzer.sentiment := Analyzer.positive;
         Analyzer.strength := 55 |}]) <= 1)%Q.
Proof.
  pose proof (sentiment_score_is_normalised
     [{| Analyzer.brand := "Acme"; Analyzer.count := 2;
         Analyzer.positions := [0%nat; 9%nat];
         Analyzer.contexts := ["Acme is great"%string; "great Acme"%string];
         Analyzer.sentiment := Analyzer.positive;
         Analyzer.strength := 55 |}]) as H.
  cbv zeta in H.
  destruct (Analyzer.breakdown _) as [[sharePos shareNeu] shareNeg].
  destruct H as [_ H]. apply H. vm_compute. reflexivity.
Defined.

(** The shares are rounded one by one: with 7 positive, 2 neutral and 1
    negative mention the three shares do not add up to 1, and with 4, 5
    and 1 the score is the double 0.3, which the label takes for not
    above 0.3 and which is not the difference of the positive and the
    negative share. *)
Lemma shares_are_rounded :
  let mention label count :=
    {| Analyzer.brand := "Acme"; Analyzer.count := count;
       Analyzer.positions := []; Analyzer.contexts := [];
       Analyzer.sentiment := label; Analyzer.strength := 50 |} in
  let a :=
    Analyzer.analyzeSentiment
      [mention Analyzer.positive 7%nat; mention Analyzer.neutral 2%nat;
       mention Analyzer.negative 1%nat] in
  let b :=
    Analyzer.analyzeSentiment
      [mention Analyzer.positive 4%nat; mention Analyzer.neutral 5%nat;
       mention Analyzer.negative 1%nat] in
  let '(sharePos, shareNeu, shareNeg) := Analyzer.breakdown a in
  let '(sharePos', _, shareNeg') := Analyzer.breakdown b in
  ~ (sharePos + shareNeu + shareNeg == 1)%Q
  /\ (Analyzer.score b == 5404319552844595 # 18014398509481984)%Q
  /\ Analyzer.overall b = Analyzer.neutral
  /\ ~ (Analyzer.score b == sharePos' - shareNeg')%Q.
Proof.
  vm_compute. split_and!; try reflexivity; intros H; discriminate H.
Qed.

Section PositionFacts.

Import Analyzer.

Lemma foldl_min_le x l y : y ∈ x :: l -> (foldl Nat.min x l <= y)%nat.
Proof.
  revert x y. induction l as [|z l IH]; intros x y Hy; simpl.
  - apply list_elem_of_singleton in Hy as ->. lia.
  - pose proof (IH (Nat.min x z) (Nat.min x z) ltac:(now left)) as Hinit.
    apply elem_of_cons in Hy as [->|Hy]; [lia|].
    apply elem_of_cons in Hy as [->|Hy]; [lia|].
    apply IH. now right.
Qed.

Lemma foldl_min_elem x l : foldl Nat.min x l ∈ x :: l.
Proof.
  revert x. induction l as [|z l IH]; intros x; simpl; [now left|].
  specialize (IH (Nat.min x z)). apply elem_of_cons in IH as [->|IH].
  - destruct (Nat.min_spec x z) as [[_ ->]|[_ ->]];
      [now left|right; now left].
  - right. now right.
Qed.

Lemma foldl_max_ge x l y : y ∈ x :: l -> (y <= foldl Nat.max x l)%nat.
Proof.
  revert x y. induction l as [|z l IH]; intros x y Hy; simpl.
  - apply list_elem_of_singleton in Hy as ->. lia.
  - pose proof (IH (Nat.max x z) (Nat.max x z) ltac:(now left)) as Hinit.
    apply elem_of_cons in Hy as [->|Hy]; [lia|].
    apply elem_of_cons in Hy as [->|Hy]; [lia|].
    apply IH. now right.
Qed.

Lemma foldl_max_elem x l : foldl Nat.max x l ∈ x :: l.
Proof.
  revert x. induction l as [|z l IH]; intros x; simpl; [now left|].
  specialize (IH (Nat.max x z)). apply elem_of_cons in IH as [->|IH].
  - destruct (Nat.max_spec x z) as [[_ ->]|[_ ->]];
      [right; now left|now left].
  - right. now right.
Qed.

Lemma foldl_add_bounds lo hi l acc :
  (forall x, x ∈ l -> (lo <= x <= hi)%nat) ->
  (acc + length l * lo <= foldl Nat.add acc l <= acc + length l * hi)%nat.
Proof.
  revert acc. induction l as [|x l IH]; intros acc Hall; simpl; [lia|].
  specialize (IH (acc + x)%nat ltac:(intros y Hy; apply Hall; now right)).
  pose proof (Hall x ltac:(now left)). lia.
Qed.

(** The condition under which [analyzePosition] answers the sentinel. *)
Lemma no_position_iff (mentions : list BrandMention) :
  bool_decide (mentions = [])
  || forallb (fun m => (length (positions m) =? 0)%nat) mentions = true
  <-> concat (map positions mentions) = [].
Proof.
  induction mentions as [|m rest IH]; [easy|].
  simpl. destruct (positions m) as [|i is_] eqn:Hp; simpl.
  - rewrite <- IH. destruct rest; simpl; [easy|]. easy.
  - easy.
Qed.

Lemma bucket_thresholds (average : Q) :
  (bucket average = beginning <-> (average < 1000)%Q)
  /\ (bucket average = early <-> (1000 <= average /\ average < 2000)%Q)
  /\ (bucket average = middle <-> (2000 <= average /\ average < 3000)%Q)
  /\ (bucket average = late <-> (3000 <= average /\ average < 4000)%Q)
  /\ (bucket average = theEnd <-> (4000 <= average)%Q).
Proof.
  assert (Hscale : (average / 5000 * 5000 == average)%Q)
    by (rewrite Qmult_comm; now apply Qmult_div_r).
  assert (Hlt : forall c k : Q, (k == c * 5000)%Q ->
            ((average / 5000 < c)%Q <-> (average < k)%Q)).
  { intros c k Hk. split; intros H.
    - apply (Qmult_lt_r _ _ 5000) in H; [|reflexivity].
      rewrite Hscale in H. now rewrite Hk.
    - apply (Qmult_lt_r _ _ 5000); [reflexivity|].
      rewrite Hscale. now rewrite <- Hk. }
  assert (Hle : forall c k : Q, (k == c * 5000)%Q ->
            ((c <= average / 5000)%Q <-> (k <= average)%Q)).
  { intros c k Hk. split; intros H.
    - apply (Qmult_le_r _ _ 5000) in H; [|reflexivity].
      rewrite Hscale in H. now rewrite Hk.
    - apply (Qmult_le_r _ _ 5000); [reflexivity|].
      rewrite Hscale. now rewrite <- Hk. }
  pose proof (Hlt (2 # 10)%Q 1000%Q ltac:(reflexivity)) as L1.
  pose proof (Hlt (4 # 10)%Q 2000%Q ltac:(reflexivity)) as L2.
  pose proof (Hlt (6 # 10)%Q 3000%Q ltac:(reflexivity)) as L3.
  pose proof (Hlt (8 # 10)%Q 4000%Q ltac:(reflexivity)) as L4.
  pose proof (Hle (2 # 10)%Q 1000%Q ltac:(reflexivity)) as G1.
  pose proof (Hle (4 # 10)%Q 2000%Q ltac:(reflexivity)) as G2.
  pose proof (Hle (6 # 10)%Q 3000%Q ltac:(reflexivity)) as G3.
  pose proof (Hle (8 # 10)%Q 4000%Q ltac:(reflexivity)) as G4.
  unfold bucket.
  destruct (Qlt_le_dec (average / 5000) (2 # 10))%Q as [H1|H1].
  { apply L1 in H1.
    assert (~ (1000 <= average)%Q) by now apply Qlt_not_le.
    assert (~ (2000 <= average)%Q)
      by (intros Hc; apply (Qlt_not_le _ _ H1);
          eapply Qle_trans; [|exact Hc]; discriminate).
    assert (~ (3000 <= average)%Q)
      by (intros Hc; apply (Qlt_not_le _ _ H1);
          eapply Qle_trans; [|exact Hc]; discriminate).
    assert (~ (4000 <= average)%Q)
      by (intros Hc; apply (Qlt_not_le _ _ H1);
          eapply Qle_trans; [|exact Hc]; discriminate).
    split_and!; split; try easy; tauto. }
  apply G1 in H1.
  assert (N1 : ~ (average < 1000)%Q) by now apply Qle_not_lt.
  destruct (Qlt_le_dec (average / 5000) (4 # 10)) as [H2|H2].
  { apply L2 in H2.
    assert (~ (2000 <= average)%Q) by now apply Qlt_not_le.
    assert (~ (3000 <= average)%Q)
      by (intros Hc; apply (Qlt_not_le _ _ H2);
          eapply Qle_trans; [|exact Hc]; discriminate).
    assert (~ (4000 <= average)%Q)
      by (intros Hc; apply (Qlt_not_le _ _ H2);
          eapply Qle_trans; [|exact Hc]; discriminate).
    split_and!; split; try easy; tauto. }
  apply G2 in H2.
  assert (N2 : ~ (average < 2000)%Q) by now apply Qle_not_lt.
  destruct (Qlt_le_dec (average / 5000) (6 # 10)) as [H3|H3].
  { apply L3 in H3.
    assert (~ (3000 <= average)%Q) by now apply Qlt_not_le.
    assert (~ (4000 <= average)%Q)
      by (intros Hc; apply (Qlt_not_le _ _ H3);
          eapply Qle_trans; [|exact Hc]; discriminate).
    split_and!; split; try easy; tauto. }
  apply G3 in H3.
  assert (N3 : ~ (average < 3000)%Q) by now apply Qle_not_lt.
  destruct (Qlt_le_dec (average / 5000) (8 # 10)) as [H4|H4].
  { apply L4 in H4.
    assert (~ (4000 <= average)%Q) by now apply Qlt_not_le.
    split_and!; split; try easy; tauto. }
  apply G4 in H4.
  assert (N4 : ~ (average < 4000)%Q) by now apply Qle_not_lt.
  split_and!; split; try easy; tauto.
Qed.

End PositionFacts.

(** X18.  The position analysis of any list of mentions.  With no
    position at all it is the sentinel (-1, -1, -1, 'end').  Otherwise
    the first and last mention positions are positions that occur, every
    position lies between them, and so does the average; and the
    relative position is 'beginning' exactly when the average is below
    1000 characters, 'early' from 1000 to below 2000, 'middle' from 2000
    to below 3000, 'late' from 3000 to below 4000 and 'end' from 4000
    on, whatever the length of the text. *)
Theorem position_analysis_is_consistent :
  forall (mentions : list Analyzer.BrandMention),
    let all := concat (map Analyzer.positions mentions) in
    let p := Analyzer.analyzePosition mentions in
    let average := Analyzer.averagePosition p in
    (all = [] ->
     p = {| Analyzer.averagePosition := - 1;
            Analyzer.firstMentionPosition := - 1;
            Analyzer.lastMentionPosition := - 1;
            Analyzer.relativePosition := Analyzer.theEnd |})
    /\ (all <> [] ->
        (exists x, x ∈ all /\ Analyzer.firstMentionPosition p = Z.of_nat x)
        /\ (exists x, x ∈ all /\ Analyzer.lastMentionPosition p = Z.of_nat x)
        /\ (forall x, x ∈ all ->
              Analyzer.firstMentionPosition p <= Z.of_nat x
              <= Analyzer.lastMentionPosition p)
        /\ (inject_Z (Analyzer.firstMentionPosition p) <= average
            <= inject_Z (Analyzer.lastMentionPosition p))%Q
        /\ (Analyzer.relativePosition p = Analyzer.beginning
            <-> (average < 1000)%Q)
        /\ (Analyzer.relativePosition p = Analyzer.early
            <-> (1000 <= average /\ average < 2000)%Q)
        /\ (Analyzer.relativePosition p = Analyzer.middle
            <-> (2000 <= average /\ average < 3000)%Q)
        /\ (Analyzer.relativePosition p = Analyzer.late
            <-> (3000 <= average /\ average < 4000)%Q)
        /\ (Analyzer.relativePosition p = Analyzer.theEnd
            <-> (4000 <= average)%Q)).
Proof.
  intros mentions all p average. unfold average, p, Analyzer.analyzePosition.
  pose proof (no_position_iff mentions) as Hnone. fold all in Hnone.
  destruct (bool_decide (mentions = []) || forallb _ mentions) eqn:Hcond.
  - split; [reflexivity|]. intros Hsome. exfalso. now apply Hsome, Hnone.
  - split; [intros Hall; apply Hnone in Hall; congruence|]. intros _.
    fold all.
    assert (Hperm : merge_sort Nat.le all ≡ₚ all)
      by apply merge_sort_Permutation.
    assert (Hne : all <> []).
    { intros Hall. apply Hnone in Hall. congruence. }
    destruct (merge_sort Nat.le all) as [|x l] eqn:Hsorted.
    { symmetry in Hperm. apply Permutation_nil_r in Hperm. congruence. }
    cbn [Analyzer.firstMentionPosition Analyzer.lastMentionPosition
         Analyzer.averagePosition Analyzer.relativePosition
         Analyzer.minOf Analyzer.maxOf].
    assert (Hmin : forall y, y ∈ all -> (foldl Nat.min x l <= y)%nat).
    { intros y Hy. apply foldl_min_le. now rewrite Hperm. }
    assert (Hmax : forall y, y ∈ all -> (y <= foldl Nat.max x l)%nat).
    { intros y Hy. apply foldl_max_ge. now rewrite Hperm. }
    pose proof (foldl_add_bounds (foldl Nat.min x l) (foldl Nat.max x l)
                  (x :: l) 0%nat) as Hsum.
    destruct Hsum as [Hlo Hhi].
    { intros y Hy. rewrite Hperm in Hy. split; [now apply Hmin|now apply Hmax]. }
    split_and!.
    + exists (foldl Nat.min x l). split; [|reflexivity].
      rewrite <- Hperm. apply foldl_min_elem.
    + exists (foldl Nat.max x l). split; [|reflexivity].
      rewrite <- Hperm. apply foldl_max_elem.
    + intros y Hy. pose proof (Hmin y Hy). pose proof (Hmax y Hy). lia.
    + apply Qle_shift_div_l; [apply ofNat_pos; simpl; lia|].
      unfold Analyzer.ofNat. rewrite <- inject_Z_mult, <- Zle_Qle.
      simpl length in *. nia.
    + apply Qle_shift_div_r; [apply ofNat_pos; simpl; lia|].
      unfold Analyzer.ofNat. rewrite <- inject_Z_mult, <- Zle_Qle.
      simpl length in *. nia.
    + apply bucket_thresholds.
    + apply bucket_thresholds.
    + apply bucket_thresholds.
    + apply bucket_thresholds.
    + apply bucket_thresholds.
Qed.

Lemma position_analysis_is_consistent_witness :
  Analyzer.relativePosition
    (Analyzer.analyzePosition
       [{| Analyzer.brand := "Acme"; Analyzer.count := 2;
           Analyzer.positions := [20%nat; 3%nat];
           Analyzer.contexts := []; Analyzer.sentiment := Analyzer.neutral;
           Analyzer.strength := 50 |}])
  = Analyzer.beginning.
Proof.
  destruct (position_analysis_is_consistent
       [{| Analyzer.brand := "Acme"; Analyzer.count := 2;
           Analyzer.positions := [20%nat; 3%nat];
           Analyzer.contexts := []; Analyzer.sentiment := Analyzer.neutral;
           Analyzer.strength := 50 |}]) as [_ H].
  destruct H as (_ & _ & _ & _ & Hbeginning & _);
    [cbn [concat map Analyzer.positions app]; intros Hn; inversion Hn|].
  apply Hbeginning. vm_compute. reflexivity.
Defined.

(** X19.  The advice for a text that mentions no brand of the client.
    The analysis always carries the two reposition recommendations
    (the sentinel position counts as 'end') and ends with 'Critical: No
    brand mentions detected' and the urgent-campaign advice; when a
    competitor is mentioned it also opens with the two low-visibility
    recommendations (the score is then 25) and carries the two
    competitive-positioning ones; it never carries the
    negative-sentiment advice.  Conversely an analysis with a brand
    mention never carries the 'Critical' recommendation. *)
Theorem advice_without_brand_mentions :
  forall (result : Analyzer.ScrapeResult) (brandNames : list string)
         (competitorNames : option (list string)) (a : Analyzer.Analysis),
    Analyzer.execute result brandNames competitorNames = Some a ->
    (Analyzer.brandMentions a = [] ->
     Analyzer.recommendations a
     = (if bool_decide (Analyzer.competitorMentions a = []) then []
        else ["Increase brand presence through more comprehensive content";
              "Consider creating dedicated FAQ sections about your brand"
             ]%string)
       ++ ["Optimize content to appear earlier in AI responses";
           "Focus on primary keywords and main value propositions"]%string
       ++ (if bool_decide (Analyzer.competitorMentions a = []) then []
           else ["Strengthen competitive positioning";
                 "Highlight unique differentiators more prominently"
                ]%string)
       ++ ["Critical: No brand mentions detected";
           "Urgent need for brand awareness campaign"]%string)
    /\ (Analyzer.brandMentions a <> [] ->
        "Critical: No brand mentions detected"%string
        ∉ Analyzer.recommendations a).
Proof.
  intros result brandNames competitorNames a. unfold Analyzer.execute.
  destruct (Analyzer.analyzeBrandMentions result brandNames)
    as [brands|] eqn:Hb; [|discriminate]. simpl.
  destruct (Analyzer.analyzeCompetitorMentions result _)
    as [competitors|] eqn:Hc; [|discriminate]. simpl.
  intros [= <-].
  cbn [Analyzer.brandMentions Analyzer.competitorMentions
       Analyzer.recommendations].
  apply analyzeCompetitorMentionsIn_counts in Hc.
  split.
  - intros ->. destruct competitors as [|c competitors]; [reflexivity|].
    assert (Hc1 : 1 <= Analyzer.totalMentions Analyzer.competitorCount
                         (c :: competitors)).
    { rewrite totalMentions_cons.
      pose proof (totalMentions_nonneg Analyzer.competitorCount competitors).
      inversion Hc; subst. lia. }
    unfold Analyzer.generateRecommendations,
      Analyzer.calculateVisibilityScore.
    set (total := Analyzer.totalMentions Analyzer.competitorCount
                    (c :: competitors)) in *.
    change (Analyzer.totalMentions Analyzer.count []) with 0.
    replace (total <? 0) with false by (symmetry; apply Z.ltb_ge; lia).
    replace (0 =? total) with false by (symmetry; apply Z.eqb_neq; lia).
    replace (0 <? total) with true by (symmetry; apply Z.ltb_lt; lia).
    reflexivity.
  - intros Hsome. destruct brands as [|m brands]; [congruence|].
    unfold Analyzer.generateRecommendations.
    rewrite !elem_of_app.
    intros [H|[H|[H|[H|H]]]]; revert H;
      repeat case_match;
      rewrite ?elem_of_cons, ?elem_of_nil; intuition discriminate.
Qed.

Lemma advice_without_brand_mentions_witness :
  exists a,
    Analyzer.execute
      {| Analyzer.response := Some "Globex leads the market."%string |}
      ["Acme"%string] (Some ["Globex"%string]) = Some a
    /\ length (Analyzer.recommendations a) = 8%nat.
Proof.
  eexists. split; [vm_compute; reflexivity|].
  match goal with
  | |- length (Analyzer.recommendations ?a) = _ =>
      destruct (advice_without_brand_mentions
        {| Analyzer.response := Some "Globex leads the market."%string |}
        ["Acme"%string] (Some ["Globex"%string]) a)
        as (Hnone & _); [vm_compute; reflexivity|]
  end.
  rewrite (Hnone eq_refl). reflexivity.
Defined.

(** ** Whole runs of the workflow *)

Section ChunkFacts.

Import Workflow.

Context {A : Type}.

Lemma chunkFrom_concat fuel (array : list A) size :
  (0 < size)%nat -> (length array <= fuel)%nat ->
  concat (chunkFrom fuel array size) = array
  /\ Forall (fun chunk => (0 < length chunk <= size)%nat)
            (chunkFrom fuel array size).
Proof.
  intros Hsize. revert array.
  induction fuel as [|fuel IH]; intros array Hfuel.
  - destruct array; [|simpl in Hfuel; lia]. split; [reflexivity|constructor].
  - destruct array as [|x array]; [split; [reflexivity|constructor]|].
    cbn [chunkFrom].
    destruct (IH (drop size (x :: array))) as [Hconcat Hall].
    { rewrite length_drop. simpl in *. lia. }
    split.
    + cbn [concat]. rewrite Hconcat. apply take_drop.
    + constructor; [|exact Hall].
      rewrite length_take. simpl length. lia.
Qed.

Lemma chunkFrom_one fuel (array : list A) :
  (length array <= fuel)%nat ->
  chunkFrom fuel array 1 = map (fun x => [x]) array.
Proof.
  revert array. induction fuel as [|fuel IH]; intros array Hfuel.
  - destruct array; [reflexivity|simpl in Hfuel; lia].
  - destruct array as [|x array]; [reflexivity|].
    cbn [chunkFrom map]. f_equal. apply IH. simpl in Hfuel. lia.
Qed.

End ChunkFacts.

(** X20.  [chunkArray] with a size of at least 1 cuts the array into
    consecutive chunks: joined in order they give the array back, and
    each chunk holds at least one and at most [size] elements.  With
    size 1 (priority 'low') every client is a batch of its own. *)
Theorem chunkArray_partitions :
  forall (A : Type) (array : list A) (size : nat),
    (0 < size)%nat ->
    concat (Workflow.chunkArray array size) = array
    /\ Forall (fun chunk => (0 < length chunk <= size)%nat)
              (Workflow.chunkArray array size)
    /\ Workflow.chunkArray array 1 = map (fun x => [x]) array.
Proof.
  intros A array size Hsize. unfold Workflow.chunkArray.
  destruct (chunkFrom_concat (length array) array size Hsize (le_n _))
    as [Hconcat Hall].
  split_and!; [exact Hconcat|exact Hall|].
  now apply chunkFrom_one.
Qed.

Lemma chunkArray_partitions_witness :
  concat (Workflow.chunkArray [1; 2; 3; 4; 5; 6; 7] 3) = [1; 2; 3; 4; 5; 6; 7].
Proof.
  refine (proj1 (chunkArray_partitions Z [1; 2; 3; 4; 5; 6; 7] 3 _)). lia.
Defined.

Section RetryBounds.

Import Js Retry.

Context {W T : Type}.
Variable sleep : Z -> W -> W.
Variable fn : W -> W * Result T.
Variable options : RetryOptions W.

(** The operation runs at most once per unit of fuel. *)
Lemma loop_measure (m : W -> nat) :
  (forall w, (m (fst (fn w)) <= m w + 1)%nat) ->
  (forall d w, m (sleep d w) = m w) ->
  (forall f t n w, onRetry options = Some f -> m (f t n w) = m w) ->
  forall fuel attempt lastError w,
    (m (fst (loop sleep fn options fuel attempt lastError w)) <= m w + fuel)%nat.
Proof.
  intros Hfn Hsleep Hcallback.
  induction fuel as [|fuel IH]; intros attempt lastError w; simpl.
  - destruct (_ <? _); simpl; lia.
  - destruct (_ <? _); [simpl; lia|].
    pose proof (Hfn w) as Hw1.
    destruct (fn w) as [w1 [v|t]]; simpl in *; [lia|].
    assert (Hw2 : (m match onRetry options with
                     | Some f => f t attempt w1
                     | None => w1
                     end <= m w + 1)%nat).
    { destruct (onRetry options) as [f|] eqn:Hf; [|lia].
      rewrite (Hcallback f) by reflexivity. lia. }
    assert (Hproceed : (m (fst (
      if (attempt =? attempts options)%Z
      then match messageOf t with
           | Throw t' => (w1, Throw t')
           | Return _ => (w1, Throw t)
           end
      else match messageOf t with
           | Throw t' =>
               (match onRetry options with
                | Some f => f t attempt w1
                | None => w1
                end, Throw t')
           | Return _ =>
               loop sleep fn options fuel (attempt + 1)%Z t
                 (sleep (delayFor options attempt)
                    match onRetry options with
                    | Some f => f t attempt w1
                    | None => w1
                    end)
           end)) <= m w + S fuel)%nat).
    { destruct (_ =? _); destruct (messageOf t); simpl; try lia.
      etrans; [apply IH|]. rewrite Hsleep. lia. }
    destruct (retryCondition options) as [cond|]; [|exact Hproceed].
    destruct (cond t) as [[|]|t']; [exact Hproceed|simpl; lia|simpl; lia].
Qed.

(** What [retry] throws is what the operation or the condition threw,
    once there is at least one attempt. *)
Lemma loop_throws (P : Thrown -> Prop) :
  (forall w t, snd (fn w) = Throw t -> P t) ->
  (forall cond t t', retryCondition options = Some cond ->
     cond t = Throw t' -> P t') ->
  (forall t t', messageOf t = Throw t' -> P t') ->
  forall fuel attempt lastError w t,
    P lastError \/ (attempt <= attempts options /\ (0 < fuel)%nat) ->
    snd (loop sleep fn options fuel attempt lastError w) = Throw t -> P t.
Proof.
  intros Hfn Hcond Hmessage.
  induction fuel as [|fuel IH]; intros attempt lastError w t Hstart; simpl.
  - destruct (_ <? _) eqn:Hexit; simpl; intros [= <-];
      (destruct Hstart as [Hp|[Hle Hfuel]]; [exact Hp|lia]).
  - destruct (_ <? _) eqn:Hexit.
    { simpl. intros [= <-]. apply Z.ltb_lt in Hexit.
      destruct Hstart as [Hp|[Hle Hfuel]]; [exact Hp|lia]. }
    pose proof (Hfn w) as Hthrown.
    destruct (fn w) as [w1 [v|t1]]; simpl in *; [discriminate|].
    specialize (Hthrown t1 eq_refl).
    assert (Hproceed : snd (
      if attempt =? attempts options
      then match messageOf t1 with
           | Throw t' => (w1, Throw t')
           | Return _ => (w1, Throw t1)
           end
      else match messageOf t1 with
           | Throw t' =>
               (match onRetry options with
                | Some f => f t1 attempt w1
                | None => w1
                end, Throw t')
           | Return _ =>
               loop sleep fn options fuel (attempt + 1) t1
                 (sleep (delayFor options attempt)
                    match onRetry options with
                    | Some f => f t1 attempt w1
                    | None => w1
                    end)
           end) = Throw t -> P t).
    { destruct (_ =? _); destruct (messageOf t1) as [msg|t'] eqn:Hm; simpl;
        try (intros [= <-]; first [exact Hthrown|exact (Hmessage t1 _ Hm)]).
      apply IH. now left. }
    destruct (retryCondition options) as [cond|] eqn:Hc; [|exact Hproceed].
    destruct (cond t1) as [[|]|t'] eqn:Hct; simpl.
    + exact Hproceed.
    + now intros [= <-].
    + intros [= <-]. exact (Hcond cond t1 t' eq_refl Hct).
Qed.

End RetryBounds.

Section WorkflowRuns.

Import Js Workflow.

Variable limits : Limits.
Variable agents : Agents.
Variable input : MonitoringInput.

Lemma sameElsewhere_refl client p s : sameElsewhere client p s s.
Proof. split; reflexivity. Qed.

Lemma sameElsewhere_trans client p s1 s2 s3 :
  sameElsewhere client p s1 s2 -> sameElsewhere client p s2 s3 ->
  sameElsewhere client p s1 s3.
Proof.
  intros [Hb1 Hl1] [Hb2 Hl2]. split.
  - intros key Hkey. now rewrite Hb2, Hb1.
  - intros q Hq. now rewrite Hl2, Hl1.
Qed.

Lemma sameElsewhere_setBreaker client p b s :
  sameElsewhere client p s (setBreaker (breakerKey client p) b s).
Proof.
  split; [|reflexivity]. intros key Hkey. simpl.
  now rewrite lookup_insert_ne.
Qed.

Lemma sameElsewhere_setLimiter client p l s :
  sameElsewhere client p s (setLimiter p l s).
Proof.
  split; [reflexivity|]. intros q Hq. simpl. now destruct (decide (q = p)).
Qed.

Lemma errorsGrow_refl P s : errorsGrow P s s.
Proof. exists []. split; [now rewrite app_nil_r|constructor]. Qed.

Lemma errorsGrow_trans P s1 s2 s3 :
  errorsGrow P s1 s2 -> errorsGrow P s2 s3 -> errorsGrow P s1 s3.
Proof.
  intros (a1 & H1 & Hp1) (a2 & H2 & Hp2). exists (a1 ++ a2). split.
  - now rewrite H2, H1, app_assoc.
  - now apply Forall_app.
Qed.

Lemma errorsGrow_same P s1 s2 : errors s2 = errors s1 -> errorsGrow P s1 s2.
Proof. intros H. exists []. split; [now rewrite app_nil_r|constructor]. Qed.

Lemma errorsGrow_push (P : ErrorEntry -> Prop) e s :
  P e -> errorsGrow P s (pushError e s).
Proof. intros He. exists [e]. split; [reflexivity|now constructor]. Qed.

(** ** The scrape and its retries *)

Lemma scrapeOnce_frame client p s :
  let s1 := fst (scrapeOnce agents input client p s) in
  circuitBreakers s1 = circuitBreakers s
  /\ rateLimiters s1 = rateLimiters s
  /\ (length (scrapeLog s) <= length (scrapeLog s1)
      <= length (scrapeLog s) + 1)%nat.
Proof.
  unfold scrapeOnce. destruct (scraper agents) as [a|]; simpl.
  - destruct (a _ _ _ _ _). simpl.
    split_and!; try reflexivity; rewrite ?length_app; simpl; lia.
  - split_and!; try reflexivity; lia.
Qed.

Lemma scrapeOnce_throws client p s t :
  wellBehaved agents ->
  snd (scrapeOnce agents input client p s) = Throw t ->
  exists e, t = ThrownError e.
Proof.
  intros [Hscraper _]. unfold scrapeOnce.
  destruct (scraper agents) as [a|] eqn:Ha; simpl.
  - pose proof (Hscraper a p client (timeout input) (clock s)
                  (length (scrapeLog s)) eq_refl) as Hgood.
    destruct (a _ _ _ _ _) as [elapsed r]. simpl in *. intros ->.
    destruct t as [e|]; [eauto|]. now destruct Hgood.
  - intros [= <-]. eauto.
Qed.

Lemma some_throws f l t :
  (forall x t', f x = Throw t' -> exists e, t' = ThrownError e) ->
  Retry.some f l = Throw t -> exists e, t = ThrownError e.
Proof.
  intros Hf. induction l as [|x l IH]; simpl; [discriminate|].
  destruct (f x) as [[|]|t'] eqn:Hx; [discriminate|exact IH|].
  intros [= <-]. exact (Hf x t' Hx).
Qed.

Lemma isRetryableError_throws t t' :
  Retry.isRetryableError t = Throw t' -> exists e, t' = ThrownError e.
Proof.
  destruct t as [e|]; simpl; [|intros [= <-]; eauto].
  unfold Retry.isRetryableErrorObject. apply some_throws.
  intros x t1. unfold Retry.matchesType.
  destruct (JsString.includes _ x); [discriminate|].
  destruct (Retry.codeOr _); try discriminate; intros [= <-]; eauto.
Qed.

Lemma retry_scrape_frame client p s :
  let s1 := fst (Retry.retry sleep (scrapeOnce agents input client p)
                   (retryOptions input) s) in
  circuitBreakers s1 = circuitBreakers s
  /\ rateLimiters s1 = rateLimiters s.
Proof.
  apply (retry_preserves
           (fun w => circuitBreakers w = circuitBreakers s
                     /\ rateLimiters w = rateLimiters s)).
  - intros w [Hb Hl].
    destruct (scrapeOnce_frame client p w) as (Hb1 & Hl1 & _).
    split; congruence.
  - intros d w Hw. exact Hw.
  - intros f t n w [= <-] Hw. exact Hw.
  - split; reflexivity.
Qed.

Lemma retry_scrape_log client p s :
  (length (scrapeLog (fst (Retry.retry sleep (scrapeOnce agents input client p)
                             (retryOptions input) s)))
   <= length (scrapeLog s) + Z.to_nat (maxRetries input))%nat.
Proof.
  unfold Retry.retry.
  apply (loop_measure sleep (scrapeOnce agents input client p)
           (retryOptions input) (fun w => length (scrapeLog w))).
  - intros w. destruct (scrapeOnce_frame client p w) as (_ & _ & H). lia.
  - reflexivity.
  - intros f t n w [= <-]. reflexivity.
Qed.

Lemma retry_scrape_throws client p s t :
  wellBehaved agents -> 1 <= maxRetries input ->
  snd (Retry.retry sleep (scrapeOnce agents input client p)
         (retryOptions input) s) = Throw t ->
  exists e, t = ThrownError e.
Proof.
  intros Hgood Hretries. unfold Retry.retry.
  apply (loop_throws sleep (scrapeOnce agents input client p)
           (retryOptions input) (fun t => exists e, t = ThrownError e)).
  - intros w t1. now apply scrapeOnce_throws.
  - intros cond t1 t2 [= <-]. apply isRetryableError_throws.
  - intros [e|] t2; simpl; [discriminate|]. intros [= <-]. eauto.
  - right. simpl. lia.
Qed.

End WorkflowRuns.

Section WorkUnits.

Import Js Workflow.

Variable limits : Limits.
Variable agents : Agents.
Variable input : MonitoringInput.

Lemma namesThis_failure client p msg now :
  namesThis client p (failureError client p msg now).
Proof. split; reflexivity. Qed.

Lemma catchBlock_facts client p clientResults caught s :
  let r := catchBlock client p clientResults caught s in
  sameElsewhere client p s (fst r)
  /\ errorsGrow (namesThis client p) s (fst r)
  /\ scrapeLog (fst r) = scrapeLog s
  /\ (forall e, caught = ThrownError e ->
        snd r = Return (clientResults ++ [failureResult p (message e)]))
  /\ (forall t, snd r = Throw t -> caught = ThrownUndefined).
Proof.
  unfold catchBlock. destruct caught as [e|]; simpl.
  - split_and!.
    + apply sameElsewhere_setBreaker.
    + eapply errorsGrow_trans; [|apply errorsGrow_push, namesThis_failure].
      now apply errorsGrow_same.
    + reflexivity.
    + now intros e' [= <-].
    + discriminate.
  - split_and!.
    + apply sameElsewhere_setBreaker.
    + now apply errorsGrow_same.
    + reflexivity.
    + discriminate.
    + reflexivity.
Qed.

Lemma afterScrape_facts client p clientResults result s :
  let r := afterScrape agents client p clientResults result s in
  sameElsewhere client p s (fst r)
  /\ errorsGrow (namesThis client p) s (fst r)
  /\ scrapeLog (fst r) = scrapeLog s
  /\ (wellBehaved agents -> exists after, snd r = Return after)
  /\ (forall after, snd r = Return after ->
        addsAtMostOne p clientResults after).
Proof.
  unfold afterScrape.
  set (s1 := setBreaker _ _ s).
  assert (H1 : sameElsewhere client p s s1)
    by apply sameElsewhere_setBreaker.
  destruct (analyzer agents) as [a|] eqn:Ha.
  - destruct (a result client p) as [analysis|t] eqn:Hr.
    + simpl. split_and!; try easy.
      * now apply errorsGrow_same.
      * eauto.
      * intros after [= <-]. right. eexists. split; reflexivity.
    + destruct (catchBlock_facts client p clientResults t s1)
        as (Hsame & Hgrow & Hlog & Hok & Hthrow).
      split_and!.
      * eapply sameElsewhere_trans; eassumption.
      * eapply errorsGrow_trans; [|exact Hgrow]. now apply errorsGrow_same.
      * now rewrite Hlog.
      * intros [_ Hanalyzer]. specialize (Hanalyzer a result client p Ha).
        rewrite Hr in Hanalyzer. destruct t as [e|].
        -- rewrite (Hok e eq_refl). eauto.
        -- now destruct Hanalyzer.
      * intros after Hafter. destruct t as [e|].
        -- rewrite (Hok e eq_refl) in Hafter. injection Hafter as <-.
           right. eexists. split; reflexivity.
        -- simpl in Hafter. discriminate.
  - simpl. split_and!; try easy.
    + now apply errorsGrow_same.
    + eauto.
    + intros after [= <-]. right. eexists. split; reflexivity.
Qed.

Lemma dispatch_facts client p clientResults s :
  let r := dispatch agents input client p clientResults s in
  sameElsewhere client p s (fst r)
  /\ errorsGrow (namesThis client p) s (fst r)
  /\ (length (scrapeLog (fst r))
      <= length (scrapeLog s) + Z.to_nat (maxRetries input))%nat
  /\ (wellBehaved agents -> 1 <= maxRetries input ->
      exists after, snd r = Return after)
  /\ (forall after, snd r = Return after ->
        addsAtMostOne p clientResults after).
Proof.
  unfold dispatch.
  pose proof (retry_scrape_frame agents input client p s) as [Hb Hl].
  pose proof (retry_scrape_errors agents input client p s) as He.
  pose proof (retry_scrape_log agents input client p s) as Hlog.
  pose proof (retry_scrape_throws agents input client p s) as Hthrows.
  destruct (Retry.retry _ _ _ s) as [s1 [result|t]]; simpl in *.
  - destruct (afterScrape_facts client p clientResults result s1)
      as (Hsame & Hgrow & Hlog1 & Hok & Hadds).
    split_and!.
    + eapply sameElsewhere_trans; [|exact Hsame].
      split; intros; congruence.
    + eapply errorsGrow_trans; [|exact Hgrow]. now apply errorsGrow_same.
    + now rewrite Hlog1.
    + intros Hgood _. now apply Hok.
    + exact Hadds.
  - destruct (catchBlock_facts client p clientResults t s1)
      as (Hsame & Hgrow & Hlog1 & Hok & Hthrow).
    split_and!.
    + eapply sameElsewhere_trans; [|exact Hsame].
      split; intros; congruence.
    + eapply errorsGrow_trans; [|exact Hgrow]. now apply errorsGrow_same.
    + now rewrite Hlog1.
    + intros Hgood Hretries.
      destruct (Hthrows t Hgood Hretries eq_refl) as [e ->].
      rewrite (Hok e eq_refl). eauto.
    + intros after Hafter. destruct t as [e|].
      * rewrite (Hok e eq_refl) in Hafter. injection Hafter as <-.
        right. eexists. split; reflexivity.
      * simpl in Hafter. discriminate.
Qed.

Lemma checkBreaker_facts client p s :
  let r := checkBreaker client p s in
  sameElsewhere client p s (fst r)
  /\ errors (fst r) = errors s
  /\ scrapeLog (fst r) = scrapeLog s
  /\ rateLimiters (fst r) = rateLimiters s
  /\ clock (fst r) = clock s.
Proof.
  unfold checkBreaker.
  destruct (circuitBreakers s !! breakerKey client p) eqn:Hkey;
    destruct (CircuitBreaker.isOpen _ _ _) as [o b]; simpl;
    split_and!; try reflexivity.
  - apply sameElsewhere_setBreaker.
  - eapply sameElsewhere_trans; apply sameElsewhere_setBreaker.
Qed.

Lemma checkRateLimit_facts client p s :
  let r := checkRateLimit limits p s in
  sameElsewhere client p s (fst r)
  /\ errors (fst r) = errors s
  /\ scrapeLog (fst r) = scrapeLog s
  /\ circuitBreakers (fst r) = circuitBreakers s.
Proof.
  unfold checkRateLimit.
  destruct (RateLimiter.tryAcquire _ _ _) as [a l]; simpl.
  split_and!; try reflexivity. apply sameElsewhere_setLimiter.
Qed.

Lemma processPlatform_facts client p clientResults s :
  let r := processPlatform limits agents input client p clientResults s in
  sameElsewhere client p s (fst r)
  /\ errorsGrow (namesThis client p) s (fst r)
  /\ (length (scrapeLog (fst r))
      <= length (scrapeLog s) + Z.to_nat (maxRetries input))%nat
  /\ (wellBehaved agents -> 1 <= maxRetries input ->
      exists after, snd r = Return after)
  /\ (forall after, snd r = Return after ->
        addsAtMostOne p clientResults after).
Proof.
  unfold processPlatform.
  destruct (checkBreaker_facts client p s) as (Hs1 & He1 & Hl1 & _ & _).
  destruct (checkBreaker client p s) as [s1 [|]]; simpl in *.
  - split_and!.
    + exact Hs1.
    + apply errorsGrow_trans with s1; [now apply errorsGrow_same|].
      apply errorsGrow_push. split; reflexivity.
    + rewrite Hl1. lia.
    + eauto.
    + intros after [= <-]. now left.
  - destruct (checkRateLimit_facts client p s1) as (Hs2 & He2 & Hl2 & _).
    destruct (checkRateLimit limits p s1) as [s2 [|]]; simpl in *.
    + destruct (dispatch_facts client p clientResults s2)
        as (Hs3 & He3 & Hl3 & Hok & Hadds).
      split_and!.
      * eapply sameElsewhere_trans; [exact Hs1|].
        eapply sameElsewhere_trans; [exact Hs2|exact Hs3].
      * apply errorsGrow_trans with s2; [|exact He3].
        apply errorsGrow_same. congruence.
      * rewrite Hl2, Hl1 in Hl3. exact Hl3.
      * exact Hok.
      * exact Hadds.
    + split_and!.
      * eapply sameElsewhere_trans; eassumption.
      * apply errorsGrow_trans with s2;
          [apply errorsGrow_same; congruence|].
        apply errorsGrow_push. split; reflexivity.
      * rewrite Hl2, Hl1. lia.
      * eauto.
      * intros after [= <-]. now left.
Qed.

End WorkUnits.

Section ClientRuns.

Import Js Workflow.

Variable limits : Limits.
Variable agents : Agents.
Variable input : MonitoringInput.

Lemma errorsGrow_weaken (P Q : ErrorEntry -> Prop) s1 s2 :
  (forall e, P e -> Q e) -> errorsGrow P s1 s2 -> errorsGrow Q s1 s2.
Proof.
  intros Hpq (added & Heq & Hall). exists added. split; [exact Heq|].
  eapply Forall_impl; eassumption.
Qed.

Lemma namesThis_namesUnit client p e : namesThis client p e -> namesUnit e.
Proof. intros [H1 H2]. split; rewrite ?H1, ?H2; eauto. Qed.

Lemma processPlatforms_facts client ps clientResults s :
  let r := processPlatforms limits agents input client ps clientResults s in
  errorsGrow namesUnit s (fst r)
  /\ (length (scrapeLog (fst r))
      <= length (scrapeLog s) + length ps * Z.to_nat (maxRetries input))%nat
  /\ (wellBehaved agents -> 1 <= maxRetries input ->
      exists after, snd r = Return after)
  /\ (forall after, snd r = Return after ->
        exists added, after = clientResults ++ added
                      /\ map platform added `sublist_of` ps).
Proof.
  revert clientResults s.
  induction ps as [|p rest IH]; intros clientResults s.
  - simpl. split_and!.
    + apply errorsGrow_refl.
    + lia.
    + eauto.
    + intros after [= <-]. exists []. split; [now rewrite app_nil_r|].
      reflexivity.
  - cbn [processPlatforms].
    destruct (processPlatform_facts limits agents input client p
                clientResults s) as (_ & Hgrow & Hlog & Hok & Hadds).
    destruct (processPlatform _ _ _ _ _ _ _) as [s1 [cr1|t]] eqn:Hp;
      simpl in *.
    + destruct (IH cr1 s1) as (Hgrow2 & Hlog2 & Hok2 & Hadds2).
      split_and!.
      * eapply errorsGrow_trans; [|exact Hgrow2].
        eapply errorsGrow_weaken; [apply namesThis_namesUnit|exact Hgrow].
      * lia.
      * exact Hok2.
      * intros after Hafter.
        destruct (Hadds2 after Hafter) as (added & -> & Hsub).
        destruct (Hadds cr1 eq_refl) as [->|(entry & -> & Hentry)].
        -- exists added. split; [reflexivity|]. now apply sublist_cons.
        -- exists (entry :: added). split; [now rewrite <- app_assoc|].
           simpl. rewrite Hentry. now apply sublist_skip.
    + split_and!.
      * eapply errorsGrow_weaken; [apply namesThis_namesUnit|exact Hgrow].
      * lia.
      * intros Hgood Hretries. destruct (Hok Hgood Hretries). discriminate.
      * discriminate.
Qed.

Lemma processClient_facts ps client s :
  let r := processClient limits agents input ps client s in
  errorsGrow namesUnit s (fst r)
  /\ (length (scrapeLog (fst r))
      <= length (scrapeLog s) + length ps * Z.to_nat (maxRetries input))%nat
  /\ (wellBehaved agents -> 1 <= maxRetries input ->
      exists value,
        snd r = Return value
        /\ clientId value = id client
        /\ map platform (results value) `sublist_of` ps).
Proof.
  unfold processClient.
  destruct (processPlatforms_facts client ps [] s)
    as (Hgrow & Hlog & Hok & Hadds).
  destruct (processPlatforms _ _ _ _ _ _ _) as [s1 [cr|t]]; simpl in *.
  - split_and!; [exact Hgrow|exact Hlog|].
    intros _ _. eexists. split_and!; [reflexivity|reflexivity|].
    destruct (Hadds cr eq_refl) as (added & -> & Hsub). exact Hsub.
  - split_and!; [exact Hgrow|exact Hlog|].
    intros Hgood Hretries. destruct (Hok Hgood Hretries). discriminate.
Qed.

Lemma runBatch_facts ps batch s :
  let r := runBatch limits agents input ps batch s in
  errorsGrow namesUnit s (fst r)
  /\ (length (scrapeLog (fst r))
      <= length (scrapeLog s) + length batch * (length ps * Z.to_nat (maxRetries input)))%nat
  /\ (wellBehaved agents -> 1 <= maxRetries input ->
      exists values,
        snd r = map Return values
        /\ map clientId values = map id batch
        /\ Forall (fun v => map platform (results v) `sublist_of` ps) values).
Proof.
  revert s. induction batch as [|client rest IH]; intros s.
  - simpl. split_and!; [apply errorsGrow_refl|lia|].
    intros _ _. exists []. split_and!; [reflexivity|reflexivity|constructor].
  - cbn [runBatch].
    destruct (processClient_facts ps client s) as (Hgrow & Hlog & Hok).
    destruct (processClient _ _ _ _ client s) as [s1 settled].
    simpl in Hgrow, Hlog, Hok.
    destruct (IH s1) as (Hgrow2 & Hlog2 & Hok2).
    destruct (runBatch _ _ _ _ rest s1) as [s2 others].
    simpl in Hgrow2, Hlog2, Hok2. cbn [fst snd length].
    split_and!.
    + eapply errorsGrow_trans; eassumption.
    + lia.
    + intros Hgood Hretries.
      destruct (Hok Hgood Hretries) as (value & -> & Hid & Hsub).
      destruct (Hok2 Hgood Hretries) as (values & -> & Hids & Hps).
      exists (value :: values).
      split_and!; [reflexivity|simpl; now rewrite Hid, Hids|].
      now constructor.
Qed.

Lemma collect_values values results s :
  collect (map Return values) results s = (s, Return (results ++ values)).
Proof.
  revert results. induction values as [|v rest IH]; intros results; simpl.
  - now rewrite app_nil_r.
  - rewrite IH. now rewrite <- app_assoc.
Qed.

Lemma collect_log batchResults results s :
  scrapeLog (fst (collect batchResults results s)) = scrapeLog s.
Proof.
  revert results s.
  induction batchResults as [|[v|t] rest IH]; intros results s; simpl.
  - reflexivity.
  - apply IH.
  - destruct (messageOf t); simpl; [|reflexivity]. now rewrite IH.
Qed.

Lemma runBatches_log ps clientBatches results s :
  (length (scrapeLog (fst (runBatches limits agents input ps clientBatches
                             results s)))
   <= length (scrapeLog s)
      + length (concat clientBatches) * (length ps * Z.to_nat (maxRetries input)))%nat.
Proof.
  revert results s.
  induction clientBatches as [|batch rest IH]; intros results s.
  - simpl. lia.
  - cbn [runBatches].
    destruct (runBatch_facts ps batch s) as (_ & Hlog & _).
    destruct (runBatch _ _ _ _ batch s) as [s1 batchResults]. simpl in Hlog.
    pose proof (collect_log batchResults results s1) as Hc.
    destruct (collect batchResults results s1) as [s2 [results1|t]];
      simpl in Hc.
    + specialize (IH results1 s2). simpl concat. rewrite length_app.
      rewrite Hc in IH. lia.
    + simpl. rewrite Hc. simpl concat. rewrite length_app. lia.
Qed.

Lemma runBatches_good ps clientBatches results s :
  wellBehaved agents -> 1 <= maxRetries input ->
  exists s1 values,
    runBatches limits agents input ps clientBatches results s
    = (s1, Return (results ++ values))
    /\ map clientId values = map id (concat clientBatches)
    /\ Forall (fun v => map platform (Workflow.results v) `sublist_of` ps)
              values
    /\ errorsGrow namesUnit s s1.
Proof.
  intros Hgood Hretries. revert results s.
  induction clientBatches as [|batch rest IH]; intros results s.
  - exists s, []. simpl. rewrite app_nil_r.
    split_and!; [reflexivity|reflexivity|constructor|apply errorsGrow_refl].
  - cbn [runBatches].
    destruct (runBatch_facts ps batch s) as (Hgrow & _ & Hok).
    destruct (Hok Hgood Hretries) as (values & Hv & Hids & Hps).
    destruct (runBatch _ _ _ _ batch s) as [s1 batchResults].
    simpl in *. subst batchResults. rewrite collect_values.
    destruct (IH (results ++ values) s1)
      as (s2 & more & Hrun & Hids2 & Hps2 & Hgrow2).
    exists s2, (values ++ more). split_and!.
    + rewrite Hrun. now rewrite <- app_assoc.
    + now rewrite !map_app, Hids, Hids2.
    + now apply Forall_app.
    + eapply errorsGrow_trans; eassumption.
Qed.

End ClientRuns.

Section BreakerKeys.

Import Workflow.
Local Open Scope string_scope.

Lemma pretty_N_go_digits (x : N) text :
  allDigits text = true -> allDigits (pretty_N_go x text) = true.
Proof.
  revert text. induction (N.lt_wf_0 x) as [x _ IH]; intros text Htext.
  assert (x = 0 \/ 0 < x)%N as [->|Hpos] by lia.
  - now rewrite pretty_N_go_0.
  - rewrite pretty_N_go_step by exact Hpos. apply IH.
    + now apply N.div_lt.
    + simpl. rewrite Htext, andb_true_r.
      unfold pretty_N_char. now repeat case_match.
Qed.

Lemma pretty_N_go_length (x : N) text :
  (String.length text <= String.length (pretty_N_go x text))%nat.
Proof.
  revert text. induction (N.lt_wf_0 x) as [x _ IH]; intros text.
  assert (x = 0 \/ 0 < x)%N as [->|Hpos] by lia.
  - now rewrite pretty_N_go_0.
  - rewrite pretty_N_go_step by exact Hpos.
    etrans; [|apply IH, N.div_lt; [exact Hpos|reflexivity]]. simpl. lia.
Qed.

Lemma pretty_N_digits (x : N) :
  allDigits (pretty x) = true /\ pretty x <> "".
Proof.
  unfold pretty, pretty_N. destruct (decide (x = 0%N)) as [->|Hx].
  - split; [reflexivity|discriminate].
  - split; [now apply pretty_N_go_digits|].
    rewrite pretty_N_go_step by lia.
    intros Hempty.
    pose proof (pretty_N_go_length (x `div` 10)
                  (String (pretty_N_char (x `mod` 10)) "")) as Hlen.
    rewrite Hempty in Hlen. simpl in Hlen. lia.
Qed.

Lemma digits_then_dash first second rest1 rest2 :
  allDigits first = true -> allDigits second = true ->
  first +:+ String "-" rest1 = second +:+ String "-" rest2 ->
  first = second /\ rest1 = rest2.
Proof.
  revert second.
  induction first as [|c first IH]; intros [|d second] Hfirst Hsecond Heq;
    simpl in *.
  - now injection Heq.
  - injection Heq as <- _. apply andb_prop in Hsecond as [Hd _].
    discriminate.
  - injection Heq as -> _. apply andb_prop in Hfirst as [Hc _].
    discriminate.
  - injection Heq as -> Heq.
    apply andb_prop in Hfirst as [_ Hfirst].
    apply andb_prop in Hsecond as [_ Hsecond].
    destruct (IH second Hfirst Hsecond Heq) as [-> ->]. now split.
Qed.

Lemma pretty_Z_then_dash (x y : Z) rest1 rest2 :
  pretty x +:+ String "-" rest1 = pretty y +:+ String "-" rest2 ->
  x = y /\ rest1 = rest2.
Proof.
  assert (Hpos : forall q : positive,
            allDigits (pretty q) = true /\ pretty q <> "").
  { intros q. apply (pretty_N_digits (Npos q)). }
  assert (Hhead : forall q : positive, forall rest other,
            pretty q +:+ rest <> String "-" other).
  { intros q rest other Heq. destruct (Hpos q) as [Hd Hne].
    destruct (pretty q) as [|c text]; [congruence|].
    simpl in Heq, Hd. injection Heq as -> _. discriminate. }
  destruct x as [|q|q], y as [|r|r]; intros Heq;
    change (pretty 0%Z) with "0" in Heq;
    repeat match type of Heq with
           | context [pretty (Z.pos ?q)] =>
               change (pretty (Z.pos q)) with (pretty q) in Heq
           | context [pretty (Z.neg ?q)] =>
               change (pretty (Z.neg q)) with ("-" +:+ pretty q) in Heq
           end.
  - simpl in Heq. injection Heq as ->. now split.
  - change "0" with (pretty 0%N) in Heq.
    destruct (digits_then_dash _ _ _ _ (proj1 (pretty_N_digits 0))
                (proj1 (Hpos r)) Heq) as [Hp ->].
    apply (inj pretty 0%N (Npos r)) in Hp. discriminate.
  - simpl in Heq. discriminate.
  - change "0" with (pretty 0%N) in Heq.
    destruct (digits_then_dash _ _ _ _ (proj1 (Hpos q))
                (proj1 (pretty_N_digits 0)) Heq) as [Hp ->].
    apply (inj pretty (Npos q) 0%N) in Hp. discriminate.
  - destruct (digits_then_dash _ _ _ _ (proj1 (Hpos q)) (proj1 (Hpos r)) Heq)
      as [Hp ->].
    apply (inj pretty) in Hp. subst. now split.
  - exfalso. simpl in Heq. eapply Hhead. exact Heq.
  - simpl in Heq. discriminate.
  - exfalso. simpl in Heq. eapply Hhead. symmetry. exact Heq.
  - simpl in Heq. injection Heq as Heq.
    destruct (digits_then_dash _ _ _ _ (proj1 (Hpos q)) (proj1 (Hpos r)) Heq)
      as [Hp ->].
    apply (inj pretty) in Hp. subst. now split.
Qed.

Lemma platformName_inj p q : platformName p = platformName q -> p = q.
Proof. destruct p, q; simpl; intros H; try reflexivity; discriminate. Qed.

Lemma breakerKey_inj client p other q :
  breakerKey client p = breakerKey other q ->
  id client = id other /\ p = q.
Proof.
  unfold breakerKey. intros Heq.
  destruct (pretty_Z_then_dash (id client) (id other)
              (platformName p) (platformName q)) as [Hid Hname].
  - exact Heq.
  - split; [exact Hid|now apply platformName_inj].
Qed.

End BreakerKeys.

(** X21.  Work units have breakers of their own.  The key
    [`${client.id}-${platform}`] of one unit equals that of another
    exactly when the client ids and the platforms are equal, negative
    ids and the dash of [google-ai] included. *)
Theorem breaker_keys_identify_units :
  forall (client other : Workflow.Client) (p q : Workflow.Platform),
    Workflow.breakerKey client p = Workflow.breakerKey other q
    <-> Workflow.id client = Workflow.id other /\ p = q.
Proof.
  intros client other p q. split.
  - apply breakerKey_inj.
  - intros [Hid ->]. unfold Workflow.breakerKey. now rewrite Hid.
Qed.

(** X22.  A work unit touches only its own state.  Whatever the agents
    do, processing the unit of [client] and [p] leaves the breaker of
    every other unit and the limiter of every other platform as they
    were, only appends to the error list, and only entries that name
    this client and platform, and when it completes it has added nothing
    to the client's results or one entry for [p]. *)
Theorem unit_touches_only_its_own_state :
  forall limits agents input client p clientResults s other q,
    (Workflow.id other, q) <> (Workflow.id client, p) ->
    let r :=
      Workflow.processPlatform limits agents input client p clientResults s in
    Workflow.circuitBreakers (fst r) !! Workflow.breakerKey other q
    = Workflow.circuitBreakers s !! Workflow.breakerKey other q
    /\ (q <> p ->
        Workflow.rateLimiters (fst r) q = Workflow.rateLimiters s q)
    /\ Workflow.errorsGrow (Workflow.namesThis client p) s (fst r)
    /\ (forall after, snd r = Js.Return after ->
          Workflow.addsAtMostOne p clientResults after).
Proof.
  intros limits agents input client p clientResults s other q Hother r.
  destruct (processPlatform_facts limits agents input client p
              clientResults s) as ([Hb Hl] & Hgrow & _ & _ & Hadds).
  split_and!.
  - apply Hb. intros Hkey. apply breakerKey_inj in Hkey as [Hid ->].
    apply Hother. now rewrite Hid.
  - apply Hl.
  - exact Hgrow.
  - exact Hadds.
Qed.

Lemma unit_touches_only_its_own_state_witness :
  Workflow.circuitBreakers
    (fst (Workflow.processPlatform Workflow.defaultLimits
            Scenario.brokenScraper (Scenario.request 2) Scenario.initech
            Workflow.chatgpt [] Scenario.preOpened))
  !! Workflow.breakerKey Scenario.acme Workflow.chatgpt
  = Workflow.circuitBreakers Scenario.preOpened
    !! Workflow.breakerKey Scenario.acme Workflow.chatgpt.
Proof.
  refine (proj1 (unit_touches_only_its_own_state Workflow.defaultLimits
                   Scenario.brokenScraper (Scenario.request 2)
                   Scenario.initech Workflow.chatgpt [] Scenario.preOpened
                   Scenario.acme Workflow.chatgpt _)).
  vm_compute. discriminate.
Defined.

(** X23.  A run that takes its clients one at a time (priority 'low',
    or a single client) calls the scraper a bounded number of times,
    whatever the agents answer: at most the clients times the platforms
    times [maxRetries]. *)
Theorem scrape_calls_are_bounded :
  forall limits agents getClients input s,
    let clients := getClients (Workflow.clientIds input) in
    let ps :=
      default Workflow.allPlatforms (Workflow.platforms input) in
    Workflow.priority input = Workflow.low \/ (length clients <= 1)%nat ->
    (length (Workflow.scrapeLog
               (fst (Workflow.execute limits agents getClients input s)))
     <= length (Workflow.scrapeLog s)
        + length clients
          * (length ps * Z.to_nat (Workflow.maxRetries input)))%nat.
Proof.
  intros limits agents getClients input s clients ps _.
  unfold Workflow.execute. fold clients. fold ps.
  destruct clients as [|client rest] eqn:Hclients; [simpl; lia|].
  rewrite <- Hclients.
  pose proof (runBatches_log limits agents input ps
                (Workflow.chunkArray clients
                   (Workflow.concurrencyOf (Workflow.priority input)))
                [] (Workflow.clearErrors s)) as Hlog.
  destruct (chunkFrom_concat (length clients) clients
              (Workflow.concurrencyOf (Workflow.priority input)))
    as [Hconcat _].
  { destruct (Workflow.priority input); simpl; lia. }
  { lia. }
  unfold Workflow.chunkArray in Hlog at 2. rewrite Hconcat in Hlog.
  destruct (Workflow.runBatches _ _ _ _ _ _ _) as [s1 [results|t]];
    simpl in *; exact Hlog.
Qed.

Lemma scrape_calls_are_bounded_witness :
  (length (Workflow.scrapeLog
             (fst (Workflow.execute Workflow.defaultLimits
                     Scenario.brokenScraper Scenario.bothClients
                     (Scenario.request 2) (Workflow.initial 2000))))
   <= 8)%nat.
Proof.
  refine (scrape_calls_are_bounded Workflow.defaultLimits
            Scenario.brokenScraper Scenario.bothClients
            (Scenario.request 2) (Workflow.initial 2000) _).
  left. reflexivity.
Defined.

(** X24.  An open breaker skips the unit and nothing else happens.
    When the unit's breaker is OPEN and no more than the reset timeout
    has passed since its last failure, the unit makes no scrape call,
    takes no slot of the rate limiter, leaves the breaker as it is and
    the client's results as they are: the state changes by one error
    entry, 'Circuit breaker open'. *)
Theorem open_breaker_skips_unit :
  forall limits agents input client p clientResults s b last,
    Workflow.circuitBreakers s !! Workflow.breakerKey client p = Some b ->
    CircuitBreaker.state b = CircuitBreaker.OPEN ->
    CircuitBreaker.lastFailureTime b = Some last ->
    Workflow.clock s - last
    <= CircuitBreaker.resetTimeout CircuitBreaker.workflowOptions ->
    Workflow.processPlatform limits agents input client p clientResults s
    = (Workflow.pushError
         (Workflow.circuitOpenError client p (Workflow.clock s)) s,
       Js.Return clientResults).
Proof.
  intros limits agents input client p clientResults s b last
    Hkey Hstate Hlast Hearly.
  assert (Hcheck : Workflow.checkBreaker client p s = (s, true)).
  { unfold Workflow.checkBreaker, Workflow.breakerOf. rewrite Hkey.
    cbn zeta. rewrite Hkey. cbn [default from_option]. unfold Datatypes.id.
    rewrite (isOpen_open_early CircuitBreaker.workflowOptions
               (Workflow.clock s) b last Hstate Hlast Hearly).
    unfold Workflow.setBreaker. rewrite (insert_id _ _ _ Hkey).
    now destruct s. }
  unfold Workflow.processPlatform. now rewrite Hcheck.
Qed.

Lemma open_breaker_skips_unit_witness :
  Workflow.processPlatform Workflow.defaultLimits Scenario.scrapeOnly
    (Scenario.request 3) Scenario.acme Workflow.chatgpt []
    Scenario.preOpened
  = (Workflow.pushError
       (Workflow.circuitOpenError Scenario.acme Workflow.chatgpt 2000)
       Scenario.preOpened,
     Js.Return []).
Proof.
  apply (open_breaker_skips_unit Workflow.defaultLimits Scenario.scrapeOnly
           (Scenario.request 3) Scenario.acme Workflow.chatgpt []
           Scenario.preOpened Scenario.tripped 1000).
  - vm_compute. reflexivity.
  - vm_compute. reflexivity.
  - vm_compute. reflexivity.
  - vm_compute. discriminate.
Defined.

(** X25.  A unit that finds the rate limiter full is skipped without a
    verdict.  When the breaker lets the unit through and the window of
    its platform already holds [maxRequests] timestamps, the unit makes
    no scrape call and adds no result; the breaker is left as the check
    left it, with neither a success nor a failure recorded, and the
    state changes by one error entry for this unit, 'Rate limit
    exceeded'. *)
Theorem rate_limited_unit_is_skipped :
  forall limits agents input client p clientResults s,
    snd (Workflow.checkBreaker client p s) = false ->
    Workflow.maxRequestsOf limits p
    <= Z.of_nat
         (length
            (filter
               (fun time =>
                  Workflow.clock s - Workflow.rateLimitWindowMs limits < time)
               (Workflow.rateLimiters s p))) ->
    let r :=
      Workflow.processPlatform limits agents input client p clientResults s in
    snd r = Js.Return clientResults
    /\ Workflow.scrapeLog (fst r) = Workflow.scrapeLog s
    /\ Workflow.clock (fst r) = Workflow.clock s
    /\ Workflow.circuitBreakers (fst r)
       = Workflow.circuitBreakers (fst (Workflow.checkBreaker client p s))
    /\ exists e,
         Workflow.errors (fst r) = Workflow.errors s ++ [e]
         /\ Workflow.error e = "Rate limit exceeded"%string
         /\ Workflow.namesThis client p e.
Proof.
  intros limits agents input client p clientResults s Hbreaker Hfull r.
  subst r. unfold Workflow.processPlatform.
  destruct (checkBreaker_facts client p s) as (_ & He & Hlog & Hl & Hclock).
  destruct (Workflow.checkBreaker client p s) as [s1 isOpen].
  simpl in Hbreaker, He, Hlog, Hl, Hclock. subst isOpen.
  cbn [fst].
  assert (Hdenied :
    Workflow.checkRateLimit limits p s1
    = (Workflow.setLimiter p
         (filter (fun time =>
                    Workflow.clock s - Workflow.rateLimitWindowMs limits < time)
                 (Workflow.rateLimiters s p)) s1, false)).
  { unfold Workflow.checkRateLimit, RateLimiter.tryAcquire.
    rewrite Hl, Hclock. cbn [Workflow.limiterOptions RateLimiter.windowMs
                             RateLimiter.maxRequests].
    match goal with
    | |- context [?a <? ?b] =>
        replace (a <? b) with false
          by (symmetry; apply Z.ltb_ge; exact Hfull)
    end.
    reflexivity. }
  rewrite Hdenied. cbn [negb fst snd].
  split_and!; try reflexivity.
  - exact Hlog.
  - exact Hclock.
  - eexists. split_and!.
    + simpl. rewrite He. reflexivity.
    + reflexivity.
    + split; reflexivity.
Qed.

Lemma rate_limited_unit_is_skipped_witness :
  snd (Workflow.processPlatform Scenario.noRoom Scenario.scrapeOnly
         (Scenario.request 3) Scenario.acme Workflow.chatgpt []
         (Workflow.initial 2000))
  = Js.Return [].
Proof.
  refine (proj1 (rate_limited_unit_is_skipped Scenario.noRoom
                   Scenario.scrapeOnly (Scenario.request 3) Scenario.acme
                   Workflow.chatgpt [] (Workflow.initial 2000) _ _)).
  - vm_compute. reflexivity.
  - vm_compute. discriminate.
Defined.

(** X26.  With agents that throw error objects and at least one attempt
    allowed, a run that takes its clients one at a time (priority 'low',
    or a single client) over a non-empty client list always completes
    with [success: true]: every client, in the order of the list, has exactly
    one result, whose entries follow the requested platform list in its
    order with at most one entry for each position; every error entry
    names a client and a platform; and the statistics count the clients
    as [successfulResults] and the error entries as [failedResults]. *)
Theorem every_client_gets_a_result :
  forall limits agents getClients input s,
    Workflow.wellBehaved agents ->
    1 <= Workflow.maxRetries input ->
    getClients (Workflow.clientIds input) <> [] ->
    Workflow.priority input = Workflow.low
    \/ (length (getClients (Workflow.clientIds input)) <= 1)%nat ->
    exists s1 out,
      Workflow.execute limits agents getClients input s
      = (s1, Js.Return out)
      /\ Workflow.outcomeSuccess out = true
      /\ map Workflow.clientId (Workflow.outcomeResults out)
         = map Workflow.id (getClients (Workflow.clientIds input))
      /\ Forall (fun v =>
                   map Workflow.platform (Workflow.results v)
                   `sublist_of`
                   default Workflow.allPlatforms (Workflow.platforms input))
                (Workflow.outcomeResults out)
      /\ Forall Workflow.namesUnit (Workflow.outcomeErrors out)
      /\ Workflow.successfulResults (Workflow.stats out)
         = length (getClients (Workflow.clientIds input))
      /\ Workflow.failedResults (Workflow.stats out)
         = length (Workflow.outcomeErrors out).
Proof.
  intros limits agents getClients input s Hgood Hretries Hclients _.
  unfold Workflow.execute.
  set (clients := getClients (Workflow.clientIds input)) in *.
  set (ps := default Workflow.allPlatforms (Workflow.platforms input)).
  destruct (runBatches_good limits agents input ps
              (Workflow.chunkArray clients
                 (Workflow.concurrencyOf (Workflow.priority input)))
              [] (Workflow.clearErrors s) Hgood Hretries)
    as (s1 & values & Hrun & Hids & Hps & added & Herrors & Hnames).
  destruct (chunkFrom_concat (length clients) clients
              (Workflow.concurrencyOf (Workflow.priority input)))
    as [Hconcat _].
  { destruct (Workflow.priority input); simpl; lia. }
  { lia. }
  unfold Workflow.chunkArray in Hids at 1. rewrite Hconcat in Hids.
  destruct clients as [|client rest] eqn:Hlist; [congruence|].
  rewrite <- Hlist in *. rewrite Hrun. simpl app.
  eexists _, _. split; [reflexivity|]. cbn.
  simpl in Herrors. rewrite Herrors.
  split_and!; try reflexivity; try assumption.
  rewrite <- (length_map Workflow.clientId), Hids. now rewrite length_map.
Qed.

Lemma every_client_gets_a_result_witness :
  exists s1 out,
    Workflow.execute Workflow.defaultLimits Scenario.brokenScraper
      Scenario.bothClients (Scenario.request 2) (Workflow.initial 2000)
    = (s1, Js.Return out)
    /\ Workflow.outcomeSuccess out = true
    /\ map Workflow.clientId (Workflow.outcomeResults out) = [1; 2].
Proof.
  destruct (every_client_gets_a_result Workflow.defaultLimits
              Scenario.brokenScraper Scenario.bothClients
              (Scenario.request 2) (Workflow.initial 2000))
    as (s1 & out & Hrun & Hsuccess & Hids & _).
  - split.
    + intros scraperAgent p client t now n [= <-]. discriminate.
    + intros analyzerAgent result client p. discriminate.
  - vm_compute. discriminate.
  - vm_compute. discriminate.
  - left. reflexivity.
  - exists s1, out. split_and!; [exact Hrun|exact Hsuccess|exact Hids].
Defined.

Section RunInvariants.

Import Js Workflow.

Variable limits : Limits.
Variable agents : Agents.
Variable input : MonitoringInput.

(** A relation between the states before and after, and a property of
    result entries, that every work unit keeps. *)
Variable R : State -> State -> Prop.
Variable Q : PlatformResult -> Prop.

Hypothesis R_refl : forall s, R s s.
Hypothesis R_trans : forall s1 s2 s3, R s1 s2 -> R s2 s3 -> R s1 s3.
Hypothesis R_push : forall e s, R s (pushError e s).
Hypothesis unit_keeps :
  forall client p clientResults s,
    let r := processPlatform limits agents input client p clientResults s in
    R s (fst r)
    /\ (forall after, snd r = Return after ->
          exists added, after = clientResults ++ added /\ Forall Q added).

Lemma processPlatforms_keeps client ps clientResults s :
  let r := processPlatforms limits agents input client ps clientResults s in
  R s (fst r)
  /\ (forall after, snd r = Return after ->
        exists added, after = clientResults ++ added /\ Forall Q added).
Proof.
  revert clientResults s.
  induction ps as [|p rest IH]; intros clientResults s.
  - simpl. split; [apply R_refl|].
    intros after [= <-]. exists []. split; [now rewrite app_nil_r|constructor].
  - cbn [processPlatforms].
    destruct (unit_keeps client p clientResults s) as [Hr Hadds].
    destruct (processPlatform _ _ _ _ _ _ _) as [s1 [cr1|t]]; simpl in *.
    + destruct (IH cr1 s1) as [Hr2 Hadds2]. split.
      * eapply R_trans; eassumption.
      * intros after Hafter.
        destruct (Hadds cr1 eq_refl) as (added1 & -> & Hq1).
        destruct (Hadds2 after Hafter) as (added2 & -> & Hq2).
        exists (added1 ++ added2). split; [now rewrite app_assoc|].
        now apply Forall_app.
    + split; [exact Hr|discriminate].
Qed.

Lemma runBatch_keeps ps batch s :
  let r := runBatch limits agents input ps batch s in
  R s (fst r)
  /\ Forall (fun settled => forall value, settled = Return value ->
                            Forall Q (results value)) (snd r).
Proof.
  revert s. induction batch as [|client rest IH]; intros s.
  - simpl. split; [apply R_refl|constructor].
  - cbn [runBatch]. unfold processClient.
    destruct (processPlatforms_keeps client ps [] s) as [Hr Hadds].
    destruct (processPlatforms _ _ _ _ _ _ _) as [s1 settled].
    simpl in Hr, Hadds.
    assert (Hsettled : forall s2 value,
      match settled with
      | Return clientResults =>
          (s1, Return {| clientId := id client; clientName := name client;
                         results := clientResults; timestamp := clock s1 |})
      | Throw t => (s1, Throw t)
      end = (s2, Return value) ->
      s2 = s1 /\ Forall Q (results value)).
    { intros s2 value. destruct settled as [cr|t]; [|discriminate].
      intros [= <- <-]. split; [reflexivity|]. simpl.
      destruct (Hadds cr eq_refl) as (added & -> & Hq). exact Hq. }
    destruct (IH s1) as [Hr2 Hall].
    destruct settled as [cr|t];
      destruct (runBatch _ _ _ _ rest s1) as [s2 others]; simpl in *.
    + split; [eapply R_trans; eassumption|].
      constructor; [|exact Hall].
      intros value [= <-]. exact (proj2 (Hsettled s1 _ eq_refl)).
    + split; [eapply R_trans; eassumption|].
      constructor; [discriminate|exact Hall].
Qed.

Lemma collect_keeps batchResults collected s :
  let r := collect batchResults collected s in
  R s (fst r)
  /\ (Forall (fun settled => forall value, settled = Return value ->
                             Forall Q (results value)) batchResults ->
      Forall (fun v => Forall Q (results v)) collected ->
      forall out, snd r = Return out ->
                  Forall (fun v => Forall Q (results v)) out).
Proof.
  revert collected s.
  induction batchResults as [|[value|t] rest IH]; intros collected s.
  - simpl. split; [apply R_refl|]. intros _ Hc out [= <-]. exact Hc.
  - cbn [collect]. destruct (IH (collected ++ [value]) s) as [Hr Hout].
    split; [exact Hr|].
    intros Hall Hc out Heq. inversion Hall as [|? ? Hv Hrest]; subst.
    apply Hout; [exact Hrest| |exact Heq].
    apply Forall_app. split; [exact Hc|]. constructor; [|constructor].
    now apply Hv.
  - cbn [collect]. destruct (messageOf t) as [msg|t'].
    + match goal with
      | |- context [collect rest collected ?s'] =>
          destruct (IH collected s') as [Hr Hout]
      end.
      split.
      * eapply R_trans; [apply R_push|exact Hr].
      * intros Hall Hc out Heq. inversion Hall; subst.
        now apply Hout.
    + simpl. split; [apply R_refl|discriminate].
Qed.

Lemma runBatches_keeps ps clientBatches collected s :
  let r := runBatches limits agents input ps clientBatches collected s in
  R s (fst r)
  /\ (Forall (fun v => Forall Q (results v)) collected ->
      forall out, snd r = Return out ->
                  Forall (fun v => Forall Q (results v)) out).
Proof.
  revert collected s.
  induction clientBatches as [|batch rest IH]; intros collected s.
  - simpl. split; [apply R_refl|]. intros Hc out [= <-]. exact Hc.
  - cbn [runBatches].
    destruct (runBatch_keeps ps batch s) as [Hr Hall].
    destruct (runBatch _ _ _ _ batch s) as [s1 batchResults].
    simpl in Hr, Hall.
    destruct (collect_keeps batchResults collected s1) as [Hr2 Hout].
    destruct (collect batchResults collected s1) as [s2 [collected1|t]];
      simpl in Hr2, Hout.
    + destruct (IH collected1 s2) as [Hr3 Hout3]. split.
      * eapply R_trans; [exact Hr|]. eapply R_trans; eassumption.
      * intros Hc out Heq. apply Hout3; [|exact Heq].
        now apply Hout.
    + simpl. split; [eapply R_trans; eassumption|discriminate].
Qed.

Lemma execute_keeps getClients s :
  let r := execute limits agents getClients input s in
  R (clearErrors s) (fst r)
  /\ (forall out, snd r = Return out ->
        Forall (fun v => Forall Q (results v)) (outcomeResults out)).
Proof.
  unfold execute. destruct (getClients (clientIds input)) as [|c rest].
  - simpl. split; [apply R_refl|discriminate].
  - match goal with
    | |- context [runBatches limits agents input ?ps ?batches [] ?s'] =>
        destruct (runBatches_keeps ps batches [] s') as [Hr Hout];
        destruct (runBatches limits agents input ps batches [] s')
          as [s1 [collected|t]]
    end; simpl in *.
    + split; [exact Hr|]. intros out [= <-]. simpl.
      apply Hout; [constructor|reflexivity].
    + split; [exact Hr|discriminate].
Qed.

End RunInvariants.

Section MissingScraper.

Import Js Workflow.
Local Open Scope string_scope.
Local Open Scope list_scope.
Local Open Scope Z_scope.

Variable limits : Limits.
Variable agents : Agents.
Variable input : MonitoringInput.

Hypothesis no_scraper : scraper agents = None.

Lemma not_found_is_final :
  Retry.isRetryableError
    (ThrownError {| message := "Scraper agent not found";
                    code := CodeAbsent |})
  = Return false.
Proof. vm_compute. reflexivity. Qed.

Lemma retry_without_scraper client p s :
  Retry.retry sleep (scrapeOnce agents input client p) (retryOptions input) s
  = (s, Throw (if 1 <=? maxRetries input
               then ThrownError {| message := "Scraper agent not found";
                                   code := CodeAbsent |}
               else ThrownUndefined)).
Proof.
  unfold Retry.retry. cbn [Retry.attempts retryOptions].
  destruct (Z.to_nat (maxRetries input)) as [|fuel] eqn:Hfuel.
  - cbn [Retry.loop Retry.attempts retryOptions].
    replace (1 <=? maxRetries input) with false
      by (symmetry; apply Z.leb_gt; lia).
    now destruct (maxRetries input <? 1).
  - cbn [Retry.loop Retry.attempts Retry.retryCondition retryOptions].
    replace (maxRetries input <? 1) with false
      by (symmetry; apply Z.ltb_ge; lia).
    replace (1 <=? maxRetries input) with true
      by (symmetry; apply Z.leb_le; lia).
    unfold scrapeOnce at 1. rewrite no_scraper.
    now rewrite not_found_is_final.
Qed.

Lemma dispatch_without_scraper client p clientResults s :
  1 <= maxRetries input ->
  dispatch agents input client p clientResults s
  = (pushError
       (failureError client p "Scraper agent not found" (clock s))
       (setBreaker (breakerKey client p)
          (CircuitBreaker.recordFailure CircuitBreaker.workflowOptions
             (clock s) (breakerOf (breakerKey client p) s)) s),
     Return (clientResults ++ [failureResult p "Scraper agent not found"])).
Proof.
  intros Hretries. unfold dispatch. rewrite retry_without_scraper.
  replace (1 <=? maxRetries input) with true
    by (symmetry; apply Z.leb_le; lia).
  reflexivity.
Qed.

Lemma unit_without_scraper client p clientResults s :
  let r := processPlatform limits agents input client p clientResults s in
  (scrapeLog (fst r) = scrapeLog s /\ clock (fst r) = clock s)
  /\ (forall after, snd r = Return after ->
        exists added,
          after = clientResults ++ added
          /\ Forall (fun e => e = failureResult (platform e)
                                    "Scraper agent not found") added).
Proof.
  unfold processPlatform.
  destruct (checkBreaker_facts client p s) as (_ & _ & Hlog & _ & Hclock).
  destruct (checkBreaker client p s) as [s1 isOpen]. simpl in Hlog, Hclock.
  destruct isOpen.
  - simpl. split; [now split|].
    intros after [= <-]. exists []. split; [now rewrite app_nil_r|constructor].
  - pose proof (checkRateLimit_facts limits client p s1)
      as (_ & _ & Hlog2 & _).
    assert (Hclock2 : clock (fst (checkRateLimit limits p s1)) = clock s1).
    { unfold checkRateLimit. now destruct (RateLimiter.tryAcquire _ _ _). }
    destruct (checkRateLimit limits p s1) as [s2 acquired].
    simpl in Hlog2, Hclock2. destruct acquired; cbn [negb].
    + unfold dispatch. rewrite retry_without_scraper.
      destruct (1 <=? maxRetries input); simpl.
      * split; [split; congruence|].
        intros after [= <-]. eexists. split; [reflexivity|].
        constructor; [reflexivity|constructor].
      * split; [split; congruence|discriminate].
    + simpl. split; [split; congruence|].
      intros after [= <-]. exists [].
      split; [now rewrite app_nil_r|constructor].
Qed.

End MissingScraper.

(** X27.  Without a scraper agent nothing is scraped and nothing
    succeeds.  When the agent map has no 'scraper', a run that takes its
    clients one at a time (priority 'low', or a single client) makes no
    scrape call and sleeps no retry delay, and every entry of every
    client's results is the failure 'Scraper agent not found'; with at
    least one attempt allowed, each admitted unit fails at its first
    attempt, which is recorded as a failure of the unit's breaker. *)
Theorem missing_scraper_fails_every_unit :
  forall limits agents getClients input s,
    Workflow.scraper agents = None ->
    Workflow.priority input = Workflow.low
    \/ (length (getClients (Workflow.clientIds input)) <= 1)%nat ->
    let r := Workflow.execute limits agents getClients input s in
    Workflow.scrapeLog (fst r) = Workflow.scrapeLog s
    /\ Workflow.clock (fst r) = Workflow.clock s
    /\ (forall out, snd r = Js.Return out ->
          Forall (fun v =>
                    Forall (fun e =>
                              e = Workflow.failureResult (Workflow.platform e)
                                    "Scraper agent not found")
                           (Workflow.results v))
                 (Workflow.outcomeResults out))
    /\ (1 <= Workflow.maxRetries input ->
        forall client p clientResults s0,
          Workflow.dispatch agents input client p clientResults s0
          = (Workflow.pushError
               (Workflow.failureError client p "Scraper agent not found"
                  (Workflow.clock s0))
               (Workflow.setBreaker (Workflow.breakerKey client p)
                  (CircuitBreaker.recordFailure
                     CircuitBreaker.workflowOptions (Workflow.clock s0)
                     (Workflow.breakerOf (Workflow.breakerKey client p) s0))
                  s0),
             Js.Return
               (clientResults
                ++ [Workflow.failureResult p "Scraper agent not found"]))).
Proof.
  intros limits agents getClients input s Hnone _ r.
  destruct (execute_keeps limits agents input
              (fun s1 s2 =>
                 Workflow.scrapeLog s2 = Workflow.scrapeLog s1
                 /\ Workflow.clock s2 = Workflow.clock s1)
              (fun e => e = Workflow.failureResult (Workflow.platform e)
                              "Scraper agent not found")) with getClients s
    as [[Hlog Hclock] Hout].
  - intros s1. now split.
  - intros s1 s2 s3 [H1 H2] [H3 H4]. split; congruence.
  - intros e s1. now split.
  - intros client p clientResults s1.
    apply (unit_without_scraper limits agents input Hnone).
  - split_and!.
    + exact Hlog.
    + exact Hclock.
    + exact Hout.
    + intros Hretries client p clientResults s0.
      now apply dispatch_without_scraper.
Qed.

Lemma missing_scraper_fails_every_unit_witness :
  Workflow.scrapeLog
    (fst (Workflow.execute Workflow.defaultLimits
            {| Workflow.scraper := None; Workflow.analyzer := None |}
            Scenario.bothClients (Scenario.request 3)
            (Workflow.initial 2000)))
  = [].
Proof.
  refine (proj1 (missing_scraper_fails_every_unit Workflow.defaultLimits
                   {| Workflow.scraper := None; Workflow.analyzer := None |}
                   Scenario.bothClients (Scenario.request 3)
                   (Workflow.initial 2000) _ _)).
  - reflexivity.
  - left. reflexivity.
Defined.

Section ClientSelection.

Import Js Controller.

Lemma filter_keeps_all {A} (P : A -> Prop) `{forall x, Decision (P x)}
  (l : list A) :
  Forall P l -> filter P l = l.
Proof.
  induction 1 as [|x l Hx Hl IH]; [reflexivity|].
  rewrite filter_cons_True by exact Hx. now rewrite IH.
Qed.

Lemma hasAccess_spec requester requested :
  hasAccess requester requested = true
  <-> Forall (fun clientId =>
                clientId ∈ default [] (requester ≫= clientIds)) requested.
Proof.
  unfold hasAccess. rewrite forallb_forall, Forall_forall.
  split; intros Hall x Hx.
  - apply list_elem_of_In in Hx. specialize (Hall x Hx).
    now apply bool_decide_eq_true in Hall.
  - apply bool_decide_eq_true. apply Hall. now apply list_elem_of_In.
Qed.

Lemma getClientsForMonitoring_elem table ids client :
  ids <> [] ->
  client ∈ ClientRepository.getClientsForMonitoring (Some ids) table ->
  Workflow.id client ∈ ids
  /\ exists row, row ∈ table
                 /\ ClientRepository.client row = client
                 /\ ClientRepository.isActive row = true.
Proof.
  intros Hids. unfold ClientRepository.getClientsForMonitoring.
  destruct ids as [|first rest]; [congruence|].
  intros Hin. apply list_elem_of_In, in_map_iff in Hin as (row & <- & Hrow).
  apply list_elem_of_In, list_elem_of_filter in Hrow as [[Hactive Hid] Hrow].
  split; [exact Hid|]. exists row. now split_and!.
Qed.

End ClientSelection.

(** X28.  What a non-admin requester may start.  When someone who is
    not an admin names client ids, the request is refused with
    'Access denied to one or more specified clients' exactly when one of
    the ids is not among the requester's own; otherwise the workflow
    receives the ids as they were requested, and when there is at least
    one, every client it monitors is an active client with a requested
    id that is one of the requester's own. *)
Theorem non_admin_selection_is_authorised :
  forall table requester validatedInput requested,
    Controller.notAdmin requester = true ->
    Workflow.clientIds validatedInput = Some requested ->
    let own := default [] (requester ≫= Controller.clientIds) in
    (Controller.startMonitoring requester validatedInput
     = Js.Throw (Js.ThrownError Controller.forbidden)
     <-> exists clientId, clientId ∈ requested /\ clientId ∉ own)
    /\ (forall input',
          Controller.startMonitoring requester validatedInput
          = Js.Return input' ->
          Workflow.clientIds input' = Some requested
          /\ (requested <> [] ->
              forall client,
                client ∈ Controller.getClients table
                           (Workflow.clientIds input') ->
                Workflow.id client ∈ requested
                /\ Workflow.id client ∈ own
                /\ exists row,
                     row ∈ table
                     /\ ClientRepository.client row = client
                     /\ ClientRepository.isActive row = true)).
Proof.
  intros table requester validatedInput requested Hnot Hrequested own.
  unfold Controller.startMonitoring. rewrite Hrequested, Hnot.
  cbn [andb].
  destruct (Controller.hasAccess requester requested) eqn:Haccess;
    cbn [negb].
  - apply hasAccess_spec in Haccess. fold own in Haccess. split.
    + split; [discriminate|].
      intros (clientId & Hin & Hout). exfalso. apply Hout.
      rewrite Forall_forall in Haccess. now apply Haccess.
    + intros input' [= <-].
      assert (Hids :
        Controller.filterClientIds requester (Some requested)
        = Some requested).
      { unfold Controller.filterClientIds. rewrite Hnot.
        subst own. destruct (requester ≫= Controller.clientIds) as [mine|];
          [|reflexivity].
        simpl in Haccess. now rewrite filter_keeps_all. }
      cbn [Controller.workflowInput Workflow.clientIds].
      rewrite Hrequested, Hids. split; [reflexivity|].
      intros Hne client Hclient.
      assert (Hmon :
        client ∈ ClientRepository.getClientsForMonitoring (Some requested)
                   table).
      { unfold Controller.getClients in Hclient.
        destruct requested; [congruence|exact Hclient]. }
      destruct (getClientsForMonitoring_elem table requested client Hne Hmon)
        as [Hid Hrow].
      split_and!; [exact Hid| |exact Hrow].
      rewrite Forall_forall in Haccess. now apply Haccess.
  - split.
    + split; [|reflexivity]. intros _.
      destruct (decide (Forall (fun clientId => clientId ∈ own) requested))
        as [Hall|Hnall].
      * apply hasAccess_spec in Hall. congruence.
      * apply not_Forall_Exists in Hnall; [|intros x; apply _].
        apply Exists_exists in Hnall as (clientId & Hin & Hout).
        now exists clientId.
    + discriminate.
Qed.

Lemma non_admin_selection_is_authorised_witness :
  Controller.startMonitoring
    (Some {| Controller.role := Controller.user;
             Controller.clientIds := Some [1; 2] |})
    {| Workflow.clientIds := Some [2; 3];
       Workflow.platforms := None;
       Workflow.priority := Workflow.medium;
       Workflow.retryOnFailure := true;
       Workflow.maxRetries := 3;
       Workflow.timeout := 30000 |}
  = Js.Throw (Js.ThrownError Controller.forbidden).
Proof.
  apply (proj1 (non_admin_selection_is_authorised []
                  (Some {| Controller.role := Controller.user;
                           Controller.clientIds := Some [1; 2] |})
                  {| Workflow.clientIds := Some [2; 3];
                     Workflow.platforms := None;
                     Workflow.priority := Workflow.medium;
                     Workflow.retryOnFailure := true;
                     Workflow.maxRetries := 3;
                     Workflow.timeout := 30000 |}
                  [2; 3] eq_refl eq_refl)).
  exists 3. split; apply (bool_decide_unpack _); vm_compute; exact I.
Defined.

(** X29.  An empty selection reaches every active client.  When the
    request names an empty list of client ids, or names none and the
    requester has no client ids of their own, the request is not
    refused, admin or not, and the workflow's [getClients] answers with
    all active clients of the repository. *)
Theorem empty_selection_reaches_every_active_client :
  forall table requester validatedInput,
    Workflow.clientIds validatedInput = Some []
    \/ (Workflow.clientIds validatedInput = None
        /\ default [] (requester ≫= Controller.clientIds) = []) ->
    exists input',
      Controller.startMonitoring requester validatedInput = Js.Return input'
      /\ Controller.getClients table (Workflow.clientIds input')
         = ClientRepository.findActive table.
Proof.
  intros table requester validatedInput Hempty.
  unfold Controller.startMonitoring.
  destruct Hempty as [Hnone|[Habsent Hown]].
  - rewrite Hnone. cbn [Controller.hasAccess forallb negb].
    rewrite andb_false_r. eexists. split; [reflexivity|].
    cbn [Controller.workflowInput Workflow.clientIds]. rewrite Hnone.
    unfold Controller.filterClientIds.
    destruct (Controller.notAdmin requester); [|reflexivity].
    now destruct (requester ≫= Controller.clientIds).
  - rewrite Habsent. eexists. split; [reflexivity|].
    cbn [Controller.workflowInput Workflow.clientIds]. rewrite Habsent.
    unfold Controller.filterClientIds.
    destruct (Controller.notAdmin requester); [|reflexivity].
    destruct (requester ≫= Controller.clientIds) as [mine|]; [|reflexivity].
    simpl in Hown. now subst mine.
Qed.

Lemma empty_selection_reaches_every_active_client_witness :
  exists input',
    Controller.startMonitoring
      (Some {| Controller.role := Controller.readonly;
               Controller.clientIds := Some [7] |})
      {| Workflow.clientIds := Some [];
         Workflow.platforms := None;
         Workflow.priority := Workflow.medium;
         Workflow.retryOnFailure := true;
         Workflow.maxRetries := 3;
         Workflow.timeout := 30000 |}
    = Js.Return input'
    /\ Controller.getClients
         [{| ClientRepository.client := Scenario.acme;
             ClientRepository.isActive := true |};
          {| ClientRepository.client := Scenario.initech;
             ClientRepository.isActive := false |}]
         (Workflow.clientIds input')
       = [Scenario.acme].
Proof.
  apply (empty_selection_reaches_every_active_client
           [{| ClientRepository.client := Scenario.acme;
               ClientRepository.isActive := true |};
            {| ClientRepository.client := Scenario.initech;
               ClientRepository.isActive := false |}]).
  left. reflexivity.
Defined.

(** ** The tasks of a batch *)

Section TaskTurns.

Import Js Workflow Interleaving.

Variable limits : Limits.
Variable agents : Agents.
Variable input : MonitoringInput.


Lemma loopHead_turns client ps clientResults s :
  let r := loopHead limits client ps clientResults s in
  (turnsLeft input (snd r) <= length ps * turnsPerUnit input)%nat
  /\ (callsLeft input (snd r) <= length ps * Z.to_nat (maxRetries input))%nat
  /\ inRange input (snd r)
  /\ scrapeLog (fst r) = scrapeLog s
  /\ taskClient (snd r) = client.
Proof.
  revert clientResults s.
  induction ps as [|p rest IH]; intros clientResults s.
  - simpl. unfold Interleaving.turnsLeft, Interleaving.callsLeft, Interleaving.inRange. simpl. split_and!; auto; lia.
  - cbn [loopHead].
    destruct (checkBreaker_facts client p s) as (_ & _ & Hlog & _).
    destruct (checkBreaker client p s) as [s1 isOpen]. simpl in Hlog.
    destruct isOpen.
    + destruct (IH clientResults
                  (pushError (circuitOpenError client p (clock s1)) s1))
        as (H1 & H2 & H3 & H4 & H5).
      split_and!; auto; simpl length; try lia.
      rewrite H4. exact Hlog.
    + destruct (checkRateLimit_facts limits client p s1) as (_ & _ & Hlog2 & _).
      destruct (checkRateLimit limits p s1) as [s2 acquired]. simpl in Hlog2.
      unfold Interleaving.turnsLeft, Interleaving.callsLeft, Interleaving.inRange, turnsPerUnit. simpl.
      split_and!; auto; try lia. congruence.
Qed.

Lemma startAttempt_turns client p rest clientResults attempt lastError s :
  1 <= attempt ->
  let r := startAttempt agents input client p rest clientResults attempt
             lastError s in
  (turnsLeft input (snd r)
   <= length rest * turnsPerUnit input + (2 * attemptsLeft input attempt + 3))%nat
  /\ (length (scrapeLog (fst r)) + callsLeft input (snd r)
      <= length (scrapeLog s)
         + (length rest * Z.to_nat (maxRetries input)
            + (if (maxRetries input <? attempt)%Z then O
               else S (attemptsLeft input attempt))))%nat
  /\ inRange input (snd r)
  /\ taskClient (snd r) = client
  /\ remaining (snd r) = rest.
Proof.
  intros Hattempt. unfold startAttempt.
  destruct (maxRetries input <? attempt) eqn:Hexit.
  - unfold Interleaving.turnsLeft, Interleaving.callsLeft, Interleaving.inRange. simpl. split_and!; auto; lia.
  - apply Z.ltb_ge in Hexit.
    destruct (scraper agents) as [a|].
    + destruct (a _ _ _ _ _) as [elapsed r].
      unfold Interleaving.turnsLeft, Interleaving.callsLeft, Interleaving.inRange. simpl. rewrite length_app. simpl.
      split_and!; auto; lia.
    + unfold Interleaving.turnsLeft, Interleaving.callsLeft, Interleaving.inRange. simpl. split_and!; auto; lia.
Qed.

Lemma afterCatch_turns client p rest clientResults t s :
  let r := afterCatch limits client p rest clientResults t s in
  (turnsLeft input (snd r) <= length rest * turnsPerUnit input)%nat
  /\ (callsLeft input (snd r) <= length rest * Z.to_nat (maxRetries input))%nat
  /\ inRange input (snd r)
  /\ scrapeLog (fst r) = scrapeLog s
  /\ taskClient (snd r) = client.
Proof.
  unfold afterCatch, catchBlock.
  destruct (messageOf t) as [msg|t'].
  - match goal with
    | |- context [Interleaving.loopHead limits client rest ?cr ?s'] =>
        destruct (loopHead_turns client rest cr s') as (H1 & H2 & H3 & H4 & H5)
    end.
    split_and!; auto.
  - unfold Interleaving.turnsLeft, Interleaving.callsLeft, Interleaving.inRange. simpl. split_and!; auto; lia.
Qed.

(** A turn uses up at least one of the turns that are left, and the
    scraper calls it makes come out of the calls that are left. *)
Lemma step_turns task s :
  inRange input task -> unsettled task = true ->
  let r := step limits agents input task s in
  (turnsLeft input (snd r) < turnsLeft input task)%nat
  /\ (length (scrapeLog (fst r)) + callsLeft input (snd r)
      <= length (scrapeLog s) + callsLeft input task)%nat
  /\ inRange input (snd r)
  /\ taskClient (snd r) = taskClient task.
Proof.
  destruct task as [client rest clientResults ph].
  unfold Interleaving.inRange, unsettled, Interleaving.step. simpl.
  intros Hrange Hun.
  destruct ph as [|p acquired|p attempt wake r|p attempt wake lastError
                  |p t|p result|p result r|r]; try discriminate.
  - destruct (loopHead_turns client rest clientResults s)
      as (H1 & H2 & H3 & H4 & H5).
    unfold Interleaving.turnsLeft at 2, Interleaving.callsLeft at 2. simpl.
    rewrite H4. split_and!; auto; lia.
  - destruct acquired; cbn [negb].
    + destruct (startAttempt_turns client p rest clientResults 1
                  ThrownUndefined s ltac:(lia)) as (H1 & H2 & H3 & H4 & H5).
      unfold Interleaving.turnsLeft at 2, Interleaving.callsLeft at 2. simpl.
      unfold attemptsLeft in *.
      split_and!; auto.
      * destruct (Z.le_gt_cases 1 (maxRetries input)) as [Ha|Ha]; [lia|].
        revert H1. unfold startAttempt.
        replace (maxRetries input <? 1) with true
          by (symmetry; apply Z.ltb_lt; lia).
        unfold Interleaving.turnsLeft. simpl. lia.
      * destruct (maxRetries input <? 1) eqn:Hexit;
          [apply Z.ltb_lt in Hexit|apply Z.ltb_ge in Hexit]; lia.
    + match goal with
      | |- context [Interleaving.loopHead limits client rest ?cr ?s'] =>
          destruct (loopHead_turns client rest cr s')
            as (H1 & H2 & H3 & H4 & H5)
      end.
      unfold Interleaving.turnsLeft at 2, Interleaving.callsLeft at 2. simpl.
      rewrite H4. simpl. split_and!; auto; lia.
  - unfold Interleaving.turnsLeft at 2, Interleaving.callsLeft at 2. simpl.
    destruct r as [result|t].
    + unfold Interleaving.turnsLeft, Interleaving.callsLeft,
        Interleaving.inRange. simpl. split_and!; auto; lia.
    + unfold afterFailure.
      destruct (Retry.isRetryableError t) as [[|]|t'];
        [destruct (attempt =? maxRetries input) eqn:Hlast;
         destruct (messageOf t)|..];
        unfold Interleaving.turnsLeft, Interleaving.callsLeft,
          Interleaving.inRange, attemptsLeft; simpl;
        try (split_and!; auto; lia).
  - destruct (startAttempt_turns client p rest clientResults attempt
                lastError (resume wake s) ltac:(lia))
      as (H1 & H2 & H3 & H4 & H5).
    unfold Interleaving.turnsLeft at 2, Interleaving.callsLeft at 2. simpl.
    replace (maxRetries input <? attempt) with false in H2
      by (symmetry; apply Z.ltb_ge; lia).
    simpl in H2. split_and!; auto; lia.
  - destruct (afterCatch_turns client p rest clientResults t s)
      as (H1 & H2 & H3 & H4 & H5).
    unfold Interleaving.turnsLeft at 2, Interleaving.callsLeft at 2. simpl.
    rewrite H4. split_and!; auto; lia.
  - destruct (analyzer agents) as [a|].
    + unfold Interleaving.turnsLeft, Interleaving.callsLeft,
        Interleaving.inRange. simpl. split_and!; auto; lia.
    + match goal with
      | |- context [Interleaving.loopHead limits client rest ?cr ?s'] =>
          destruct (loopHead_turns client rest cr s')
            as (H1 & H2 & H3 & H4 & H5)
      end.
      unfold Interleaving.turnsLeft at 2, Interleaving.callsLeft at 2. simpl.
      rewrite H4. simpl. split_and!; auto; lia.
  - destruct r as [analysis|t].
    + match goal with
      | |- context [Interleaving.loopHead limits client rest ?cr ?s'] =>
          destruct (loopHead_turns client rest cr s')
            as (H1 & H2 & H3 & H4 & H5)
      end.
      unfold Interleaving.turnsLeft at 2, Interleaving.callsLeft at 2. simpl.
      rewrite H4. split_and!; auto; lia.
    + destruct (afterCatch_turns client p rest clientResults t s)
        as (H1 & H2 & H3 & H4 & H5).
      unfold Interleaving.turnsLeft at 2, Interleaving.callsLeft at 2. simpl.
      rewrite H4. split_and!; auto; lia.
Qed.

Lemma stepNth_spec k tasks s :
  (k < length (filter (fun task => unsettled task = true) tasks))%nat ->
  exists before task after,
    tasks = before ++ task :: after
    /\ unsettled task = true
    /\ stepNth limits agents input k tasks s
       = (fst (step limits agents input task s),
          before ++ snd (step limits agents input task s) :: after).
Proof.
  revert k. induction tasks as [|task rest IH]; intros k Hk.
  - simpl in Hk. lia.
  - cbn [stepNth]. destruct (unsettled task) eqn:Hun.
    + rewrite filter_cons_True in Hk by exact Hun. simpl in Hk.
      destruct k as [|k].
      * exists [], task, rest. split_and!; auto.
        now destruct (step limits agents input task s).
      * destruct (IH k ltac:(lia)) as (before & t & after & -> & Ht & ->).
        exists (task :: before), t, after. split_and!; auto.
    + rewrite filter_cons_False in Hk by (rewrite Hun; discriminate).
      destruct (IH k Hk) as (before & t & after & -> & Ht & ->).
      exists (task :: before), t, after. split_and!; auto.
Qed.

Lemma settled_turns task : turnsLeft input task = O -> unsettled task = false.
Proof.
  unfold Interleaving.turnsLeft, unsettled.
  destruct (phase task); try reflexivity; lia.
Qed.

Lemma turns_sum_settled tasks :
  sum_list_with (turnsLeft input) tasks = O ->
  Forall (fun task => unsettled task = false) tasks.
Proof.
  induction tasks as [|task rest IH]; simpl; intros Hsum; constructor.
  - apply settled_turns. lia.
  - apply IH. lia.
Qed.

Lemma filter_nil_settled tasks :
  length (filter (fun task => unsettled task = true) tasks) = O ->
  Forall (fun task => unsettled task = false) tasks.
Proof.
  induction tasks as [|task rest IH]; intros Hlen; constructor.
  - destruct (unsettled task) eqn:Hun; [|reflexivity].
    rewrite filter_cons_True in Hlen by exact Hun. discriminate.
  - apply IH. destruct (unsettled task) eqn:Hun.
    + rewrite filter_cons_True in Hlen by exact Hun. discriminate.
    + rewrite filter_cons_False in Hlen by (rewrite Hun; discriminate).
      exact Hlen.
Qed.

(** With turns enough for all of them, the tasks all settle, whatever
    the schedule, and the scraper calls stay within the calls left. *)
Lemma run_settles fuel : forall schedule tasks s,
  Forall (inRange input) tasks ->
  (sum_list_with (turnsLeft input) tasks <= fuel)%nat ->
  let r := run limits agents input fuel schedule tasks s in
  Forall (fun task => unsettled task = false) (snd r)
  /\ (length (scrapeLog (fst r)) + sum_list_with (callsLeft input) (snd r)
      <= length (scrapeLog s) + sum_list_with (callsLeft input) tasks)%nat
  /\ map taskClient (snd r) = map taskClient tasks.
Proof.
  induction fuel as [|fuel IH]; intros schedule tasks s Hrange Hfuel.
  - simpl. split_and!; auto. apply turns_sum_settled. lia.
  - cbn [run].
    destruct (length (filter (fun task => unsettled task = true) tasks))
      as [|n] eqn:Hcount.
    + simpl. split_and!; auto. now apply filter_nil_settled.
    + destruct (stepNth_spec (hd O schedule mod S n) tasks s)
        as (before & task & after & -> & Hun & ->).
      { rewrite Hcount. apply Nat.mod_upper_bound. lia. }
      apply Forall_app in Hrange as [Hb Hrange].
      apply Forall_cons in Hrange as [Ht Ha].
      destruct (step_turns task s Ht Hun) as (H1 & H2 & H3 & H4).
      destruct (step limits agents input task s) as [s1 task1].
      simpl in H1, H2, H3, H4. cbn [fst snd]. cbv beta iota zeta.
      destruct (IH (tl schedule) (before ++ task1 :: after) s1)
        as (Hsettled & Hcalls & Hclients).
      { apply Forall_app. split; [exact Hb|]. now constructor. }
      { rewrite sum_list_with_app in *. simpl in *. lia. }
      split_and!.
      * exact Hsettled.
      * rewrite !sum_list_with_app in *. simpl in *. lia.
      * rewrite Hclients, !map_app. simpl. now rewrite H4.
Qed.

End TaskTurns.

Section TaskAlone.

Import Js Workflow Interleaving.

Variable limits : Limits.
Variable agents : Agents.
Variable input : MonitoringInput.

Hypothesis punctual :
  forall scraperAgent p client t now n,
    scraper agents = Some scraperAgent ->
    0 <= fst (scraperAgent p client t now n).

Lemma sleep_0 s : sleep 0 s = s.
Proof. destruct s. unfold sleep. simpl. f_equal. lia. Qed.

Lemma resume_after d s : 0 <= d -> resume (clock s + d) s = sleep d s.
Proof.
  intros Hd. unfold resume. f_equal. lia.
Qed.

Lemma alone_add k : forall m task s,
  alone limits agents input (k + m) task s
  = alone limits agents input m
      (snd (alone limits agents input k task s))
      (fst (alone limits agents input k task s)).
Proof.
  induction k as [|k IH]; intros m task s; [reflexivity|].
  cbn [Nat.add alone]. destruct (unsettled task) eqn:Hun.
  - destruct (step limits agents input task s) as [s1 task1]. apply IH.
  - simpl. destruct m; simpl; [reflexivity|]. now rewrite Hun.
Qed.

Lemma alone_settled fuel task s :
  unsettled task = false -> alone limits agents input fuel task s = (s, task).
Proof. intros Hun. destruct fuel; simpl; [reflexivity|]. now rewrite Hun. Qed.

Lemma alone_more f : forall f' task s,
  unsettled (snd (alone limits agents input f task s)) = false ->
  (f <= f')%nat ->
  alone limits agents input f' task s = alone limits agents input f task s.
Proof.
  intros f' task s Hun Hle.
  replace f' with (f + (f' - f))%nat by lia.
  rewrite alone_add. rewrite alone_settled by exact Hun.
  now destruct (alone limits agents input f task s).
Qed.

Lemma alone_settles f : forall task s,
  inRange input task -> (turnsLeft input task <= f)%nat ->
  unsettled (snd (alone limits agents input f task s)) = false.
Proof.
  induction f as [|f IH]; intros task s Hrange Hturns.
  - simpl. apply (settled_turns input). lia.
  - cbn [alone]. destruct (unsettled task) eqn:Hun; [|exact Hun].
    destruct (step_turns limits agents input task s Hrange Hun)
      as (H1 & _ & H3 & _).
    destruct (step limits agents input task s) as [s1 task1].
    simpl in *. apply IH; [exact H3|lia].
Qed.

(** The attempts of [retry], turn by turn. *)
Lemma attempts_alone client p rest clientResults f :
  forall attempt lastError s,
    1 <= attempt ->
    maxRetries input - attempt + 1 <= Z.of_nat f ->
    exists k,
      alone limits agents input k
        (snd (startAttempt agents input client p rest clientResults attempt
                lastError s))
        (fst (startAttempt agents input client p rest clientResults attempt
                lastError s))
      = (fst (Retry.loop sleep (scrapeOnce agents input client p)
                (retryOptions input) f attempt lastError s),
         waiting client rest clientResults
           match snd (Retry.loop sleep (scrapeOnce agents input client p)
                        (retryOptions input) f attempt lastError s) with
           | Return result => Fulfilled p result
           | Throw t => Rejected p t
           end).
Proof.
  induction f as [|f IH]; intros attempt lastError s Hattempt Hfuel.
  - exists O. unfold startAttempt. cbn [Retry.loop Retry.attempts retryOptions].
    replace (maxRetries input <? attempt) with true
      by (symmetry; apply Z.ltb_lt; lia).
    reflexivity.
  - unfold startAttempt.
    cbn [Retry.loop Retry.attempts Retry.retryCondition Retry.onRetry
         retryOptions].
    destruct (maxRetries input <? attempt) eqn:Hexit; [now exists O|].
    apply Z.ltb_ge in Hexit.
    assert (Hcall : exists s0 wake r,
      match scraper agents with
      | Some scraperAgent =>
          let '(elapsed, r) :=
            scraperAgent p client (timeout input) (clock s)
              (length (scrapeLog s)) in
          (logScrape client p s,
           waiting client rest clientResults
             (Scraping p attempt (clock s + elapsed) r))
      | None =>
          (s, waiting client rest clientResults
                (Scraping p attempt (clock s)
                   (Throw (ThrownError
                             {| message := "Scraper agent not found";
                                code := CodeAbsent |}))))
      end = (s0, waiting client rest clientResults
                   (Scraping p attempt wake r))
      /\ scrapeOnce agents input client p s = (resume wake s0, r)).
    { unfold scrapeOnce. destruct (scraper agents) as [a|] eqn:Ha.
      - pose proof (punctual a p client (timeout input) (clock s)
                      (length (scrapeLog s)) eq_refl) as Hp.
        destruct (a _ _ _ _ _) as [elapsed r]. simpl in Hp.
        eexists _, _, _. split; [reflexivity|].
        change (clock s) with (clock (logScrape client p s)) at 1.
        now rewrite resume_after.
      - eexists _, _, _. split; [reflexivity|].
        unfold resume. rewrite Z.sub_diag. simpl. now rewrite sleep_0. }
    destruct Hcall as (s0 & wake & r & -> & ->). cbn [fst snd].
    destruct r as [result|t].
    + exists 1%nat. reflexivity.
    + destruct (Retry.isRetryableError t) as [[|]|t'] eqn:Hcond.
      * destruct (attempt =? maxRetries input) eqn:Hlast.
        -- exists 1%nat. cbn [alone unsettled phase waiting step taskClient
                                 remaining taskResults].
           unfold afterFailure. rewrite Hcond, Hlast.
           now destruct (messageOf t).
        -- destruct (messageOf t) as [msg|t'] eqn:Hmsg.
           ++ apply Z.eqb_neq in Hlast.
              destruct (IH (attempt + 1) t
                          (sleep (Retry.delayFor (retryOptions input) attempt)
                             (resume wake s0)) ltac:(lia) ltac:(lia))
                as [k Hk].
              exists (2 + k)%nat.
              cbn [Nat.add alone unsettled phase waiting step taskClient
                   remaining taskResults].
              unfold afterFailure. rewrite Hcond, Hmsg.
              replace (attempt =? maxRetries input) with false
                by (symmetry; apply Z.eqb_neq; lia).
              cbn [unsettled phase waiting step taskClient remaining
                   taskResults].
              replace (resume
                         (clock (resume wake s0)
                          + Retry.delayFor (retryOptions input) attempt)
                         (resume wake s0))
                with (sleep (Retry.delayFor (retryOptions input) attempt)
                        (resume wake s0)).
              { revert Hk.
                destruct (startAttempt _ _ _ _ _ _ _ _ _) as [s1 task1].
                cbn [fst snd]. intros Hk. exact Hk. }
              symmetry. apply resume_after.
              unfold Retry.delayFor, Retry.maxDelayOr. simpl.
              apply Z.min_glb; [|lia].
              apply Z.mul_nonneg_nonneg; [lia|]. apply Z.pow_nonneg. lia.
           ++ exists 1%nat.
              cbn [alone unsettled phase waiting step taskClient remaining
                   taskResults].
              unfold afterFailure. rewrite Hcond, Hlast, Hmsg. reflexivity.
      * exists 1%nat.
        cbn [alone unsettled phase waiting step taskClient remaining
             taskResults].
        unfold afterFailure. now rewrite Hcond.
      * exists 1%nat.
        cbn [alone unsettled phase waiting step taskClient remaining
             taskResults].
        unfold afterFailure. now rewrite Hcond.
Qed.

Lemma alone_step f task s :
  unsettled task = true ->
  alone limits agents input (S f) task s
  = alone limits agents input f
      (snd (step limits agents input task s))
      (fst (step limits agents input task s)).
Proof.
  intros Hun. cbn [alone]. rewrite Hun.
  now destruct (step limits agents input task s).
Qed.

Lemma alone_chain k f task s s1 task1 X :
  alone limits agents input k task s = (s1, task1) ->
  alone limits agents input f task1 s1 = X ->
  alone limits agents input (k + f) task s = X.
Proof. intros Hk Hf. now rewrite alone_add, Hk. Qed.

Ltac turn :=
  cbn [Nat.add]; rewrite alone_step by reflexivity; unfold step;
  cbn [phase waiting negb taskClient remaining taskResults].

(** A task that runs alone does what the loop over the platforms
    does. *)
Lemma loopHead_alone client ps :
  forall clientResults s,
    let r := processPlatforms limits agents input client ps clientResults s in
    exists f task',
      alone limits agents input f
        (snd (loopHead limits client ps clientResults s))
        (fst (loopHead limits client ps clientResults s))
      = (fst r, task')
      /\ phase task'
         = Settled
             match snd r with
             | Return clientResults1 =>
                 Return {| clientId := id client;
                           clientName := name client;
                           results := clientResults1;
                           timestamp := clock (fst r) |}
             | Throw t => Throw t
             end.
Proof.
  induction ps as [|p rest IH]; intros clientResults s.
  - exists O. eexists. split; reflexivity.
  - cbn [processPlatforms loopHead]. unfold processPlatform.
    destruct (checkBreaker client p s) as [s1 isOpen].
    destruct isOpen; [apply IH|].
    destruct (checkRateLimit limits p s1) as [s2 acquired].
    cbn [fst snd].
    assert (Hrest : forall clientResults1 s4,
      let r := processPlatforms limits agents input client rest
                 clientResults1 s4 in
      exists f task',
        alone limits agents input f
          (snd (loopHead limits client rest clientResults1 s4))
          (fst (loopHead limits client rest clientResults1 s4))
        = (fst r, task')
        /\ phase task'
           = Settled
               match snd r with
               | Return clientResults2 =>
                   Return {| clientId := id client;
                             clientName := name client;
                             results := clientResults2;
                             timestamp := clock (fst r) |}
               | Throw t => Throw t
               end) by exact IH.
    assert (Hcatch : forall t s4,
      let r :=
        match catchBlock client p clientResults t s4 with
        | (s5, Return clientResults1) =>
            processPlatforms limits agents input client rest clientResults1 s5
        | (s5, Throw t') => (s5, Throw t')
        end in
      exists f task',
        alone limits agents input f
          (snd (afterCatch limits client p rest clientResults t s4))
          (fst (afterCatch limits client p rest clientResults t s4))
        = (fst r, task')
        /\ phase task'
           = Settled
               match snd r with
               | Return clientResults2 =>
                   Return {| clientId := id client;
                             clientName := name client;
                             results := clientResults2;
                             timestamp := clock (fst r) |}
               | Throw t => Throw t
               end).
    { intros t s4. unfold afterCatch.
      destruct (catchBlock client p clientResults t s4) as [s5 [cr5|t']].
      - apply Hrest.
      - exists O. eexists. split; reflexivity. }
    destruct acquired; cbn [negb].
    + unfold dispatch.
      destruct (attempts_alone client p rest clientResults
                  (Z.to_nat (maxRetries input)) 1 ThrownUndefined s2
                  ltac:(lia) ltac:(lia)) as [k Hk].
      change (Retry.loop sleep (scrapeOnce agents input client p)
                (retryOptions input) (Z.to_nat (maxRetries input)) 1
                ThrownUndefined s2)
        with (Retry.retry sleep (scrapeOnce agents input client p)
                (retryOptions input) s2) in Hk.
      destruct (Retry.retry sleep (scrapeOnce agents input client p)
                  (retryOptions input) s2) as [s3 [result|t]];
        cbn [fst snd] in Hk.
      * unfold afterScrape.
        destruct (analyzer agents) as [a|] eqn:Ha.
        -- destruct (a result client p) as [analysis|t] eqn:Hr.
           ++ match goal with
              | |- context [processPlatforms limits agents input client rest
                              ?cr ?s'] =>
                  destruct (Hrest cr s') as (f & task' & Hf & Hphase)
              end.
              exists (1 + (k + (1 + (1 + f))))%nat, task'.
              split; [|exact Hphase].
              turn.
              eapply alone_chain; [exact Hk|].
              turn. rewrite Ha. turn. rewrite Hr. exact Hf.
           ++ match goal with
              | |- context [catchBlock client p clientResults t ?s'] =>
                  destruct (Hcatch t s') as (f & task' & Hf & Hphase)
              end.
              exists (1 + (k + (1 + (1 + f))))%nat, task'.
              split; [|exact Hphase].
              turn.
              eapply alone_chain; [exact Hk|].
              turn. rewrite Ha. turn. rewrite Hr. exact Hf.
        -- match goal with
           | |- context [processPlatforms limits agents input client rest
                           ?cr ?s'] =>
               destruct (Hrest cr s') as (f & task' & Hf & Hphase)
           end.
           exists (1 + (k + (1 + f)))%nat, task'.
           split; [|exact Hphase].
           turn. eapply alone_chain; [exact Hk|].
           turn. rewrite Ha. exact Hf.
      * destruct (Hcatch t s3) as (f & task' & Hf & Hphase).
        exists (1 + (k + (1 + f)))%nat, task'.
        split; [|exact Hphase].
        turn. eapply alone_chain; [exact Hk|].
        turn. exact Hf.
    + match goal with
      | |- context [processPlatforms limits agents input client rest
                      ?cr ?s'] =>
          destruct (Hrest cr s') as (f & task' & Hf & Hphase)
      end.
      exists (1 + f)%nat, task'. split; [|exact Hphase].
      turn. exact Hf.
Qed.

End TaskAlone.

Section TaskOutcomes.

Import Js Workflow Interleaving.

Variable limits : Limits.
Variable agents : Agents.
Variable input : MonitoringInput.

Lemma loopHead_outcome client ps clientResults s :
  let task := snd (loopHead limits client ps clientResults s) in
  settlesWell task /\ onTrack task.
Proof.
  revert clientResults s.
  induction ps as [|p rest IH]; intros clientResults s.
  - simpl. unfold settlesWell, onTrack. simpl. split; [split|]; eauto.
    now intros value [= <-].
  - cbn [loopHead].
    destruct (checkBreaker client p s) as [s1 isOpen].
    destruct isOpen; [apply IH|].
    destruct (checkRateLimit limits p s1) as [s2 acquired].
    split; exact I.
Qed.

Lemma afterCatch_outcome client p rest clientResults t s :
  let task := snd (afterCatch limits client p rest clientResults t s) in
  settlesWell task /\ ((exists e, t = ThrownError e) -> onTrack task).
Proof.
  unfold afterCatch, catchBlock. destruct t as [e|]; simpl.
  - match goal with
    | |- context [loopHead limits client rest ?cr ?s'] =>
        destruct (loopHead_outcome client rest cr s') as [H1 H2]
    end.
    split; auto.
  - unfold settlesWell, onTrack. simpl. split.
    + split; [eauto|discriminate].
    + intros [e He]. discriminate.
Qed.

(** A turn keeps a task in order. *)
Lemma step_outcome task s :
  let task1 := snd (step limits agents input task s) in
  settlesWell task -> settlesWell task1.
Proof.
  destruct task as [client rest clientResults ph].
  unfold step. cbn [phase taskClient remaining taskResults].
  intros Hwell.
  destruct ph as [|p acquired|p attempt wake r|p attempt wake lastError
                  |p t|p result|p result r|r].
  - apply loopHead_outcome.
  - destruct acquired; cbn [negb]; [|apply loopHead_outcome].
    unfold startAttempt. destruct (_ <? _); [exact I|].
    destruct (scraper agents) as [a|]; [|exact I].
    now destruct (a _ _ _ _ _).
  - destruct r as [result|t]; [exact I|].
    unfold afterFailure, settlesWell. simpl.
    destruct (Retry.isRetryableError t) as [[|]|t']; try exact I.
    destruct (_ =? _); destruct (messageOf t); exact I.
  - unfold startAttempt. destruct (_ <? _); [exact I|].
    destruct (scraper agents) as [a|]; [|exact I].
    now destruct (a _ _ _ _ _).
  - apply afterCatch_outcome.
  - destruct (analyzer agents) as [a|]; [exact I|apply loopHead_outcome].
  - destruct r as [analysis|t];
      [apply loopHead_outcome|apply afterCatch_outcome].
  - exact Hwell.
Qed.

Lemma step_onTrack task s :
  wellBehaved agents -> 1 <= maxRetries input ->
  let task1 := snd (step limits agents input task s) in
  inRange input task -> onTrack task -> onTrack task1.
Proof.
  intros [Hscraper Hanalyzer] Hretries.
  destruct task as [client rest clientResults ph].
  unfold step, inRange. cbn [phase taskClient remaining taskResults].
  intros Hrange Htrack.
  destruct ph as [|p acquired|p attempt wake r|p attempt wake lastError
                  |p t|p result|p result r|r].
  - apply loopHead_outcome.
  - destruct acquired; cbn [negb]; [|apply loopHead_outcome].
    unfold startAttempt.
    replace (maxRetries input <? 1) with false
      by (symmetry; apply Z.ltb_ge; lia).
    destruct (scraper agents) as [a|] eqn:Ha.
    + pose proof (Hscraper a p client (timeout input) (clock s)
                    (length (scrapeLog s)) eq_refl) as Hgood.
      destruct (a _ _ _ _ _). exact Hgood.
    + unfold onTrack, throwsErrors. simpl. discriminate.
  - destruct r as [result|t]; [exact I|].
    unfold onTrack, throwsErrors in Htrack. simpl in Htrack.
    destruct t as [e|]; [|congruence].
    unfold afterFailure, onTrack. simpl.
    destruct (Retry.isRetryableErrorObject e) as [[|]|t'] eqn:Hcond.
    + destruct (_ =? _); simpl; eauto.
    + simpl. eauto.
    + simpl. apply (isRetryableError_throws (ThrownError e)). exact Hcond.
  - unfold startAttempt.
    replace (maxRetries input <? attempt) with false
      by (symmetry; apply Z.ltb_ge; simpl in Hrange; lia).
    destruct (scraper agents) as [a|] eqn:Ha.
    + pose proof (Hscraper a p client (timeout input) (clock (resume wake s))
                    (length (scrapeLog (resume wake s))) eq_refl) as Hgood.
      destruct (a _ _ _ _ _). exact Hgood.
    + unfold onTrack, throwsErrors. simpl. discriminate.
  - apply afterCatch_outcome. exact Htrack.
  - destruct (analyzer agents) as [a|] eqn:Ha; [|apply loopHead_outcome].
    exact (Hanalyzer a result client p eq_refl).
  - destruct r as [analysis|t]; [apply loopHead_outcome|].
    apply afterCatch_outcome.
    unfold onTrack, throwsErrors in Htrack. simpl in Htrack.
    destruct t as [e|]; [eauto|congruence].
  - exact Htrack.
Qed.

End TaskOutcomes.

Section BatchTurns.

Import Js Workflow Interleaving.

Variable limits : Limits.
Variable agents : Agents.
Variable input : MonitoringInput.

(** What every turn keeps, the schedule keeps. *)
Lemma run_preserves (P : Task -> Prop) :
  (forall task s, P task -> unsettled task = true ->
     P (snd (step limits agents input task s))) ->
  forall fuel schedule tasks s,
    Forall P tasks ->
    Forall P (snd (run limits agents input fuel schedule tasks s)).
Proof.
  intros Hstep.
  induction fuel as [|fuel IH]; intros schedule tasks s Hall; [exact Hall|].
  cbn [run].
  destruct (length (filter (fun task => unsettled task = true) tasks))
    as [|n] eqn:Hcount; [exact Hall|].
  destruct (stepNth_spec limits agents input (hd O schedule mod S n) tasks s)
    as (before & task & after & -> & Hun & ->).
  { rewrite Hcount. apply Nat.mod_upper_bound. lia. }
  apply Forall_app in Hall as [Hb Hall].
  apply Forall_cons in Hall as [Ht Ha].
  apply IH. apply Forall_app. split; [exact Hb|].
  constructor; [|exact Ha]. now apply Hstep.
Qed.

Lemma run_single fuel : forall schedule task s,
  run limits agents input fuel schedule [task] s
  = (fst (alone limits agents input fuel task s),
     [snd (alone limits agents input fuel task s)]).
Proof.
  induction fuel as [|fuel IH]; intros schedule task s; [reflexivity|].
  cbn [run alone]. destruct (unsettled task) eqn:Hun.
  - rewrite filter_cons_True by exact Hun. cbn [length filter].
    rewrite Nat.mod_1_r. cbn [stepNth]. rewrite Hun.
    destruct (step limits agents input task s) as [s1 task1]. apply IH.
  - rewrite filter_cons_False by (rewrite Hun; discriminate). reflexivity.
Qed.

Lemma starting_sums ps (batch : list Client) :
  sum_list_with (turnsLeft input)
    (map (fun client => waiting client ps [] Starting) batch)
  = turns input ps batch
  /\ sum_list_with (callsLeft input)
       (map (fun client => waiting client ps [] Starting) batch)
     = (length batch * (length ps * Z.to_nat (maxRetries input)))%nat.
Proof.
  unfold turns. induction batch as [|client rest [IH1 IH2]]; [split; reflexivity|].
  cbn [map sum_list_with length]. rewrite IH1, IH2.
  unfold turnsLeft, callsLeft. simpl. split; lia.
Qed.

End BatchTurns.

(** X30.  The tasks of a batch, whatever turns they take at their
    [await]s.  Every task settles and [Promise.allSettled] reports them
    in the order of the batch, each fulfilled with a result for its own
    client or rejected with an error object; the scraper is called at
    most clients times platforms times [maxRetries] times; with agents
    that throw error objects and at least one attempt allowed every
    task is fulfilled; and a batch of one client, with a scraper whose
    calls take no negative time, gives under every schedule what the
    loop over the platforms gives. *)
Theorem batch_settles_under_every_schedule :
  forall limits agents input schedule ps batch s,
    let r := Interleaving.runBatch limits agents input schedule ps batch s in
    Forall2 (fun client settled =>
               Workflow.settledProperly settled
               /\ forall value, settled = Js.Return value ->
                                Workflow.clientId value = Workflow.id client)
            batch (snd r)
    /\ (length (Workflow.scrapeLog (fst r))
        <= length (Workflow.scrapeLog s)
           + length batch
             * (length ps * Z.to_nat (Workflow.maxRetries input)))%nat
    /\ (Workflow.wellBehaved agents -> 1 <= Workflow.maxRetries input ->
        Forall (fun settled => exists value, settled = Js.Return value)
               (snd r))
    /\ ((forall scraperAgent p client t now n,
           Workflow.scraper agents = Some scraperAgent ->
           0 <= fst (scraperAgent p client t now n)) ->
        forall client,
          batch = [client] ->
          r = Workflow.runBatch limits agents input ps [client] s).
Proof.
  intros limits agents input schedule ps batch s r. subst r.
  unfold Interleaving.runBatch.
  set (tasks := map (fun client =>
                       Interleaving.waiting client ps [] Interleaving.Starting)
                    batch).
  destruct (starting_sums input ps batch) as [Hturns Hcalls].
  fold tasks in Hturns, Hcalls.
  assert (Hrange : Forall (Interleaving.inRange input) tasks).
  { subst tasks. apply Forall_forall. intros task Hin.
    apply list_elem_of_In, in_map_iff in Hin as (client & <- & _). exact I. }
  destruct (run_settles limits agents input
              (Interleaving.turns input ps batch) schedule tasks s Hrange)
    as (Hsettled & Hlog & Hclients).
  { rewrite Hturns. lia. }
  assert (Hwell : Forall Interleaving.settlesWell
                    (snd (Interleaving.run limits agents input
                            (Interleaving.turns input ps batch) schedule
                            tasks s))).
  { apply run_preserves.
    - intros task s' Hw _. now apply step_outcome.
    - subst tasks. apply Forall_forall. intros task Hin.
      apply list_elem_of_In, in_map_iff in Hin as (client & <- & _). exact I. }
  assert (Htrack : Workflow.wellBehaved agents ->
                   1 <= Workflow.maxRetries input ->
                   Forall (fun task => Interleaving.inRange input task
                                       /\ Interleaving.onTrack task)
                     (snd (Interleaving.run limits agents input
                             (Interleaving.turns input ps batch) schedule
                             tasks s))).
  { intros Hgood Hretries. apply run_preserves.
    - intros task s' [Hr Ht] Hun. split.
      + now destruct (step_turns limits agents input task s' Hr Hun)
          as (_ & _ & H & _).
      + now apply step_onTrack.
    - subst tasks. apply Forall_forall. intros task Hin.
      apply list_elem_of_In, in_map_iff in Hin as (client & <- & _).
      split; exact I. }
  destruct (Interleaving.run limits agents input
              (Interleaving.turns input ps batch) schedule tasks s)
    as [s1 tasks1] eqn:Hrun.
  cbn [fst snd] in *.
  split_and!.
  - assert (Hbatch : map Interleaving.taskClient tasks1 = batch).
    { rewrite Hclients. subst tasks. rewrite map_map. simpl. apply map_id. }
    clear - Hbatch Hsettled Hwell. revert batch Hbatch.
    induction tasks1 as [|task rest IH]; intros batch Hbatch.
    + subst batch. constructor.
    + destruct batch as [|client batch]; [discriminate|].
      injection Hbatch as Hclient Hbatch.
      inversion Hsettled as [|? ? Hs Hss]; subst.
      inversion Hwell as [|? ? Hw Hws]; subst.
      cbn [map]. constructor; [|now apply IH].
      unfold Interleaving.outcomeOf, Interleaving.settlesWell,
        Interleaving.unsettled in *.
      destruct (Interleaving.phase task); try discriminate. exact Hw.
  - rewrite Hcalls in Hlog. lia.
  - intros Hgood Hretries. specialize (Htrack Hgood Hretries).
    clear - Htrack Hsettled.
    induction tasks1 as [|task rest IH]; [constructor|].
    inversion Hsettled as [|? ? Hs Hss]; subst.
    inversion Htrack as [|? ? [_ Ht] Hts]; subst.
    cbn [map]. constructor; [|now apply IH].
    unfold Interleaving.outcomeOf, Interleaving.onTrack,
      Interleaving.unsettled in *.
    destruct (Interleaving.phase task); try discriminate. exact Ht.
  - intros Hpunctual client ->. subst tasks. cbn [map] in Hrun.
    rewrite run_single in Hrun. injection Hrun as <- <-.
    cbn [map Workflow.runBatch]. unfold Workflow.processClient.
    destruct (loopHead_alone limits agents input Hpunctual client ps [] s)
      as (f & task' & Hf & Hphase).
    set (fuel := Interleaving.turns input ps [client]) in *.
    assert (Hfinal :
      Interleaving.alone limits agents input fuel
        (Interleaving.waiting client ps [] Interleaving.Starting) s
      = (fst (Workflow.processPlatforms limits agents input client ps [] s),
         task')).
    { assert (Hone :
        Interleaving.alone limits agents input (S f)
          (Interleaving.waiting client ps [] Interleaving.Starting) s
        = (fst (Workflow.processPlatforms limits agents input client ps [] s),
           task')).
      { rewrite alone_step by reflexivity. exact Hf. }
      assert (Hdone : Interleaving.unsettled task' = false).
      { unfold Interleaving.unsettled. now rewrite Hphase. }
      destruct (Nat.le_gt_cases (S f) fuel) as [Hle|Hgt].
      - rewrite (alone_more limits agents input (S f) fuel); [exact Hone| |exact Hle].
        now rewrite Hone.
      - rewrite <- Hone. symmetry.
        apply (alone_more limits agents input fuel (S f)); [|lia].
        apply alone_settles; [exact I|].
        subst fuel. unfold Interleaving.turns, Interleaving.turnsLeft.
        simpl. lia. }
    rewrite Hfinal. cbn [fst snd]. unfold Interleaving.outcomeOf.
    rewrite Hphase.
    destruct (Workflow.processPlatforms limits agents input client ps [] s)
      as [s2 [cr|t]]; reflexivity.
Qed.

(** Two clients that take turns one after the other call the scraper in
    the order Acme, Initech, Acme, Initech and are done 20 ms after the
    start, the scrapes of a platform running side by side; with the
    first client taking all its turns first the calls come client by
    client and take 40 ms. *)
Lemma turns_interleave_the_calls :
  let batchRun schedule :=
    Interleaving.runBatch Workflow.defaultLimits Scenario.scrapeOnly
      (Scenario.request 1) schedule [Workflow.chatgpt; Workflow.perplexity]
      [Scenario.acme; Scenario.initech] (Workflow.initial 2000) in
  let alternating := [0; 1; 0; 1; 0; 1; 0; 1; 0; 1; 0; 1; 0; 1]%nat in
  (Workflow.scrapeLog (fst (batchRun alternating))
   = [(1, Workflow.chatgpt); (2, Workflow.chatgpt);
      (1, Workflow.perplexity); (2, Workflow.perplexity)]
   /\ Workflow.clock (fst (batchRun alternating)) = 2020)
  /\ (Workflow.scrapeLog (fst (batchRun []))
      = [(1, Workflow.chatgpt); (1, Workflow.perplexity);
         (2, Workflow.chatgpt); (2, Workflow.perplexity)]
      /\ Workflow.clock (fst (batchRun [])) = 2040).
Proof. vm_compute. repeat split. Qed.
